(** * SSP dialect: the operation's dependence codec and the conversion
      between SSP IR and the scheduling problem model.

    Sources embedded here:
    - [lib/Dialect/SSP/SSPOps.cpp]: [OperationOp::parse], [OperationOp::print],
      [OperationOp::verify], [OperationOp::verifySymbolUses];
    - [include/circt/Dialect/SSP/Utilities.h]: the [load*Properties] and
      [save*Properties] helpers, [loadProblem] and [saveProblem]. *)

From stdpp Require Import gmap strings list pretty.
From Stdlib Require Import ZArith Lia.

Local Open Scope Z_scope.

(** ** Machine integers

    [unsigned] and [int] are 32 bits wide.  Values are kept in [Z]; the
    conversions and the increments spell out the wrap-around. *)

Definition UINT_RANGE : Z := 2 ^ 32.
Definition INT_MAX : Z := 2 ^ 31 - 1.

(** An [unsigned] value is a [Z] in [[0, 2^32)]. *)
Definition is_unsigned (u : Z) : Prop := 0 <= u < UINT_RANGE.

(** Conversion [unsigned -> int] (two's complement reinterpretation). *)
Definition to_int (u : Z) : Z :=
  let r := u mod UINT_RANGE in
  if r <=? INT_MAX then r else r - UINT_RANGE.

(** [int] addition, wrapping on overflow. *)
Definition int_add (a b : Z) : Z := to_int (a + b).

(** [++x] on an [unsigned]. *)
Definition uint_incr (u : Z) : Z := (u + 1) mod UINT_RANGE.

(** ** Diagnostics *)

(** [LogicalResult], with the emitted diagnostic kept in the failure. *)
Inductive LogicalResult : Type :=
| success
| failure (diagnostic : string).

(** ** IR data model *)

Section IR.

(** The encoded property values ([mlir::Attribute]) are opaque here. *)
Context {Attribute : Type}.

(** [ArrayAttr]; a null [ArrayAttr] is [None]. *)
Definition ArrayAttr : Type := option (list Attribute).

(** Modelled from the spec: the dependence record [DependenceAttr], whose
    declaration ([SSPAttributes.td]) is not among the sources:
    [(slotIndex, optionalSourceName, optionalPropertySequence)].
    [getOperandIdx] is an [unsigned]; a null [FlatSymbolRefAttr] is [None]. *)
Record DependenceAttr : Type := mkDependenceAttr {
  getOperandIdx : Z;
  getSourceRef : option string;
  getProperties : ArrayAttr;
}.

(** [Operation *]: an operation is addressed by its position in the body of
    the instance that contains it; the null pointer is [None] where it can
    occur. *)
Definition Operation : Type := nat.

(** An SSA value: result [resultNumber] of the operation [definingOp]. *)
Record Value : Type := OpResult {
  getDefiningOp : Operation;
  getResultNumber : nat;
}.

(** Modelled from the spec: an operation declaration [ssp.operation] of the
    document instance, whose declaration ([SSPOps.td]) is not among the
    sources: optional name, concrete inputs, results, dependence sequence and
    property sequence. *)
Record OperationOp : Type := mkOperationOp {
  getSymNameAttr : option string;
  getOperands : list Value;
  getNumResults : nat;
  getDependencesAttr : option (list DependenceAttr);
  getPropertiesAttr : ArrayAttr;
}.

(** [getNumOperands()] returns an [unsigned]. *)
Definition getNumOperands (op : OperationOp) : Z :=
  Z.of_nat (length (getOperands op)) mod UINT_RANGE.

(** ** [OperationOp::verify] *)

Definition msgOutOfBounds : string :=
  "Operand index is out of bounds for def-use dependence attribute".
Definition msgNotIncreasing : string :=
  "Def-use operand indices in dependence attribute are not monotonically increasing".
Definition msgInterleaved (sourceRef : string) : string :=
  "Auxiliary dependence from @" +:+ sourceRef +:+ " is interleaved with SSA operands".
Definition msgNotConsecutive : string :=
  "Auxiliary operand indices in dependence attribute are not consecutive".

(** The body of the [for] loop, threading [lastIdx]. *)
Fixpoint verifyDependences (nOperands lastIdx : Z) (dependences : list DependenceAttr)
  : LogicalResult :=
  match dependences with
  | [] => success
  | dep :: rest =>
      let idx := to_int (getOperandIdx dep) in
      match getSourceRef dep with
      | None =>
          if idx >=? nOperands then failure msgOutOfBounds
          else if idx <=? lastIdx then failure msgNotIncreasing
          else verifyDependences nOperands idx rest
      | Some sourceRef =>
          if idx <? nOperands then failure (msgInterleaved sourceRef)
          else if negb ((idx =? int_add lastIdx 1)
                        || ((idx >? lastIdx) && (idx =? nOperands)))
          then failure msgNotConsecutive
          else verifyDependences nOperands idx rest
      end
  end.

Definition verify (op : OperationOp) : LogicalResult :=
  match getDependencesAttr op with
  | None => success
  | Some dependences =>
      verifyDependences (to_int (getNumOperands op)) (-1) dependences
  end.

(** ** The document-form invariant, as the specification words it *)

Definition isDataRecord (dep : DependenceAttr) : Prop := getSourceRef dep = None.
Definition isAuxRecord (dep : DependenceAttr) : Prop := getSourceRef dep ≠ None.

Global Instance isDataRecord_dec dep : Decision (isDataRecord dep).
Proof. unfold isDataRecord. apply _. Defined.
Global Instance isAuxRecord_dec dep : Decision (isAuxRecord dep).
Proof. unfold isAuxRecord. apply _. Defined.

(** Slot indices of the data records, resp. of the auxiliary records, in
    sequence order. *)
Definition dataIndices (deps : list DependenceAttr) : list Z :=
  getOperandIdx <$> filter isDataRecord deps.
Definition auxIndices (deps : list DependenceAttr) : list Z :=
  getOperandIdx <$> filter isAuxRecord deps.

(** Strictly increasing: every element is below all later ones. *)
Fixpoint strictlyIncreasing (l : list Z) : Prop :=
  match l with
  | [] => True
  | x :: l' => Forall (fun y => x < y) l' /\ strictlyIncreasing l'
  end.

(** Starts at [start], each next index is the previous plus one. *)
Fixpoint consecutiveFrom (start : Z) (l : list Z) : Prop :=
  match l with
  | [] => True
  | x :: l' => x = start /\ consecutiveFrom (start + 1) l'
  end.

(** No data record comes after an auxiliary record. *)
Fixpoint notInterleaved (deps : list DependenceAttr) : Prop :=
  match deps with
  | [] => True
  | dep :: rest =>
      (isAuxRecord dep -> Forall isAuxRecord rest) /\ notInterleaved rest
  end.

Record recordInvariant (nOperands : Z) (deps : list DependenceAttr) : Prop := {
  data_increasing : strictlyIncreasing (dataIndices deps);
  data_in_range : Forall (fun i => i < nOperands) (dataIndices deps);
  aux_increasing : strictlyIncreasing (auxIndices deps);
  aux_consecutive : consecutiveFrom nOperands (auxIndices deps);
  aux_after_data : notInterleaved deps;
}.

(** The invariant of an operation; an absent attribute has no records. *)
Definition documentFormInvariant (op : OperationOp) : Prop :=
  recordInvariant (Z.of_nat (length (getOperands op)))
                  (default [] (getDependencesAttr op)).

(** Every stored index is an [unsigned]. *)
Definition indicesUnsigned (deps : list DependenceAttr) : Prop :=
  Forall (fun dep => is_unsigned (getOperandIdx dep)) deps.

(** ** [OperationOp::parse]: the dependence list

    The token stream is abstracted to what the parser calls return for each
    entry of the comma-separated list. *)

(** [OpAsmParser::UnresolvedOperand], named by its SSA name. *)
Definition UnresolvedOperand : Type := string.

Inductive DependenceSource : Type :=
| SymbolSource (sourceRef : string)
  (** [parseOptionalAttribute(sourceRef)] has a value *)
| OperandSource (operand : UnresolvedOperand)
  (** no symbol reference, and [parseOperand] succeeds *)
| NoSource.
  (** no symbol reference, and [parseOperand] fails *)

Record DependenceEntry : Type := mkDependenceEntry {
  entrySource : DependenceSource;
  entryProperties : ArrayAttr;   (** [parseOptionalAttribute(properties)] *)
}.

(** The variables captured by the lambda. *)
Record ParseState : Type := mkParseState {
  unresolvedOperands : list UnresolvedOperand;
  dependences : list DependenceAttr;
  operandIdx : Z;
}.

Definition msgExpectedSource : string := "expected SSA value or symbol reference".

Definition parseDependenceSourceWithAttrDict (entry : DependenceEntry) (st : ParseState)
  : string + ParseState :=
  match entrySource entry with
  | NoSource => inl msgExpectedSource
  | source =>
      let sourceRef :=
        match source with SymbolSource s => Some s | _ => None end in
      let unresolved :=
        match source with
        | OperandSource operand => unresolvedOperands st ++ [operand]
        | _ => unresolvedOperands st
        end in
      let properties := entryProperties entry in
      let deps :=
        if bool_decide (is_Some sourceRef) || bool_decide (is_Some properties)
        then dependences st ++ [mkDependenceAttr (operandIdx st) sourceRef properties]
        else dependences st in
      inr (mkParseState unresolved deps (uint_incr (operandIdx st)))
  end.

(** [parseCommaSeparatedList]: the element parser runs on each entry, left to
    right, and the first failure ends the parse. *)
Fixpoint parseCommaSeparatedList (entries : list DependenceEntry) (st : ParseState)
  : string + ParseState :=
  match entries with
  | [] => inr st
  | entry :: rest =>
      match parseDependenceSourceWithAttrDict entry st with
      | inl err => inl err
      | inr st' => parseCommaSeparatedList rest st'
      end
  end.

(** A named attribute of an operation. The operation of the model has the
    attributes [sym_name], [dependences] and [properties], and an attribute
    dictionary of the model holds entries for these. *)
Inductive NamedAttribute : Type :=
| NamedSymName (value : string)
| NamedDependences (value : list DependenceAttr)
| NamedProperties (value : list Attribute).

Definition attributeName (attr : NamedAttribute) : string :=
  match attr with
  | NamedSymName _ => "sym_name"
  | NamedDependences _ => "dependences"
  | NamedProperties _ => "properties"
  end.

(** What the parser has read for one [ssp.operation]; [synAttrDict] holds
    the entries that [parseOptionalAttrDict] reads, none if the text has no
    attribute dictionary. *)
Record OperationSyntax : Type := mkOperationSyntax {
  synSymName : option string;
  synEntries : list DependenceEntry;
  synProperties : ArrayAttr;
  synAttrDict : list NamedAttribute;
  synNumResults : nat;
}.

(** [OperationState &result], as far as [parse] fills it: the attributes in
    the order they are added, the operands and the number of result
    types. *)
Record OperationState : Type := mkOperationState {
  stateAttributes : list NamedAttribute;
  stateOperands : list Value;
  stateTypes : nat;
}.

Definition msgUndeclared (operand : UnresolvedOperand) : string :=
  "use of undeclared SSA value name %" +:+ operand.

(** [parser.resolveOperands], given the SSA scope. *)
Fixpoint resolveOperands (scope : UnresolvedOperand -> option Value)
  (unresolved : list UnresolvedOperand) : string + list Value :=
  match unresolved with
  | [] => inr []
  | operand :: rest =>
      match scope operand with
      | None => inl (msgUndeclared operand)
      | Some v =>
          match resolveOperands scope rest with
          | inl err => inl err
          | inr vs => inr (v :: vs)
          end
      end
  end.

Definition parse (scope : UnresolvedOperand -> option Value) (syn : OperationSyntax)
  : string + OperationState :=
  let symName :=
    match synSymName syn with
    | Some opName => [NamedSymName opName]
    | None => []
    end in
  match parseCommaSeparatedList (synEntries syn) (mkParseState [] [] 0) with
  | inl err => inl err
  | inr st =>
      let dependencesAttr :=
        match dependences st with [] => [] | deps => [NamedDependences deps] end in
      let propertiesAttr :=
        match synProperties syn with
        | Some properties => [NamedProperties properties]
        | None => []
        end in
      let attributes := symName ++ dependencesAttr ++ propertiesAttr ++ synAttrDict syn in
      match resolveOperands scope (unresolvedOperands st) with
      | inl err => inl err
      | inr operands => inr (mkOperationState attributes operands (synNumResults syn))
      end
  end.

(** The attributes that [parse] adds before the attribute dictionary, for
    a name [symName], the records [deps] of the dependence list and the
    properties [properties]. *)
Definition listedAttributes (symName : option string) (deps : list DependenceAttr)
  (properties : ArrayAttr) : list NamedAttribute :=
  match symName with Some opName => [NamedSymName opName] | None => [] end
  ++ match deps with [] => [] | _ => [NamedDependences deps] end
  ++ match properties with Some elements => [NamedProperties elements] | None => [] end.

Definition occurrences (name : string) (attributes : list NamedAttribute) : nat :=
  length (filter (fun attr => attributeName attr = name) attributes).

(** [NamedAttrList::findDuplicate] looks for the duplicate among the
    attributes sorted by name. *)
Definition findDuplicate (attributes : list NamedAttribute) : option string :=
  head (filter (fun name => (2 <= occurrences name attributes)%nat)
               ["dependences"; "properties"; "sym_name"]).

Definition msgDuplicate (name : string) : string :=
  "attribute '" +:+ name +:+ "' occurs more than once in the attribute list".

Definition symNameOf (attr : NamedAttribute) : option string :=
  match attr with NamedSymName value => Some value | _ => None end.

Definition dependencesOf (attr : NamedAttribute) : option (list DependenceAttr) :=
  match attr with NamedDependences value => Some value | _ => None end.

Definition propertiesOf (attr : NamedAttribute) : option (list Attribute) :=
  match attr with NamedProperties value => Some value | _ => None end.

(** Modelled from the spec: the operation that the parser of the framework
    creates from the state that [parse] has filled (the parser of the
    framework is not among the sources). It rejects a state that names an
    attribute more than once, as when the attribute dictionary names an
    attribute that [parse] has added before. The accessors of the operation
    return the attributes of their names. *)
Definition createOperation (state : OperationState) : string + OperationOp :=
  match findDuplicate (stateAttributes state) with
  | Some name => inl (msgDuplicate name)
  | None =>
      inr (mkOperationOp (head (omap symNameOf (stateAttributes state)))
                         (stateOperands state) (stateTypes state)
                         (head (omap dependencesOf (stateAttributes state)))
                         (head (omap propertiesOf (stateAttributes state))))
  end.

(** The operation that the text [syn] is parsed to. *)
Definition parseOperation (scope : UnresolvedOperand -> option Value)
  (syn : OperationSyntax) : string + OperationOp :=
  match parse scope syn with
  | inl err => inl err
  | inr state => createOperation state
  end.

(** ** Instances *)

(** [OperatorType] is the interned name of the operator type. *)
Definition OperatorType : Type := string.

(** Modelled from the spec: an operator type declaration
    [ssp.operator_type] ([SSPOps.td] is not among the sources). *)
Record OperatorTypeOp : Type := mkOperatorTypeOp {
  getNameAttr : OperatorType;
  getOprPropertiesAttr : ArrayAttr;
}.

Inductive BodyOp : Type :=
| OperatorTypeDecl (oprOp : OperatorTypeOp)
| OperationDecl (opOp : OperationOp).

(** Modelled from the spec: the document instance [ssp.instance] ([SSPOps.td]
    is not among the sources): name, instance-level property sequence and the
    declarations of its body, in order. *)
Record InstanceOp : Type := mkInstanceOp {
  getInstanceName : string;
  getProblemName : string;
  getInstPropertiesAttr : ArrayAttr;
  getBody : list BodyOp;
}.

Definition getSymbolName (op : BodyOp) : option string :=
  match op with
  | OperatorTypeDecl oprOp => Some (getNameAttr oprOp)
  | OperationDecl opOp => getSymNameAttr opOp
  end.

(** [SymbolTable::lookupSymbolIn(instOp, ref)] and
    [lookupNearestSymbolFrom(op, ref)] for an [op] of [instOp]: the first
    operation of the body that carries the symbol name; null is [None]. *)
Definition lookupSymbolIn (instOp : InstanceOp) (ref : string) : option Operation :=
  fst <$> list_find (fun op => getSymbolName op = Some ref) (getBody instOp).

(** [isa<OperationOp>(op)]. *)
Definition isaOperationOp (instOp : InstanceOp) (op : Operation) : bool :=
  match getBody instOp !! op with
  | Some (OperationDecl _) => true
  | _ => false
  end.

(** [instOp.walk([&](OperatorTypeOp oprOp) ...)]: the visited operations, in
    body order. *)
Definition operatorTypeOps (instOp : InstanceOp) : list OperatorTypeOp :=
  omap (fun op => match op with OperatorTypeDecl o => Some o | _ => None end)
       (getBody instOp).

(** [instOp.walk([&](OperationOp opOp) ...)]: handle and operation, in body
    order. *)
Definition operationOps (instOp : InstanceOp) : list (Operation * OperationOp) :=
  omap (fun '(h, op) =>
          match op with OperationDecl o => Some (h, o) | _ => None end)
       (imap pair (getBody instOp)).

(** The reference resolves, in the instance, to an [ssp.operation]. *)
Definition resolvesToOperation (instOp : InstanceOp) (sourceRef : string) : Prop :=
  exists sourceOp,
    lookupSymbolIn instOp sourceRef = Some sourceOp /\
    isaOperationOp instOp sourceOp = true.

(** ** [OperationOp::verifySymbolUses] *)

(** [emitOpError(msg)] starts the diagnostic with the name of the operation. *)
Definition emitOpError (msg : string) : string := "'ssp.operation' op " +:+ msg.

Definition msgInvalidSource (sourceRef : string) : string :=
  emitOpError ("references invalid source operation: @" +:+ sourceRef).

Fixpoint verifySymbolUsesIn (instOp : InstanceOp) (deps : list DependenceAttr)
  : LogicalResult :=
  match deps with
  | [] => success
  | dep :: rest =>
      match getSourceRef dep with
      | None => verifySymbolUsesIn instOp rest
      | Some sourceRef =>
          match lookupSymbolIn instOp sourceRef with
          | None => failure (msgInvalidSource sourceRef)
          | Some sourceOp =>
              if isaOperationOp instOp sourceOp
              then verifySymbolUsesIn instOp rest
              else failure (msgInvalidSource sourceRef)
          end
      end
  end.

Definition verifySymbolUses (instOp : InstanceOp) (op : OperationOp) : LogicalResult :=
  match getDependencesAttr op with
  | None => success
  | Some deps => verifySymbolUsesIn instOp deps
  end.

End IR.

Arguments DependenceAttr : clear implicits.
Arguments OperationOp : clear implicits.
Arguments ArrayAttr : clear implicits.
Arguments DependenceEntry : clear implicits.
Arguments ParseState : clear implicits.
Arguments NamedAttribute : clear implicits.
Arguments OperationSyntax : clear implicits.
Arguments OperationState : clear implicits.
Arguments OperatorTypeOp : clear implicits.
Arguments BodyOp : clear implicits.
Arguments InstanceOp : clear implicits.

(** ** The scheduling problem model, as the conversion uses it *)

(** Modelled from the spec: [scheduling::Problem::Dependence]
    ([circt/Scheduling/Problems.h] is not among the sources). A data (def-use)
    dependence is the operand [operandNumber] of its destination [owner]; an
    auxiliary dependence is a pair of operations. *)
Inductive Dependence : Type :=
| DefUseDep (owner : Operation) (operandNumber : nat)
| AuxDep (src dst : Operation).

Global Instance Dependence_eq_dec : EqDecision Dependence.
Proof. solve_decision. Defined.

Definition isAuxiliary (dep : Dependence) : bool :=
  match dep with AuxDep _ _ => true | DefUseDep _ _ => false end.

Section Conversion.

Context {Attribute : Type}.

(** The interface of the template parameter [ProblemT] that [loadProblem]
    and [saveProblem] call. [insertDependence] returns a [LogicalResult];
    [None] is [failure()]. *)
Class ProblemModel (ProblemT : Type) : Type := {
  Problem_get : InstanceOp Attribute -> ProblemT;
  getContainingOp : ProblemT -> InstanceOp Attribute;
  insertOperatorType : OperatorType -> ProblemT -> ProblemT;
  insertOperation : Operation -> ProblemT -> ProblemT;
  insertDependence : Dependence -> ProblemT -> option ProblemT;
  getOperatorTypes : ProblemT -> list OperatorType;
  getOperations : ProblemT -> list Operation;
  getDependences : ProblemT -> Operation -> list Dependence;
}.

(** A property class [P]: [classof] is the test [dyn_cast<P>] makes,
    [setInProblem] and [getFromProblem] are the members of [P]; [Target] is
    the attachment point. *)
Record PropertyKind (ProblemT Target : Type) : Type := mkPropertyKind {
  classof : Attribute -> bool;
  setInProblem : Attribute -> ProblemT -> Target -> ProblemT;
  getFromProblem : ProblemT -> Target -> option Attribute;
}.
Arguments classof {_ _} _ _.
Arguments setInProblem {_ _} _ _ _ _.
Arguments getFromProblem {_ _} _ _ _.

Context {ProblemT : Type} {model : ProblemModel ProblemT}.

(** *** Loading properties *)

(** [TypeSwitch<Attribute>(prop).Case<P, Ps...>(callback)]: the cases are
    tried in the order of the pack and the callback runs for the first class
    the value casts to. There is no [Default]: without a match nothing
    runs. *)
Fixpoint typeSwitch {Target : Type} (kinds : list (PropertyKind ProblemT Target))
  (prop : Attribute) (prob : ProblemT) (target : Target) : ProblemT :=
  match kinds with
  | [] => prob
  | kind :: kinds' =>
      if classof kind prop then setInProblem kind prop prob target
      else typeSwitch kinds' prop prob target
  end.

(** No kind of [kinds] decodes [prop]. *)
Definition unrecognized {Target : Type} (kinds : list (PropertyKind ProblemT Target))
  (prop : Attribute) : Prop :=
  Forall (fun kind => classof kind prop = false) kinds.

(** The shared body of the four [load*Properties] templates. *)
Definition loadProperties {Target : Type} (kinds : list (PropertyKind ProblemT Target))
  (prob : ProblemT) (target : Target) (props : ArrayAttr Attribute) : ProblemT :=
  match kinds with
  | [] => prob
  | _ =>
      match props with
      | None => prob
      | Some props =>
          foldl (fun prob prop => typeSwitch kinds prop prob target) prob props
      end
  end.

Definition loadOperationProperties (kinds : list (PropertyKind ProblemT Operation))
  (prob : ProblemT) (op : Operation) (props : ArrayAttr Attribute) : ProblemT :=
  loadProperties kinds prob op props.

Definition loadOperatorTypeProperties (kinds : list (PropertyKind ProblemT OperatorType))
  (prob : ProblemT) (opr : OperatorType) (props : ArrayAttr Attribute) : ProblemT :=
  loadProperties kinds prob opr props.

Definition loadDependenceProperties (kinds : list (PropertyKind ProblemT Dependence))
  (prob : ProblemT) (dep : Dependence) (props : ArrayAttr Attribute) : ProblemT :=
  loadProperties kinds prob dep props.

Definition loadInstanceProperties (kinds : list (PropertyKind ProblemT unit))
  (prob : ProblemT) (props : ArrayAttr Attribute) : ProblemT :=
  loadProperties kinds prob () props.

(** *** [loadProblem] *)

(** The fatal outcomes of a load: a failed [assert], or an operand access
    outside the operand list. *)
Inductive LoadError : Type :=
| AssertSourceOp                (** [assert(sourceOp)] *)
| AssertInsertionSucceeded      (** [assert(succeeded(res))] *)
| OperandOutOfBounds.           (** [getOpOperand] outside the operands *)

(** [&opOp->getOpOperand(idx)], for an [unsigned idx]. *)
Definition getOpOperand (opOp : OperationOp Attribute) (idx : Z) : option nat :=
  if bool_decide (0 <= idx < Z.of_nat (length (getOperands opOp)))
  then Some (Z.to_nat idx) else None.

(** One iteration of the loop over the dependence attributes of [opOp]. *)
Definition loadDependence (depKinds : list (PropertyKind ProblemT Dependence))
  (instOp : InstanceOp Attribute) (op : Operation) (opOp : OperationOp Attribute)
  (prob : ProblemT) (depAttr : DependenceAttr Attribute) : LoadError + ProblemT :=
  match getSourceRef depAttr with
  | Some sourceRef =>
      match lookupSymbolIn instOp sourceRef with
      | None => inl AssertSourceOp
      | Some sourceOp =>
          let dep := AuxDep sourceOp op in
          match insertDependence dep prob with
          | None => inl AssertInsertionSucceeded
          | Some prob =>
              inr (loadDependenceProperties depKinds prob dep (getProperties depAttr))
          end
      end
  | None =>
      match getOpOperand opOp (getOperandIdx depAttr) with
      | None => inl OperandOutOfBounds
      | Some operandNumber =>
          let dep := DefUseDep op operandNumber in
          inr (loadDependenceProperties depKinds prob dep (getProperties depAttr))
      end
  end.

(** A loop whose body may end the load. *)
Fixpoint foldlE {A E S : Type} (body : S -> A -> E + S) (s : S) (l : list A) : E + S :=
  match l with
  | [] => inr s
  | x :: l' =>
      match body s x with
      | inl err => inl err
      | inr s' => foldlE body s' l'
      end
  end.

(** The third walk, for one operation. *)
Definition loadDependences (depKinds : list (PropertyKind ProblemT Dependence))
  (instOp : InstanceOp Attribute) (prob : ProblemT)
  (entry : Operation * OperationOp Attribute) : LoadError + ProblemT :=
  let '(op, opOp) := entry in
  match getDependencesAttr opOp with
  | None => inr prob
  | Some depsAttr => foldlE (loadDependence depKinds instOp op opOp) prob depsAttr
  end.

(** The first two walks. *)
Definition loadOperatorType (oprKinds : list (PropertyKind ProblemT OperatorType))
  (prob : ProblemT) (oprOp : OperatorTypeOp Attribute) : ProblemT :=
  let opr := getNameAttr oprOp in
  let prob := insertOperatorType opr prob in
  loadOperatorTypeProperties oprKinds prob opr (getOprPropertiesAttr oprOp).

Definition loadOperation (opKinds : list (PropertyKind ProblemT Operation))
  (prob : ProblemT) (entry : Operation * OperationOp Attribute) : ProblemT :=
  let '(op, opOp) := entry in
  let prob := insertOperation op prob in
  loadOperationProperties opKinds prob op (getPropertiesAttr opOp).

(** The problem after the walks that cannot fail. *)
Definition loadNodes (instOp : InstanceOp Attribute)
  (opKinds : list (PropertyKind ProblemT Operation))
  (oprKinds : list (PropertyKind ProblemT OperatorType))
  (instKinds : list (PropertyKind ProblemT unit)) : ProblemT :=
  let prob := Problem_get instOp in
  let prob := loadInstanceProperties instKinds prob (getInstPropertiesAttr instOp) in
  let prob := foldl (loadOperatorType oprKinds) prob (operatorTypeOps instOp) in
  foldl (loadOperation opKinds) prob (operationOps instOp).

Definition loadProblem (instOp : InstanceOp Attribute)
  (opKinds : list (PropertyKind ProblemT Operation))
  (oprKinds : list (PropertyKind ProblemT OperatorType))
  (depKinds : list (PropertyKind ProblemT Dependence))
  (instKinds : list (PropertyKind ProblemT unit)) : LoadError + ProblemT :=
  foldlE (loadDependences depKinds instOp)
         (loadNodes instOp opKinds oprKinds instKinds)
         (operationOps instOp).

(** *** Saving properties *)

(** The shared body of the four [save*Properties] templates: the fold
    expression asks every class of the pack, in order, and keeps the non-null
    answers. *)
Definition saveProperties {Target : Type} (kinds : list (PropertyKind ProblemT Target))
  (prob : ProblemT) (target : Target) : ArrayAttr Attribute :=
  let props := omap (fun kind => getFromProblem kind prob target) kinds in
  match props with
  | [] => None
  | _ => Some props
  end.

Definition saveOperationProperties (kinds : list (PropertyKind ProblemT Operation))
  (prob : ProblemT) (op : Operation) : ArrayAttr Attribute :=
  saveProperties kinds prob op.

Definition saveOperatorTypeProperties (kinds : list (PropertyKind ProblemT OperatorType))
  (prob : ProblemT) (opr : OperatorType) : ArrayAttr Attribute :=
  saveProperties kinds prob opr.

Definition saveDependenceProperties (kinds : list (PropertyKind ProblemT Dependence))
  (prob : ProblemT) (dep : Dependence) : ArrayAttr Attribute :=
  saveProperties kinds prob dep.

Definition saveInstanceProperties (kinds : list (PropertyKind ProblemT unit))
  (prob : ProblemT) : ArrayAttr Attribute :=
  saveProperties kinds prob ().

(** *** [saveProblem] *)

(** [op->getOperands()] and [op->getNumResults()] for a handle of the
    problem: the handle is read in the instance the problem was built for.
    An operator type declaration has neither operands nor results. *)
Definition operandsOf (prob : ProblemT) (op : Operation) : list Value :=
  match getBody (getContainingOp prob) !! op with
  | Some (OperationDecl opOp) => getOperands opOp
  | _ => []
  end.

Definition numResultsOf (prob : ProblemT) (op : Operation) : nat :=
  match getBody (getContainingOp prob) !! op with
  | Some (OperationDecl opOp) => getNumResults opOp
  | _ => 0%nat
  end.

(** [Twine("Op") + Twine(n)]. *)
Definition synthesizedName (n : nat) : string := "Op" +:+ pretty n.

(** The name table [opNames], after the inner loop body ran for [dep]. The
    right-hand side of the assignment reads [opNames.size()] before the
    subscript inserts the key. *)
Definition assignSourceName (operationNameFn : Operation -> option string)
  (opNames : gmap Operation string) (dep : Dependence) : gmap Operation string :=
  match dep with
  | DefUseDep _ _ => opNames
  | AuxDep src _ =>
      if bool_decide (is_Some (opNames !! src)) then opNames
      else
        match operationNameFn src with
        | Some providedName => <[src := providedName]> opNames
        | None => <[src := synthesizedName (size opNames)]> opNames
        end
  end.

(** The outer loop body of the naming pass. *)
Definition assignNames (operationNameFn : Operation -> option string)
  (prob : ProblemT) (opNames : gmap Operation string) (op : Operation)
  : gmap Operation string :=
  let opNames :=
    match operationNameFn op with
    | Some providedName => <[op := providedName]> opNames
    | None => opNames
    end in
  foldl (assignSourceName operationNameFn) opNames (getDependences prob op).

Definition nameTable (operationNameFn : Operation -> option string) (prob : ProblemT)
  : gmap Operation string :=
  foldl (assignNames operationNameFn prob) ∅ (getOperations prob).

(** What the loops maintain: an entry of an operation the caller names is
    the caller's name; the entries of the other operations are synthesized
    from numbers below the size of the table, and differ from each other. *)
Record namesInvariant (operationNameFn : Operation -> option string)
  (opNames : gmap Operation string) : Prop := {
  provided_names : forall op name name',
    opNames !! op = Some name -> operationNameFn op = Some name' -> name = name';
  synthesized_names : forall op name,
    opNames !! op = Some name -> operationNameFn op = None ->
    exists n, (n < size opNames)%nat /\ name = synthesizedName n;
  synthesized_distinct : forall op op' name,
    op ≠ op' -> opNames !! op = Some name -> opNames !! op' = Some name ->
    operationNameFn op = None -> operationNameFn op' = None -> False;
}.

(** The one outcome that ends a save without an instance: the failed
    [assert(sourceOpName)]. *)
Inductive SaveError : Type :=
| AssertSourceOpName (src : Operation).

(** One iteration of the loop that builds [depAttrs]; the state is
    [(depAttrs, auxOperandIdx)]. *)
Definition emitDependence (depKinds : list (PropertyKind ProblemT Dependence))
  (prob : ProblemT) (opNames : gmap Operation string)
  (st : list (DependenceAttr Attribute) * Z) (dep : Dependence)
  : SaveError + (list (DependenceAttr Attribute) * Z) :=
  let '(depAttrs, auxOperandIdx) := st in
  let depProps := saveDependenceProperties depKinds prob dep in
  match dep with
  | DefUseDep _ operandNumber =>
      match depProps with
      | Some _ =>
          inr (depAttrs ++ [mkDependenceAttr (Z.of_nat operandNumber mod UINT_RANGE)
                                             None depProps],
               auxOperandIdx)
      | None => inr (depAttrs, auxOperandIdx)
      end
  | AuxDep src _ =>
      match opNames !! src with
      | None => inl (AssertSourceOpName src)
      | Some sourceOpName =>
          inr (depAttrs ++ [mkDependenceAttr auxOperandIdx (Some sourceOpName) depProps],
               uint_incr auxOperandIdx)
      end
  end.

(** The [depAttrs] built for [op]. *)
Definition emitDependences (depKinds : list (PropertyKind ProblemT Dependence))
  (prob : ProblemT) (opNames : gmap Operation string) (op : Operation)
  : SaveError + list (DependenceAttr Attribute) :=
  let auxOperandIdx := Z.of_nat (length (operandsOf prob op)) mod UINT_RANGE in
  match foldlE (emitDependence depKinds prob opNames) ([], auxOperandIdx)
               (getDependences prob op) with
  | inl err => inl err
  | inr (depAttrs, _) => inr depAttrs
  end.

(** The record of a data dependence: only with encoded properties, at the
    operand number, with no source name. *)
Definition dataRecordOf (depKinds : list (PropertyKind ProblemT Dependence))
  (prob : ProblemT) (dep : Dependence) : option (DependenceAttr Attribute) :=
  match dep with
  | DefUseDep _ operandNumber =>
      match saveDependenceProperties depKinds prob dep with
      | Some props =>
          Some (mkDependenceAttr (Z.of_nat operandNumber mod UINT_RANGE) None
                                 (Some props))
      | None => None
      end
  | AuxDep _ _ => None
  end.

(** The record of the [j]-th auxiliary dependence of an operation with
    [nOperands] operands. *)
Definition auxRecordOf (depKinds : list (PropertyKind ProblemT Dependence))
  (prob : ProblemT) (opNames : gmap Operation string) (nOperands : nat)
  (j : nat) (dep : Dependence) : DependenceAttr Attribute :=
  mkDependenceAttr (Z.of_nat nOperands + Z.of_nat j)
    (match dep with AuxDep src _ => opNames !! src | DefUseDep _ _ => None end)
    (saveDependenceProperties depKinds prob dep).

(** The records of an enumeration, the next auxiliary slot being [next]. *)
Fixpoint recordsFrom (depKinds : list (PropertyKind ProblemT Dependence))
  (prob : ProblemT) (opNames : gmap Operation string) (next : Z)
  (deps : list Dependence) : list (DependenceAttr Attribute) :=
  match deps with
  | [] => []
  | DefUseDep owner operandNumber :: rest =>
      option_list (dataRecordOf depKinds prob (DefUseDep owner operandNumber))
      ++ recordsFrom depKinds prob opNames next rest
  | AuxDep src dst :: rest =>
      mkDependenceAttr next (opNames !! src)
        (saveDependenceProperties depKinds prob (AuxDep src dst))
      :: recordsFrom depKinds prob opNames (next + 1) rest
  end.

(** Every auxiliary dependence of the enumeration has a named source. *)
Definition sourcesNamed (opNames : gmap Operation string) (deps : list Dependence) : Prop :=
  forall src dst, AuxDep src dst ∈ deps -> is_Some (opNames !! src).

(** The enumeration order [OperationOp::verify] relies on: the data
    dependences come first, by increasing operand number below the operand
    count, and the auxiliary dependences follow. *)
Fixpoint operandsFirst (nOperands : nat) (least : nat) (deps : list Dependence) : Prop :=
  match deps with
  | [] => True
  | DefUseDep _ operandNumber :: rest =>
      (least <= operandNumber < nOperands)%nat
      /\ operandsFirst nOperands (S operandNumber) rest
  | AuxDep _ _ :: rest => Forall (fun dep => isAuxiliary dep = true) rest
  end.

(** Modelled from the spec: the value mapper and its backedges
    ([circt/Support/ValueMapper.h] and [BackedgeBuilder.h] are not among the
    sources). Once every operation is emitted, the results of the [i]-th
    operation of the problem are the results of the [i]-th new
    [ssp.operation], which follows the operator type declarations in the new
    body. An operand defined outside the problem keeps the backedge that
    [ValueMapper::get] made for it: the single result of a placeholder
    operation. The placeholder is neither an operator type nor an operation
    declaration, so the model gives it a handle beyond the declarations of
    the new instance; the mapper makes one backedge per value. *)
Definition backedge (prob : ProblemT) (v : Value) : Value :=
  OpResult (length (getOperatorTypes prob) + length (getOperations prob)
            + encode_nat (getDefiningOp v, getResultNumber v))%nat 0%nat.

Definition mappedValue (prob : ProblemT) (v : Value) : Value :=
  match list_find (fun op => op = getDefiningOp v) (getOperations prob) with
  | Some (i, _) =>
      OpResult (length (getOperatorTypes prob) + i)%nat (getResultNumber v)
  | None => backedge prob v
  end.

(** [v.get(op->getOperands())]. *)
Definition mappedValues (prob : ProblemT) (vs : list Value) : list Value :=
  mappedValue prob <$> vs.

(** The body of the loop that constructs the operations. *)
Definition emitOperation (opKinds : list (PropertyKind ProblemT Operation))
  (depKinds : list (PropertyKind ProblemT Dependence))
  (prob : ProblemT) (opNames : gmap Operation string) (op : Operation)
  : SaveError + OperationOp Attribute :=
  match emitDependences depKinds prob opNames op with
  | inl err => inl err
  | inr depAttrs =>
      let dependences :=
        match depAttrs with [] => None | _ => Some depAttrs end in
      let properties := saveOperationProperties opKinds prob op in
      inr (mkOperationOp (opNames !! op) (mappedValues prob (operandsOf prob op))
                         (numResultsOf prob op) dependences properties)
  end.

Fixpoint emitOperations (opKinds : list (PropertyKind ProblemT Operation))
  (depKinds : list (PropertyKind ProblemT Dependence))
  (prob : ProblemT) (opNames : gmap Operation string) (ops : list Operation)
  : SaveError + list (OperationOp Attribute) :=
  match ops with
  | [] => inr []
  | op :: ops' =>
      match emitOperation opKinds depKinds prob opNames op with
      | inl err => inl err
      | inr opOp =>
          match emitOperations opKinds depKinds prob opNames ops' with
          | inl err => inl err
          | inr opOps => inr (opOp :: opOps)
          end
      end
  end.

Definition emitOperatorType (oprKinds : list (PropertyKind ProblemT OperatorType))
  (prob : ProblemT) (opr : OperatorType) : OperatorTypeOp Attribute :=
  mkOperatorTypeOp opr (saveOperatorTypeProperties oprKinds prob opr).

Definition saveProblem (prob : ProblemT) (instanceName problemName : string)
  (operationNameFn : Operation -> option string)
  (opKinds : list (PropertyKind ProblemT Operation))
  (oprKinds : list (PropertyKind ProblemT OperatorType))
  (depKinds : list (PropertyKind ProblemT Dependence))
  (instKinds : list (PropertyKind ProblemT unit))
  : SaveError + InstanceOp Attribute :=
  let instProperties := saveInstanceProperties instKinds prob in
  let oprOps := emitOperatorType oprKinds prob <$> getOperatorTypes prob in
  let opNames := nameTable operationNameFn prob in
  match emitOperations opKinds depKinds prob opNames (getOperations prob) with
  | inl err => inl err
  | inr opOps =>
      inr (mkInstanceOp instanceName problemName instProperties
                        ((OperatorTypeDecl <$> oprOps) ++ (OperationDecl <$> opOps)))
  end.

(** *** Isomorphic problems *)

(** The operation of the saved instance that stands for [op]: the new
    operations follow the operator type declarations, in the order of the
    problem. *)
Definition newHandle (prob : ProblemT) (op : Operation) : Operation :=
  match list_find (fun op' => op' = op) (getOperations prob) with
  | Some (i, _) => (length (getOperatorTypes prob) + i)%nat
  | None => (length (getOperatorTypes prob) + length (getOperations prob))%nat
  end.

Definition mapValue (f : Operation -> Operation) (v : Value) : Value :=
  OpResult (f (getDefiningOp v)) (getResultNumber v).

Definition mapDependence (f : Operation -> Operation) (dep : Dependence) : Dependence :=
  match dep with
  | DefUseDep owner operandNumber => DefUseDep (f owner) operandNumber
  | AuxDep src dst => AuxDep (f src) (f dst)
  end.

(** [prob'] is [prob] up to the renaming [f] of the operations: the same
    operations in the same order, with the same operands and results, the
    same operator types, the same dependences, and the same values of the
    properties of the given kinds. *)
Record problemIso (f : Operation -> Operation)
  (opKinds : list (PropertyKind ProblemT Operation))
  (oprKinds : list (PropertyKind ProblemT OperatorType))
  (depKinds : list (PropertyKind ProblemT Dependence))
  (instKinds : list (PropertyKind ProblemT unit))
  (prob prob' : ProblemT) : Prop := {
  iso_operations : getOperations prob' = f <$> getOperations prob;
  iso_distinct : NoDup (getOperations prob');
  iso_operands : forall op, op ∈ getOperations prob ->
    operandsOf prob' (f op) = mapValue f <$> operandsOf prob op /\
    numResultsOf prob' (f op) = numResultsOf prob op;
  iso_operator_types : getOperatorTypes prob' = getOperatorTypes prob;
  iso_dependences : forall op, op ∈ getOperations prob ->
    getDependences prob' (f op) = mapDependence f <$> getDependences prob op;
  iso_instance_properties : forall kind, kind ∈ instKinds ->
    getFromProblem kind prob' () = getFromProblem kind prob ();
  iso_operator_type_properties : forall kind opr,
    kind ∈ oprKinds -> opr ∈ getOperatorTypes prob ->
    getFromProblem kind prob' opr = getFromProblem kind prob opr;
  iso_operation_properties : forall kind op,
    kind ∈ opKinds -> op ∈ getOperations prob ->
    getFromProblem kind prob' (f op) = getFromProblem kind prob op;
  iso_dependence_properties : forall kind op dep,
    kind ∈ depKinds -> op ∈ getOperations prob -> dep ∈ getDependences prob op ->
    getFromProblem kind prob' (mapDependence f dep) = getFromProblem kind prob dep;
}.

End Conversion.

Arguments PropertyKind : clear implicits.
Arguments classof {_ _ _} _ _.
Arguments setInProblem {_ _ _} _ _ _ _.
Arguments getFromProblem {_ _ _} _ _ _.
Arguments ProblemModel : clear implicits.

(** ** A problem model *)

(** Where a property is attached. *)
Inductive AttachmentPoint : Type :=
| AtInstance
| AtOperatorType (opr : OperatorType)
| AtOperation (op : Operation)
| AtDependence (dep : Dependence).

Global Instance AttachmentPoint_eq_dec : EqDecision AttachmentPoint.
Proof. solve_decision. Defined.

Global Instance Dependence_countable : Countable Dependence.
Proof.
  refine (inj_countable'
    (fun dep => match dep with
                | DefUseDep owner n => inl (owner, n)
                | AuxDep src dst => inr (src, dst)
                end)
    (fun x => match x with
              | inl (owner, n) => DefUseDep owner n
              | inr (src, dst) => AuxDep src dst
              end) _).
  by intros [].
Defined.

Global Instance AttachmentPoint_countable : Countable AttachmentPoint.
Proof.
  refine (inj_countable'
    (fun point => match point with
                  | AtInstance => inl ()
                  | AtOperatorType opr => inr (inl opr)
                  | AtOperation op => inr (inr (inl op))
                  | AtDependence dep => inr (inr (inr dep))
                  end)
    (fun x => match x with
              | inl () => AtInstance
              | inr (inl opr) => AtOperatorType opr
              | inr (inr (inl op)) => AtOperation op
              | inr (inr (inr dep)) => AtDependence dep
              end) _).
  by intros [].
Defined.

Section Model.

Context {Attribute : Type}.

(** Modelled from the spec: the Problem container ([circt/Scheduling/Problems.h]
    is not among the sources). It owns the operator types, the operations in
    insertion order, the auxiliary dependences and the properties, and is
    bound to the instance it was created for. Data dependences are not
    stored: they are the operands of the registered operations. *)
Record Problem : Type := mkProblem {
  containingOp : InstanceOp Attribute;
  operatorTypes : list OperatorType;
  operations : list Operation;
  auxDependences : list (Operation * Operation);
  properties : gmap (AttachmentPoint * string) Attribute;
}.

(** Insertion into an insertion-ordered set. *)
Definition setInsert {A : Type} `{EqDecision A} (x : A) (l : list A) : list A :=
  if bool_decide (x ∈ l) then l else l ++ [x].

Definition Problem_insertOperatorType (opr : OperatorType) (prob : Problem) : Problem :=
  mkProblem (containingOp prob) (setInsert opr (operatorTypes prob))
            (operations prob) (auxDependences prob) (properties prob).

Definition Problem_insertOperation (op : Operation) (prob : Problem) : Problem :=
  mkProblem (containingOp prob) (operatorTypes prob)
            (setInsert op (operations prob)) (auxDependences prob) (properties prob).

Definition bodyOperands (instOp : InstanceOp Attribute) (op : Operation) : list Value :=
  match getBody instOp !! op with
  | Some (OperationDecl opOp) => getOperands opOp
  | _ => []
  end.

(** A dependence is accepted when its endpoints are operations of the
    problem; an auxiliary dependence is then recorded, once. *)
Definition Problem_insertDependence (dep : Dependence) (prob : Problem) : option Problem :=
  match dep with
  | AuxDep src dst =>
      if bool_decide (src ∈ operations prob) && bool_decide (dst ∈ operations prob)
      then Some (mkProblem (containingOp prob) (operatorTypes prob) (operations prob)
                           (setInsert (src, dst) (auxDependences prob))
                           (properties prob))
      else None
  | DefUseDep owner operandNumber =>
      match bodyOperands (containingOp prob) owner !! operandNumber with
      | Some v =>
          if bool_decide (getDefiningOp v ∈ operations prob)
             && bool_decide (owner ∈ operations prob)
          then Some prob else None
      | None => None
      end
  end.

(** The dependences that end in [op]: one per operand whose defining
    operation is registered, in operand order, then the recorded auxiliary
    dependences, in insertion order. *)
Definition Problem_getDependences (prob : Problem) (op : Operation) : list Dependence :=
  omap (fun '(i, v) =>
          if bool_decide (getDefiningOp v ∈ operations prob)
          then Some (DefUseDep op i) else None)
       (imap pair (bodyOperands (containingOp prob) op))
  ++ omap (fun '(src, dst) =>
             if bool_decide (dst = op) then Some (AuxDep src dst) else None)
          (auxDependences prob).

Global Instance Problem_model : ProblemModel Attribute Problem := {|
  Problem_get instOp := mkProblem instOp [] [] [] ∅;
  getContainingOp := containingOp;
  insertOperatorType := Problem_insertOperatorType;
  insertOperation := Problem_insertOperation;
  insertDependence := Problem_insertDependence;
  getOperatorTypes := operatorTypes;
  getOperations := operations;
  getDependences := Problem_getDependences;
|}.

(** Modelled from the spec: a property kind ([circt/Dialect/SSP/SSPAttributes.h]
    is not among the sources). The kind decodes the values [accepts] holds
    for, installs a value in its own slot [name] of the attachment point, and
    answers a query with the value in that slot. *)
Definition storedKind {Target : Type} (point : Target -> AttachmentPoint)
  (name : string) (accepts : Attribute -> bool) : PropertyKind Attribute Problem Target :=
  {| classof := accepts;
     setInProblem prop prob target :=
       mkProblem (containingOp prob) (operatorTypes prob) (operations prob)
                 (auxDependences prob)
                 (<[(point target, name) := prop]> (properties prob));
     getFromProblem prob target := properties prob !! (point target, name) |}.

(** A kind list over the problem model, from the slot name and the decoder
    of each kind. *)
Definition KindDesc : Type := string * (Attribute -> bool).

Definition kindsAt {Target : Type} (point : Target -> AttachmentPoint)
  (descs : list KindDesc) : list (PropertyKind Attribute Problem Target) :=
  (fun desc => storedKind point desc.1 desc.2) <$> descs.

(** The kind list partitions the encoded values: the kinds have slots of
    their own, and no value is decoded by two of them. *)
Record unambiguous (descs : list KindDesc) : Prop := {
  slots_distinct : NoDup descs.*1;
  decoders_disjoint : forall desc desc' prop,
    desc ∈ descs -> desc' ∈ descs ->
    desc.2 prop = true -> desc'.2 prop = true -> desc = desc';
}.

(** What the round trip needs of a valid document: the symbol names of the
    instance are unique, the operands are results of operations of the
    instance, and an operation has fewer than [2^32] operands. *)
Record validInstance (instOp : InstanceOp Attribute) : Prop := {
  valid_symbols : NoDup (omap getSymbolName (getBody instOp));
  valid_operands : forall op opOp v,
    getBody instOp !! op = Some (OperationDecl opOp) -> v ∈ getOperands opOp ->
    isaOperationOp instOp (getDefiningOp v) = true;
  valid_operand_count : forall op opOp,
    getBody instOp !! op = Some (OperationDecl opOp) ->
    Z.of_nat (length (getOperands opOp)) < UINT_RANGE;
}.

(** The caller's name function gives the operations the names they have in
    the document. *)
Definition reproducesNames (instOp : InstanceOp Attribute)
  (operationNameFn : Operation -> option string) : Prop :=
  forall op opOp,
    getBody instOp !! op = Some (OperationDecl opOp) ->
    operationNameFn op = getSymNameAttr opOp.

End Model.

Arguments Problem : clear implicits.
Arguments KindDesc : clear implicits.

(** ** Saved and reloaded problems *)

Section Stores.
Context {Attribute : Type}.

Definition withProperties (prob : Problem Attribute)
  (store : gmap (AttachmentPoint * string) Attribute) : Problem Attribute :=
  mkProblem (containingOp prob) (operatorTypes prob) (operations prob)
            (auxDependences prob) store.

(** What decoding [prop] at [point] does to the property store: the first
    kind that accepts the value puts it into its slot. *)
Definition dispatch (descs : list (KindDesc Attribute)) (point : AttachmentPoint)
  (prop : Attribute) (store : gmap (AttachmentPoint * string) Attribute)
  : gmap (AttachmentPoint * string) Attribute :=
  match list_find (fun desc : KindDesc Attribute => desc.2 prop = true) descs with
  | Some (_, desc) => <[(point, desc.1) := prop]> store
  | None => store
  end.

Definition insertAll {K V : Type} `{Countable K} (kvs : list (K * V)) (m : gmap K V)
  : gmap K V :=
  foldl (fun m kv => <[kv.1 := kv.2]> m) m kvs.

(** The values that [store] holds in the slots of [source], addressed to the
    slots of [target]. *)
Definition slotValues (descs : list (KindDesc Attribute))
  (store : gmap (AttachmentPoint * string) Attribute)
  (source target : AttachmentPoint)
  : list ((AttachmentPoint * string) * Attribute) :=
  omap (fun desc : KindDesc Attribute =>
          (fun prop => ((target, desc.1), prop)) <$> store !! (source, desc.1))
       descs.

(** Every value of a slot of [point] is one that the kind of the slot
    decodes. *)
Definition slotsTyped (descs : list (KindDesc Attribute)) (point : AttachmentPoint)
  (store : gmap (AttachmentPoint * string) Attribute) : Prop :=
  forall desc prop,
    desc ∈ descs -> store !! (point, desc.1) = Some prop -> desc.2 prop = true.

(** The store after the properties [props] are decoded at [point]. *)
Definition loadStore (descs : list (KindDesc Attribute)) (point : AttachmentPoint)
  (props : ArrayAttr Attribute) (store : gmap (AttachmentPoint * string) Attribute)
  : gmap (AttachmentPoint * string) Attribute :=
  foldl (fun store prop => dispatch descs point prop store) store (default [] props).

(** The operations of a body that starts at position [k]. *)
Definition operationsFrom (k : nat) (body : list (BodyOp Attribute))
  : list (Operation * OperationOp Attribute) :=
  omap (fun '(h, op) =>
          match op with OperationDecl o => Some (h, o) | _ => None end)
       (imap (fun i op => ((k + i)%nat, op)) body).

Section Kinds.

Variables opDescs oprDescs depDescs instDescs : list (KindDesc Attribute).

(** The kind list of an attachment point. *)
Definition descsFor (point : AttachmentPoint) : list (KindDesc Attribute) :=
  match point with
  | AtInstance => instDescs
  | AtOperatorType _ => oprDescs
  | AtOperation _ => opDescs
  | AtDependence _ => depDescs
  end.

Definition typedStore (store : gmap (AttachmentPoint * string) Attribute) : Prop :=
  forall point, slotsTyped (descsFor point) point store.

(** The operator types and the property store after the walks over the
    declarations. *)
Definition loadedOperatorTypes (instOp : InstanceOp Attribute) : list OperatorType :=
  foldl (fun oprs oprOp => setInsert (getNameAttr oprOp) oprs) []
        (operatorTypeOps instOp).

Definition loadedNodeStore (instOp : InstanceOp Attribute)
  : gmap (AttachmentPoint * string) Attribute :=
  foldl (fun store '(op, opOp) =>
           loadStore opDescs (AtOperation op) (getPropertiesAttr opOp) store)
        (foldl (fun store oprOp =>
                  loadStore oprDescs (AtOperatorType (getNameAttr oprOp))
                            (getOprPropertiesAttr oprOp) store)
               (loadStore instDescs AtInstance (getInstPropertiesAttr instOp) ∅)
               (operatorTypeOps instOp))
        (operationOps instOp).

(** What holds of a problem that is being loaded from [instOp]. *)
Record loadedFrom (instOp : InstanceOp Attribute) (prob : Problem Attribute) : Prop := {
  loaded_containingOp : containingOp prob = instOp;
  loaded_operatorTypes : operatorTypes prob = loadedOperatorTypes instOp;
  loaded_operations : operations prob = (operationOps instOp).*1;
  loaded_aux_distinct : NoDup (auxDependences prob);
  loaded_aux_endpoints : forall src dst,
    (src, dst) ∈ auxDependences prob ->
    src ∈ operations prob /\ dst ∈ operations prob /\
    exists sourceRef, lookupSymbolIn instOp sourceRef = Some src;
  loaded_store_typed : typedStore (properties prob);
}.

End Kinds.

End Stores.


Section Saved.

Context {Attribute ProblemT : Type} {model : ProblemModel Attribute ProblemT}.

(** The records the emission loop builds for an enumeration, the next
    auxiliary slot being [next]. *)
Fixpoint emittedRecords (depKinds : list (PropertyKind Attribute ProblemT Dependence))
  (prob : ProblemT) (opNames : gmap Operation string) (next : Z)
  (deps : list Dependence) : list (DependenceAttr Attribute) :=
  match deps with
  | [] => []
  | DefUseDep owner operandNumber :: rest =>
      option_list (dataRecordOf depKinds prob (DefUseDep owner operandNumber))
      ++ emittedRecords depKinds prob opNames next rest
  | AuxDep src dst :: rest =>
      mkDependenceAttr next (opNames !! src)
        (saveDependenceProperties depKinds prob (AuxDep src dst))
      :: emittedRecords depKinds prob opNames (uint_incr next) rest
  end.

(** The [ssp.operation] that [saveProblem] creates for [op]. *)
Definition emittedOperation (opKinds : list (PropertyKind Attribute ProblemT Operation))
  (depKinds : list (PropertyKind Attribute ProblemT Dependence))
  (prob : ProblemT) (opNames : gmap Operation string) (op : Operation)
  : OperationOp Attribute :=
  let depAttrs :=
    emittedRecords depKinds prob opNames
      (Z.of_nat (length (operandsOf prob op)) mod UINT_RANGE)
      (getDependences prob op) in
  mkOperationOp (opNames !! op)
    (mapValue (newHandle prob) <$> operandsOf prob op)
    (numResultsOf prob op)
    (match depAttrs with [] => None | _ => Some depAttrs end)
    (saveOperationProperties opKinds prob op).

(** The instance that [saveProblem] creates. *)
Definition savedInstance (prob : ProblemT) (instanceName problemName : string)
  (operationNameFn : Operation -> option string)
  (opKinds : list (PropertyKind Attribute ProblemT Operation))
  (oprKinds : list (PropertyKind Attribute ProblemT OperatorType))
  (depKinds : list (PropertyKind Attribute ProblemT Dependence))
  (instKinds : list (PropertyKind Attribute ProblemT unit)) : InstanceOp Attribute :=
  mkInstanceOp instanceName problemName (saveInstanceProperties instKinds prob)
    ((OperatorTypeDecl <$> (emitOperatorType oprKinds prob <$> getOperatorTypes prob))
     ++ (OperationDecl <$>
           (emittedOperation opKinds depKinds prob (nameTable operationNameFn prob)
              <$> getOperations prob))).

End Saved.

Section Reloaded.

Context {Attribute : Type}.
Variables opDescs oprDescs depDescs instDescs : list (KindDesc Attribute).
Variable prob : Problem Attribute.

(** The auxiliary dependences of an enumeration, as pairs of the new
    operations. *)
Definition movedAuxOf (deps : list Dependence) : list (Operation * Operation) :=
  omap (fun dep =>
          match dep with
          | AuxDep src dst => Some (newHandle prob src, newHandle prob dst)
          | DefUseDep _ _ => None
          end)
       deps.

Definition movedAuxDependences (op : Operation) : list (Operation * Operation) :=
  movedAuxOf (getDependences prob op).

(** The property values of a dependence, addressed to the dependence of the
    new operations. *)
Definition movedDependenceSlot (dep : Dependence)
  : list ((AttachmentPoint * string) * Attribute) :=
  slotValues depDescs (properties prob) (AtDependence dep)
             (AtDependence (mapDependence (newHandle prob) dep)).

Definition movedDependenceSlots (op : Operation)
  : list ((AttachmentPoint * string) * Attribute) :=
  getDependences prob op ≫= movedDependenceSlot.

(** All property values of the problem, addressed to the new operations, in
    the order in which the loader meets them again. *)
Definition movedSlots : list ((AttachmentPoint * string) * Attribute) :=
  slotValues instDescs (properties prob) AtInstance AtInstance
  ++ (operatorTypes prob ≫= fun opr =>
        slotValues oprDescs (properties prob) (AtOperatorType opr) (AtOperatorType opr))
  ++ (operations prob ≫= fun op =>
        slotValues opDescs (properties prob) (AtOperation op)
                   (AtOperation (newHandle prob op)))
  ++ (operations prob ≫= movedDependenceSlots).

(** The attachment points that the saver visits. *)
Definition visiblePoint (point : AttachmentPoint) : Prop :=
  match point with
  | AtInstance => True
  | AtOperatorType opr => opr ∈ operatorTypes prob
  | AtOperation op => op ∈ operations prob
  | AtDependence dep => exists op, op ∈ operations prob /\ dep ∈ getDependences prob op
  end.

(** The attachment point, at the new operations. *)
Definition movedPoint (point : AttachmentPoint) : AttachmentPoint :=
  match point with
  | AtInstance => AtInstance
  | AtOperatorType opr => AtOperatorType opr
  | AtOperation op => AtOperation (newHandle prob op)
  | AtDependence dep => AtDependence (mapDependence (newHandle prob) dep)
  end.

(** The problem that the saved instance [instOp'] loads to. *)
Definition reloadedProblem (instOp' : InstanceOp Attribute) : Problem Attribute :=
  mkProblem instOp' (operatorTypes prob) (newHandle prob <$> operations prob)
            (operations prob ≫= movedAuxDependences)
            (insertAll movedSlots ∅).

End Reloaded.

(** ** The decode rule, as the specification words it *)

Section DecodeRule.

Context {Attribute : Type}.

(** The record an entry materializes at slot [idx]: always for a symbol
    name, for a data input only with a property list. *)
Definition recordOf (idx : Z) (entry : DependenceEntry Attribute)
  : option (DependenceAttr Attribute) :=
  match entrySource entry, entryProperties entry with
  | SymbolSource sourceRef, properties =>
      Some (mkDependenceAttr idx (Some sourceRef) properties)
  | OperandSource _, Some properties =>
      Some (mkDependenceAttr idx None (Some properties))
  | _, _ => None
  end.

(** Every entry takes one slot, left to right, starting at [idx]. *)
Fixpoint materialized (idx : Z) (entries : list (DependenceEntry Attribute))
  : list (DependenceAttr Attribute) :=
  match entries with
  | [] => []
  | entry :: rest =>
      match recordOf idx entry with
      | Some dep => dep :: materialized (idx + 1) rest
      | None => materialized (idx + 1) rest
      end
  end.

Definition hasSource (entry : DependenceEntry Attribute) : Prop :=
  entrySource entry ≠ NoSource.

End DecodeRule.

(** ** [OperationOp::print] *)

Section Printer.

Context {Attribute : Type}.

(** What the printer writes, as the tokens the lexer reads back; white
    space is no token. [printSymbolName] and [printAttribute] of a
    [FlatSymbolRefAttr] both write [@name]; [printAttribute] of a null
    attribute writes [<<NULL ATTRIBUTE>>]. An attribute dictionary
    [{name = value, ...}] is one token. *)
Inductive Token : Type :=
| SymbolToken (name : string)
| LParenToken
| RParenToken
| CommaToken
| OperandToken (operand : UnresolvedOperand)
| ArrayToken (elements : list Attribute)
| AttrDictToken (attributes : list (NamedAttribute Attribute))
| NullAttributeToken.

(** [p.printAttribute(attr)] for an [ArrayAttr], resp. a
    [FlatSymbolRefAttr]. *)
Definition printArrayAttr (attr : ArrayAttr Attribute) : Token :=
  match attr with
  | Some elements => ArrayToken elements
  | None => NullAttributeToken
  end.

Definition printSymbolRefAttr (attr : option string) : Token :=
  match attr with
  | Some name => SymbolToken name
  | None => NullAttributeToken
  end.

(** The loop that sorts the records into [defUseDeps] and [auxDeps]:
    [defUseDeps[dep.getOperandIdx()] = dep] or [auxDeps.push_back(dep)]. A
    subscript outside the vector has no defined result: [None]. *)
Fixpoint collectDependences (defUseDeps : list (option (DependenceAttr Attribute)))
  (auxDeps : list (DependenceAttr Attribute))
  (dependences : list (DependenceAttr Attribute))
  : option (list (option (DependenceAttr Attribute)) * list (DependenceAttr Attribute)) :=
  match dependences with
  | [] => Some (defUseDeps, auxDeps)
  | dep :: rest =>
      match getSourceRef dep with
      | Some _ => collectDependences defUseDeps (auxDeps ++ [dep]) rest
      | None =>
          let idx := getOperandIdx dep in
          if bool_decide (0 <= idx < Z.of_nat (length defUseDeps))
          then collectDependences (<[Z.to_nat idx := Some dep]> defUseDeps) auxDeps rest
          else None
      end
  end.

(** [llvm::interleaveComma]: the first item, then [", "] before each
    further item. *)
Definition interleaveComma (items : list (list Token)) : list Token :=
  match items with
  | [] => []
  | item :: rest => item ++ (rest ≫= fun item' => CommaToken :: item')
  end.

(** The callback for an operand: the operand and, if [defUseDeps] holds a
    record at its number, the properties of the record. *)
Definition printOperandEntry (nameOf : Value -> UnresolvedOperand)
  (defUseDeps : list (option (DependenceAttr Attribute)))
  (operandNumber : nat) (operand : Value) : option (list Token) :=
  match defUseDeps !! operandNumber with
  | None => None
  | Some None => Some [OperandToken (nameOf operand)]
  | Some (Some dep) =>
      Some [OperandToken (nameOf operand); printArrayAttr (getProperties dep)]
  end.

(** The callback for an auxiliary record: the source reference and, if
    present, the properties. *)
Definition printAuxEntry (dep : DependenceAttr Attribute) : list Token :=
  printSymbolRefAttr (getSourceRef dep)
  :: match getProperties dep with
     | Some elements => [ArrayToken elements]
     | None => []
     end.

(** [getAttrs()] of the operation: its attributes, sorted by name. *)
Definition getAttrs (op : OperationOp Attribute) : list (NamedAttribute Attribute) :=
  match getDependencesAttr op with Some deps => [NamedDependences deps] | None => [] end
  ++ match getPropertiesAttr op with
     | Some elements => [NamedProperties elements]
     | None => []
     end
  ++ match getSymNameAttr op with Some name => [NamedSymName name] | None => [] end.

(** [p.printOptionalAttrDict(attrs, elidedAttrs)] writes the attributes
    that are not elided, if there are any. *)
Definition printOptionalAttrDict (attrs : list (NamedAttribute Attribute))
  (elidedAttrs : list string) : list Token :=
  match filter (fun attr => attributeName attr ∉ elidedAttrs) attrs with
  | [] => []
  | attributes => [AttrDictToken attributes]
  end.

(** [OperationOp::print]. [nameOf] is the SSA name [printOperand] writes
    for a value. The operation of the model has no attribute besides the
    three that the printer elides from the attribute dictionary. *)
Definition print (nameOf : Value -> UnresolvedOperand) (op : OperationOp Attribute)
  : option (list Token) :=
  let symName :=
    match getSymNameAttr op with
    | Some name => [SymbolToken name]
    | None => []
    end in
  match collectDependences (replicate (Z.to_nat (getNumOperands op)) None) []
                           (default [] (getDependencesAttr op)) with
  | None => None
  | Some (defUseDeps, auxDeps) =>
      match mapM (fun '(operandNumber, operand) =>
                    printOperandEntry nameOf defUseDeps operandNumber operand)
                 (imap pair (getOperands op)) with
      | None => None
      | Some operandEntries =>
          let auxEntries :=
            match auxDeps with
            | [] => []
            | _ =>
                match defUseDeps with [] => [] | _ => [CommaToken] end
                ++ interleaveComma (printAuxEntry <$> auxDeps)
            end in
          let properties :=
            match getPropertiesAttr op with
            | Some elements => [ArrayToken elements]
            | None => []
            end in
          let elidedAttrs := ["sym_name"; "dependences"; "properties"] in
          Some (symName ++ [LParenToken] ++ interleaveComma operandEntries
                ++ auxEntries ++ [RParenToken] ++ properties
                ++ printOptionalAttrDict (getAttrs op) elidedAttrs)
      end
  end.

(** Modelled from the spec: the document grammar of an operation,
    [name? "(" depRecord,* ")" opProps? attr*] with
    [depRecord := (inputRef | "@" name) propList?]: the tokens of the text
    that the parser reads as [syn]. The attributes that follow the
    properties are the entries of one attribute dictionary. *)
Definition renderEntry (entry : DependenceEntry Attribute) : list Token :=
  match entrySource entry with
  | SymbolSource sourceRef => [SymbolToken sourceRef]
  | OperandSource operand => [OperandToken operand]
  | NoSource => []
  end
  ++ match entryProperties entry with
     | Some elements => [ArrayToken elements]
     | None => []
     end.

Definition render (syn : OperationSyntax Attribute) : list Token :=
  match synSymName syn with
  | Some name => [SymbolToken name]
  | None => []
  end
  ++ [LParenToken] ++ interleaveComma (renderEntry <$> synEntries syn)
  ++ [RParenToken]
  ++ match synProperties syn with
     | Some elements => [ArrayToken elements]
     | None => []
     end
  ++ match synAttrDict syn with
     | [] => []
     | attributes => [AttrDictToken attributes]
     end.

(** ** Shapes of a dependence list *)

Definition isOperandEntry (entry : DependenceEntry Attribute) : Prop :=
  match entrySource entry with OperandSource _ => True | _ => False end.

Definition isSymbolEntry (entry : DependenceEntry Attribute) : Prop :=
  match entrySource entry with SymbolSource _ => True | _ => False end.

(** The operands the parser collects: the names of the operand entries,
    left to right. *)
Definition operandNames (entries : list (DependenceEntry Attribute))
  : list UnresolvedOperand :=
  omap (fun entry =>
          match entrySource entry with
          | OperandSource operand => Some operand
          | _ => None
          end)
       entries.

(** The list the printer writes: the operand entries come first and the
    symbol references follow. *)
Definition operandsLead (entries : list (DependenceEntry Attribute)) : Prop :=
  exists operandEntries symbolEntries,
    entries = operandEntries ++ symbolEntries /\
    Forall isOperandEntry operandEntries /\
    Forall isSymbolEntry symbolEntries.

(** The properties of the data record of [deps] at slot [idx], if any. *)
Definition dataPropertiesAt (deps : list (DependenceAttr Attribute)) (idx : Z)
  : ArrayAttr Attribute :=
  match list_find (fun dep => getSourceRef dep = None /\ getOperandIdx dep = idx) deps with
  | Some (_, dep) => getProperties dep
  | None => None
  end.

(** The entry that stands for an auxiliary record. *)
Definition auxEntryOf (dep : DependenceAttr Attribute) : option (DependenceEntry Attribute) :=
  match getSourceRef dep with
  | Some sourceRef => Some (mkDependenceEntry (SymbolSource sourceRef) (getProperties dep))
  | None => None
  end.

(** The dependence list that stands for the records of [op]: one entry per
    operand, with the properties of its data record, then one entry per
    auxiliary record. *)
Definition entriesOf (nameOf : Value -> UnresolvedOperand) (op : OperationOp Attribute)
  : list (DependenceEntry Attribute) :=
  let deps := default [] (getDependencesAttr op) in
  imap (fun i operand =>
          mkDependenceEntry (OperandSource (nameOf operand))
                            (dataPropertiesAt deps (Z.of_nat i)))
       (getOperands op)
  ++ omap auxEntryOf deps.

Definition syntaxOf (nameOf : Value -> UnresolvedOperand) (op : OperationOp Attribute)
  : OperationSyntax Attribute :=
  mkOperationSyntax (getSymNameAttr op) (entriesOf nameOf op) (getPropertiesAttr op)
                    [] (getNumResults op).

End Printer.

Arguments Token : clear implicits.

Global Instance isOperandEntry_dec {Attribute : Type} (entry : DependenceEntry Attribute) :
  Decision (isOperandEntry entry).
Proof. unfold isOperandEntry. destruct (entrySource entry); apply _. Defined.

Global Instance isSymbolEntry_dec {Attribute : Type} (entry : DependenceEntry Attribute) :
  Decision (isSymbolEntry entry).
Proof. unfold isSymbolEntry. destruct (entrySource entry); apply _. Defined.

(** ** Example documents *)

(** An encoded property value of the examples: a mnemonic and a number. *)
Definition ExampleAttr : Type := string * Z.

(** [ssp.operation(%a, %b [p], @op0, @op1 [q])], after parsing. *)
Definition exampleOperationOp : OperationOp ExampleAttr :=
  mkOperationOp None [OpResult 0%nat 0%nat; OpResult 1%nat 0%nat] 1%nat
    (Some [mkDependenceAttr 1 None (Some [("p", 7)]);
           mkDependenceAttr 2 (Some "op0") None;
           mkDependenceAttr 3 (Some "op1") (Some [("q", 1)])])
    None.

Definition exampleEntries : list (DependenceEntry ExampleAttr) :=
  [mkDependenceEntry (OperandSource "a") None;
   mkDependenceEntry (OperandSource "b") (Some [("p", 7)]);
   mkDependenceEntry (SymbolSource "op0") None;
   mkDependenceEntry (SymbolSource "op1") (Some [("q", 1)])].

(** Property kinds of the examples: a kind decodes the values that carry
    its mnemonic and keeps them in the slot of that name. *)
Definition mnemonicDesc (mnemonic : string) : KindDesc ExampleAttr :=
  (mnemonic, fun prop => bool_decide (prop.1 = mnemonic)).

(** A kind that decodes every value, and keeps it in the slot [name]. *)
Definition greedyKind {Target : Type} (point : Target -> AttachmentPoint)
  (name : string) : PropertyKind ExampleAttr (Problem ExampleAttr) Target :=
  storedKind point name (fun _ => true).

Definition exampleOpDescs : list (KindDesc ExampleAttr) :=
  mnemonicDesc <$> ["opr"; "startTime"].
Definition exampleOprDescs : list (KindDesc ExampleAttr) :=
  mnemonicDesc <$> ["latency"].
Definition exampleDepDescs : list (KindDesc ExampleAttr) :=
  mnemonicDesc <$> ["distance"].
Definition exampleInstDescs : list (KindDesc ExampleAttr) :=
  mnemonicDesc <$> ["initiationInterval"].

Definition exampleOpKinds : list (PropertyKind ExampleAttr (Problem ExampleAttr) Operation) :=
  kindsAt AtOperation exampleOpDescs.
Definition exampleOprKinds
  : list (PropertyKind ExampleAttr (Problem ExampleAttr) OperatorType) :=
  kindsAt AtOperatorType exampleOprDescs.
Definition exampleDepKinds
  : list (PropertyKind ExampleAttr (Problem ExampleAttr) Dependence) :=
  kindsAt AtDependence exampleDepDescs.
Definition exampleInstKinds : list (PropertyKind ExampleAttr (Problem ExampleAttr) unit) :=
  kindsAt (fun _ : unit => AtInstance) exampleInstDescs.

(** The scenario of the specification: operator types [slow] and [fast],
    [op0(): slow], [op1(%op0): fast], [op2(@op0): fast]. *)
Definition exampleInstance : InstanceOp ExampleAttr :=
  mkInstanceOp "inst" "Problem" None
    [OperatorTypeDecl (mkOperatorTypeOp "slow" (Some [("latency", 3)]));
     OperatorTypeDecl (mkOperatorTypeOp "fast" (Some [("latency", 1)]));
     OperationDecl (mkOperationOp (Some "op0") [] 1%nat None (Some [("opr", 0)]));
     OperationDecl (mkOperationOp None [OpResult 2%nat 0%nat] 1%nat
                      (Some [mkDependenceAttr 0 None (Some [("distance", 1)])])
                      (Some [("opr", 1)]));
     OperationDecl (mkOperationOp None [] 1%nat
                      (Some [mkDependenceAttr 0 (Some "op0") None])
                      (Some [("opr", 1)]))].

(** One operation with a property value of a mnemonic that no kind of
    [exampleOpKinds] decodes. *)
Definition unrecognizedInstance : InstanceOp ExampleAttr :=
  mkInstanceOp "inst" "Problem" None
    [OperationDecl (mkOperationOp None [] 1%nat None (Some [("unknown", 5)]))].

(** [op1] has one operand and a data record for it. *)
Definition dataRecordInstance : InstanceOp ExampleAttr :=
  mkInstanceOp "inst" "Problem" None
    [OperationDecl (mkOperationOp (Some "op0") [] 1%nat None None);
     OperationDecl (mkOperationOp None [OpResult 0%nat 0%nat] 1%nat
                      (Some [mkDependenceAttr 0 None (Some [("distance", 1)])])
                      None)].

(** A problem model that rejects every dependence it is asked to insert. *)
Definition rejectingModel : ProblemModel ExampleAttr (Problem ExampleAttr) := {|
  Problem_get instOp := mkProblem instOp [] [] [] ∅;
  getContainingOp := containingOp;
  insertOperatorType := Problem_insertOperatorType;
  insertOperation := Problem_insertOperation;
  insertDependence := fun _ _ => None;
  getOperatorTypes := operatorTypes;
  getOperations := operations;
  getDependences := Problem_getDependences;
|}.

(** [op0] references [@missing], which the instance does not declare, and
    [@slow], which is an operator type. *)
Definition danglingInstance : InstanceOp ExampleAttr :=
  mkInstanceOp "inst" "Problem" None
    [OperatorTypeDecl (mkOperatorTypeOp "slow" None);
     OperationDecl (mkOperationOp (Some "op0") [] 1%nat
                      (Some [mkDependenceAttr 0 (Some "missing") None]) None);
     OperationDecl (mkOperationOp (Some "op1") [] 1%nat
                      (Some [mkDependenceAttr 0 (Some "slow") None]) None)].

(** A problem model that accepts every dependence it is asked to insert, and
    records the auxiliary ones. *)
Definition acceptingModel : ProblemModel ExampleAttr (Problem ExampleAttr) := {|
  Problem_get instOp := mkProblem instOp [] [] [] ∅;
  getContainingOp := containingOp;
  insertOperatorType := Problem_insertOperatorType;
  insertOperation := Problem_insertOperation;
  insertDependence := fun dep prob =>
    Some match dep with
         | AuxDep src dst =>
             mkProblem (containingOp prob) (operatorTypes prob) (operations prob)
                       (setInsert (src, dst) (auxDependences prob)) (properties prob)
         | DefUseDep _ _ => prob
         end;
  getOperatorTypes := operatorTypes;
  getOperations := operations;
  getDependences := Problem_getDependences;
|}.

(** The one operation references [@slow], which is an operator type. *)
Definition wrongKindOperationOp : OperationOp ExampleAttr :=
  mkOperationOp (Some "op0") [] 1%nat
    (Some [mkDependenceAttr 0 (Some "slow") None]) None.

Definition wrongKindInstance : InstanceOp ExampleAttr :=
  mkInstanceOp "inst" "Problem" None
    [OperatorTypeDecl (mkOperatorTypeOp "slow" None);
     OperationDecl wrongKindOperationOp].

(** [op0] is the source of an auxiliary dependence of [op1]; the caller
    names only [op1], and calls it [Op1]. *)
Definition collidingInstance : InstanceOp ExampleAttr :=
  mkInstanceOp "inst" "Problem" None
    [OperationDecl (mkOperationOp (Some "a") [] 1%nat None None);
     OperationDecl (mkOperationOp None [] 1%nat
                      (Some [mkDependenceAttr 0 (Some "a") None]) None)].

Definition collidingProblem : Problem ExampleAttr :=
  mkProblem collidingInstance [] [0%nat; 1%nat] [(0%nat, 1%nat)] ∅.

Definition collidingNameFn (op : Operation) : option string :=
  if bool_decide (op = 1%nat) then Some "Op1" else None.

(** [op1] is the source of an auxiliary dependence of [op0]; the caller
    names only [op0], and calls it [Op1]. *)
Definition shadowingInstance : InstanceOp ExampleAttr :=
  mkInstanceOp "inst" "Problem" None
    [OperationDecl (mkOperationOp None [] 1%nat
                      (Some [mkDependenceAttr 0 (Some "b") None]) None);
     OperationDecl (mkOperationOp (Some "b") [] 1%nat None None)].

Definition shadowingProblem : Problem ExampleAttr :=
  mkProblem shadowingInstance [] [0%nat; 1%nat] [(1%nat, 0%nat)] ∅.

Definition shadowingNameFn (op : Operation) : option string :=
  if bool_decide (op = 0%nat) then Some "Op1" else None.

(** The caller names only [op1], and calls it [sink]. *)
Definition sinkNameFn (op : Operation) : option string :=
  if bool_decide (op = 1%nat) then Some "sink" else None.

(** The problem that [exampleInstance] loads to. *)
Definition exampleProblem : Problem ExampleAttr :=
  mkProblem exampleInstance ["slow"; "fast"] [2%nat; 3%nat; 4%nat] [(2%nat, 4%nat)]
    (list_to_map
       [((AtOperatorType "slow", "latency"), ("latency", 3));
        ((AtOperatorType "fast", "latency"), ("latency", 1));
        ((AtOperation 2%nat, "opr"), ("opr", 0));
        ((AtOperation 3%nat, "opr"), ("opr", 1));
        ((AtOperation 4%nat, "opr"), ("opr", 1));
        ((AtDependence (DefUseDep 3%nat 0%nat), "distance"), ("distance", 1))]).

(** The caller's names for [exampleInstance]. *)
Definition exampleNameFn (op : Operation) : option string :=
  if bool_decide (op = 2%nat) then Some "op0" else None.

(** ** Example texts *)

(** The printer names the results of operation 0 [%a] and the others
    [%b]; the scope of the text declares both names. *)
Definition exampleNameOf (v : Value) : UnresolvedOperand :=
  if bool_decide (getDefiningOp v = 0%nat) then "a" else "b".

Definition exampleScope (operand : UnresolvedOperand) : option Value :=
  if bool_decide (operand = "a") then Some (OpResult 0%nat 0%nat)
  else if bool_decide (operand = "b") then Some (OpResult 1%nat 0%nat)
  else None.

(** [ssp.operation(%a, %b [p], @op0, @op1 [q])]. *)
Definition exampleSyntax : OperationSyntax ExampleAttr :=
  mkOperationSyntax None exampleEntries None [] 1%nat.

(** [ssp.operation(@op0, %a)]: the symbol reference stands before the
    operand. *)
Definition interleavedSyntax : OperationSyntax ExampleAttr :=
  mkOperationSyntax None
    [mkDependenceEntry (SymbolSource "op0") None;
     mkDependenceEntry (OperandSource "a") None]
    None [] 1%nat.

(** [ssp.operation @op5() {dependences = []}]: the attribute dictionary
    holds an empty dependence sequence. *)
Definition emptyDependencesSyntax : OperationSyntax ExampleAttr :=
  mkOperationSyntax (Some "op5") [] None [NamedDependences []] 1%nat.

(** [ssp.operation(%a) {dependences = [#ssp.dependence<5>]}]: the record of
    the attribute dictionary is beyond the operand. *)
Definition beyondOperandsSyntax : OperationSyntax ExampleAttr :=
  mkOperationSyntax None [mkDependenceEntry (OperandSource "a") None] None
    [NamedDependences [mkDependenceAttr 5 None None]] 1%nat.

(** [ssp.operation(%a) {dependences = [#ssp.dependence<0 : [#p<1>]>]}]: the
    attribute dictionary holds the record of the operand. *)
Definition dictionaryRecordSyntax : OperationSyntax ExampleAttr :=
  mkOperationSyntax None [mkDependenceEntry (OperandSource "a") None] None
    [NamedDependences [mkDependenceAttr 0 None (Some [("p", 1)])]] 1%nat.

(** [ssp.operation(@op0) {dependences = []}]: the list and the attribute
    dictionary both give the dependence sequence. *)
Definition duplicateDependencesSyntax : OperationSyntax ExampleAttr :=
  mkOperationSyntax None [mkDependenceEntry (SymbolSource "op0") None] None
    [NamedDependences []] 1%nat.

Definition interleavedOperationOp : OperationOp ExampleAttr :=
  mkOperationOp None [OpResult 0%nat 0%nat] 1%nat
    (Some [mkDependenceAttr 0 (Some "op0") None]) None.


(** One operand, and a data record for a second operand. *)
Definition overflowingOperationOp : OperationOp ExampleAttr :=
  mkOperationOp None [OpResult 0%nat 0%nat] 1%nat
    (Some [mkDependenceAttr 1 None (Some [("p", 7)])]) None.

(** The problem holds [op1] of [dataRecordInstance], but not the operation
    that defines its operand. *)
Definition openProblem : Problem ExampleAttr :=
  mkProblem dataRecordInstance [] [1%nat] [] ∅.

(** * Theorems *)

(** ** Machine integers *)

Lemma to_int_small (u : Z) : 0 <= u <= INT_MAX -> to_int u = u.
Proof.
  intros Hu. unfold to_int, UINT_RANGE, INT_MAX in *.
  rewrite Z.mod_small by lia.
  destruct (Z.leb_spec u (2 ^ 31 - 1)); lia.
Qed.

Lemma to_int_unsigned_nonneg (u : Z) :
  is_unsigned u -> 0 <= to_int u -> to_int u = u.
Proof.
  unfold is_unsigned, to_int, UINT_RANGE, INT_MAX. intros Hu.
  rewrite Z.mod_small by lia.
  destruct (Z.leb_spec u (2 ^ 31 - 1)); lia.
Qed.

Lemma to_int_unsigned_cases (u : Z) :
  is_unsigned u ->
  (u <= INT_MAX /\ to_int u = u) \/ (INT_MAX < u /\ to_int u < 0).
Proof.
  unfold is_unsigned, to_int, UINT_RANGE, INT_MAX. intros Hu.
  rewrite Z.mod_small by lia.
  destruct (Z.leb_spec u (2 ^ 31 - 1)); lia.
Qed.

Lemma to_int_mod_le (x : Z) : 0 <= x -> to_int (x mod UINT_RANGE) <= x.
Proof.
  intros Hx. unfold to_int, UINT_RANGE, INT_MAX.
  rewrite Z.mod_mod by lia.
  pose proof (Z.mod_le x (2 ^ 32) Hx ltac:(lia)).
  pose proof (Z.mod_pos_bound x (2 ^ 32) ltac:(lia)).
  destruct (Z.leb_spec (x mod 2 ^ 32) (2 ^ 31 - 1)); lia.
Qed.

Lemma uint_incr_small (u : Z) : 0 <= u < UINT_RANGE - 1 -> uint_incr u = u + 1.
Proof. intros Hu. unfold uint_incr. apply Z.mod_small. lia. Qed.

(** ** [OperationOp::verify] against the document-form invariant *)

Section VerifyFacts.

Context {Attribute : Type}.
Implicit Types (dep : DependenceAttr Attribute) (deps : list (DependenceAttr Attribute)).

Lemma dataIndices_cons_data dep deps :
  getSourceRef dep = None ->
  dataIndices (dep :: deps) = getOperandIdx dep :: dataIndices deps.
Proof.
  intros Hd. unfold dataIndices. rewrite filter_cons_True; done.
Qed.

Lemma dataIndices_cons_aux dep deps :
  getSourceRef dep ≠ None -> dataIndices (dep :: deps) = dataIndices deps.
Proof.
  intros Hd. unfold dataIndices. rewrite filter_cons_False; done.
Qed.

Lemma auxIndices_cons_aux dep deps :
  getSourceRef dep ≠ None ->
  auxIndices (dep :: deps) = getOperandIdx dep :: auxIndices deps.
Proof.
  intros Hd. unfold auxIndices. rewrite filter_cons_True; done.
Qed.

Lemma auxIndices_cons_data dep deps :
  getSourceRef dep = None -> auxIndices (dep :: deps) = auxIndices deps.
Proof.
  intros Hd. unfold auxIndices. rewrite filter_cons_False; [done|].
  unfold isAuxRecord. tauto.
Qed.

Lemma all_aux_indices deps :
  Forall isAuxRecord deps ->
  dataIndices deps = [] /\ auxIndices deps = getOperandIdx <$> deps.
Proof.
  induction 1 as [|dep deps Hd _ [IH1 IH2]]; [done|].
  rewrite dataIndices_cons_aux, auxIndices_cons_aux by done.
  rewrite IH1, IH2. done.
Qed.

Lemma all_aux_notInterleaved deps : Forall isAuxRecord deps -> notInterleaved deps.
Proof. induction 1; simpl; auto. Qed.

Lemma consecutiveFrom_increasing (start : Z) (l : list Z) :
  consecutiveFrom start l -> Forall (fun y => start <= y) l /\ strictlyIncreasing l.
Proof.
  revert start. induction l as [|x l IH]; intros start; simpl; [by auto|].
  intros [-> Hl]. destruct (IH _ Hl) as [Hge Hinc]. repeat split.
  - constructor; [lia|]. eapply Forall_impl; [exact Hge|]. simpl. lia.
  - eapply Forall_impl; [exact Hge|]. simpl. lia.
  - done.
Qed.

(** The boolean tests of the loop body, as propositions. *)
Lemma verifyDependences_cons (nOperands lastIdx : Z) dep deps :
  verifyDependences nOperands lastIdx (dep :: deps) = success <->
  let idx := to_int (getOperandIdx dep) in
  match getSourceRef dep with
  | None => idx < nOperands /\ lastIdx < idx
  | Some _ =>
      nOperands <= idx /\
      (idx = int_add lastIdx 1 \/ (lastIdx < idx /\ idx = nOperands))
  end /\ verifyDependences nOperands idx deps = success.
Proof.
  cbn [verifyDependences]. cbv zeta.
  set (idx := to_int (getOperandIdx dep)).
  destruct (getSourceRef dep) as [sourceRef|].
  - rewrite Z.gtb_ltb.
    destruct (Z.ltb_spec idx nOperands), (Z.eqb_spec idx (int_add lastIdx 1)),
      (Z.ltb_spec lastIdx idx), (Z.eqb_spec idx nOperands); simpl;
      (split; [intros ?; try done; repeat split; auto; lia | intros [[? ?] ?]; try done; lia]).
  - rewrite Z.geb_leb.
    destruct (Z.leb_spec nOperands idx), (Z.leb_spec idx lastIdx); simpl;
      (split; [intros ?; try done; repeat split; auto; lia | intros [[? ?] ?]; try done; lia]).
Qed.

(** Once an auxiliary record is accepted ([nOperands <= lastIdx]), only the
    next consecutive auxiliary records are. *)
Lemma verifyDependences_aux_phase (nOperands lastIdx : Z) deps :
  0 <= nOperands <= lastIdx ->
  lastIdx + Z.of_nat (length deps) <= INT_MAX ->
  indicesUnsigned deps ->
  verifyDependences nOperands lastIdx deps = success <->
  Forall isAuxRecord deps /\ consecutiveFrom (lastIdx + 1) (getOperandIdx <$> deps).
Proof.
  revert lastIdx. induction deps as [|dep deps IH]; intros lastIdx Hn Hlen Hu.
  { simpl. split; auto. }
  apply Forall_cons in Hu as [Hu Hus]. simpl length in Hlen.
  rewrite verifyDependences_cons. cbv zeta.
  unfold int_add. rewrite (to_int_small (lastIdx + 1)) by lia.
  rewrite Forall_cons. cbn [fmap list_fmap consecutiveFrom]. unfold isAuxRecord at 1.
  destruct (getSourceRef dep) as [sourceRef|] eqn:Hsrc.
  - destruct (to_int_unsigned_cases _ Hu) as [[Hle Hidx]|[Hgt Hidx]].
    + rewrite Hidx. split.
      * intros [[? ?] Hrest].
        assert (getOperandIdx dep = lastIdx + 1) as Heq by lia.
        rewrite Heq in Hrest. apply IH in Hrest as [? ?]; [|lia..|done].
        rewrite Heq. done.
      * intros [[_ Hall] [Heq Hcons]]. split; [lia|].
        rewrite Heq. apply IH; [lia..|done|done].
    + split; [lia|]. intros [_ [? _]]. lia.
  - split; [lia|]. intros [[? _] _]. done.
Qed.

(** While no auxiliary record was seen ([lastIdx < nOperands]). *)
Lemma verifyDependences_data_phase (nOperands lastIdx : Z) deps :
  -1 <= lastIdx < nOperands ->
  nOperands + Z.of_nat (length deps) <= INT_MAX ->
  indicesUnsigned deps ->
  verifyDependences nOperands lastIdx deps = success <->
  Forall (fun i => lastIdx < i) (dataIndices deps) /\ recordInvariant nOperands deps.
Proof.
  revert lastIdx. induction deps as [|dep deps IH]; intros lastIdx Hn Hlen Hu.
  { simpl. split; [|done]. intros _. split; [constructor|].
    split; simpl; auto; constructor. }
  apply Forall_cons in Hu as [Hu Hus]. simpl length in Hlen.
  rewrite verifyDependences_cons. cbv zeta.
  destruct (getSourceRef dep) as [sourceRef|] eqn:Hsrc.
  - assert (getSourceRef dep ≠ None) as Haux by congruence.
    unfold int_add. rewrite (to_int_small (lastIdx + 1)) by lia.
    rewrite dataIndices_cons_aux by done. split.
    + intros [[Hge Hidx] Hrest].
      assert (to_int (getOperandIdx dep) = nOperands) as Hto by lia.
      rewrite Hto in Hrest.
      rewrite to_int_unsigned_nonneg in Hto by (try done; lia).
      apply verifyDependences_aux_phase in Hrest as [Hall Hcons]; [|lia..|done].
      destruct (all_aux_indices _ Hall) as [Hdata Hauxs].
      rewrite Hdata. split; [constructor|].
      destruct (consecutiveFrom_increasing _ _ Hcons) as [Hge' Hinc].
      split.
      * rewrite dataIndices_cons_aux, Hdata by done. constructor.
      * rewrite dataIndices_cons_aux, Hdata by done. constructor.
      * rewrite auxIndices_cons_aux, Hauxs by done. split; [|done].
        eapply Forall_impl; [exact Hge'|]. simpl. lia.
      * rewrite auxIndices_cons_aux, Hauxs by done. done.
      * split; [done|]. by apply all_aux_notInterleaved.
    + intros [Hlast [Hinc Hrange Hainc Hcons Hinter]].
      rewrite auxIndices_cons_aux in Hcons by done.
      destruct Hcons as [Heq Hcons]. destruct Hinter as [Hall _].
      specialize (Hall Haux). destruct (all_aux_indices _ Hall) as [_ Hauxs].
      rewrite Hauxs in Hcons.
      rewrite Heq, to_int_small by lia. split; [lia|].
      apply verifyDependences_aux_phase; [lia..|done|done].
  - rewrite dataIndices_cons_data by done. split.
    + intros [[Hlt Hgt] Hrest].
      assert (to_int (getOperandIdx dep) = getOperandIdx dep) as Hto
        by (apply to_int_unsigned_nonneg; [done|lia]).
      rewrite Hto in Hlt, Hgt, Hrest.
      apply IH in Hrest as [Hlast [Hinc Hrange Hainc Hcons Hinter]]; [|lia..|done].
      split.
      { constructor; [done|]. eapply Forall_impl; [exact Hlast|]. simpl. lia. }
      split.
      * rewrite dataIndices_cons_data by done. simpl. done.
      * rewrite dataIndices_cons_data by done. by constructor.
      * rewrite auxIndices_cons_data by done. done.
      * rewrite auxIndices_cons_data by done. done.
      * split; [|done]. unfold isAuxRecord. done.
    + intros [Hlast [Hinc Hrange Hainc Hcons Hinter]].
      rewrite dataIndices_cons_data in Hinc, Hrange by done.
      rewrite auxIndices_cons_data in Hainc, Hcons by done.
      apply Forall_cons in Hlast as [Hgt _]. apply Forall_cons in Hrange as [Hlt Hrange].
      destruct Hinc as [Hfirst Hinc]. destruct Hinter as [_ Hinter].
      rewrite to_int_small by lia. split; [lia|].
      apply IH; [lia..|done|]. split; [done|]. by split.
Qed.

(** Whatever the operand count is, an accepted data record addresses an
    operand: the loop keeps [-1 <= lastIdx] until the first auxiliary
    record, and rejects data records after it. *)
Lemma verifyDependences_data_in_bounds (nOperands lastIdx : Z) deps dep :
  -1 <= lastIdx \/ nOperands <= lastIdx ->
  indicesUnsigned deps ->
  verifyDependences nOperands lastIdx deps = success ->
  dep ∈ deps -> getSourceRef dep = None ->
  0 <= getOperandIdx dep < nOperands.
Proof.
  revert lastIdx. induction deps as [|dep' deps IH]; intros lastIdx Hlast Hu Hok Hin Hsrc.
  { by apply elem_of_nil in Hin. }
  apply Forall_cons in Hu as [Hu Hus].
  apply verifyDependences_cons in Hok. cbv zeta in Hok.
  apply elem_of_cons in Hin as [->|Hin].
  - rewrite Hsrc in Hok. destruct Hok as [[Hlt Hgt] _].
    rewrite to_int_unsigned_nonneg in Hlt by (try done; lia).
    unfold is_unsigned in Hu. lia.
  - destruct (getSourceRef dep') as [sourceRef|]; destruct Hok as [Hstep Hrest].
    + apply (IH (to_int (getOperandIdx dep'))); try done. lia.
    + apply (IH (to_int (getOperandIdx dep'))); try done. lia.
Qed.

End VerifyFacts.

Section VerifyClaims.

Context {Attribute : Type}.

(** C2: [OperationOp::verify] accepts a dependences attribute exactly when
    it satisfies the document-form invariant (data indices strictly
    increasing and below the operand count; auxiliary indices strictly
    increasing, consecutive from the operand count, after all data records),
    and every sequence that violates the invariant is rejected with an
    error. The operand count plus the number of records is an [int]. *)
Theorem verify_accepts_iff_invariant (op : OperationOp Attribute) :
  indicesUnsigned (default [] (getDependencesAttr op)) ->
  Z.of_nat (length (getOperands op))
    + Z.of_nat (length (default [] (getDependencesAttr op))) <= INT_MAX ->
  (verify op = success <-> documentFormInvariant op) /\
  (~ documentFormInvariant op -> exists diagnostic, verify op = failure diagnostic).
Proof.
  intros Hu Hlen.
  assert (verify op = success <-> documentFormInvariant op) as Hiff.
  { unfold verify, documentFormInvariant, getNumOperands.
    destruct (getDependencesAttr op) as [deps|]; simpl in *.
    - assert (0 <= Z.of_nat (length (getOperands op)) <= INT_MAX) as Hn by lia.
      rewrite Z.mod_small by (unfold UINT_RANGE, INT_MAX in *; lia).
      rewrite to_int_small by done.
      rewrite verifyDependences_data_phase by (try done; lia).
      split; [by intros [_ ?]|]. intros Hinv. split; [|done].
      unfold dataIndices. apply Forall_fmap, Forall_forall.
      intros dep [_ Hin]%list_elem_of_filter.
      unfold indicesUnsigned in Hu. rewrite Forall_forall in Hu.
      specialize (Hu _ Hin). unfold is_unsigned in Hu. simpl. lia.
    - split; [|done]. intros _. split; simpl; auto; constructor. }
  split; [done|]. intros Hviol.
  destruct (verify op) as [|diagnostic] eqn:Hv; [|by eauto].
  exfalso. apply Hviol, Hiff. done.
Qed.

(** C10: when [OperationOp::verify] accepts the operation, every dependence
    record without a source name has an operand index below the number of
    operands, so the operand lookup [loadProblem] performs for it is in
    bounds. *)
Theorem verified_operand_access_in_bounds (op : OperationOp Attribute)
    (dep : DependenceAttr Attribute) :
  indicesUnsigned (default [] (getDependencesAttr op)) ->
  verify op = success ->
  dep ∈ default [] (getDependencesAttr op) ->
  getSourceRef dep = None ->
  0 <= getOperandIdx dep < Z.of_nat (length (getOperands op)) /\
  getOpOperand op (getOperandIdx dep) = Some (Z.to_nat (getOperandIdx dep)).
Proof.
  intros Hu Hok Hin Hsrc. unfold verify in Hok.
  destruct (getDependencesAttr op) as [deps|]; simpl in *;
    [|by apply elem_of_nil in Hin].
  pose proof (verifyDependences_data_in_bounds _ (-1) _ _ ltac:(lia) Hu Hok Hin Hsrc)
    as Hb.
  pose proof (to_int_mod_le (Z.of_nat (length (getOperands op))) ltac:(lia)) as Hle.
  unfold getNumOperands in Hb.
  assert (0 <= getOperandIdx dep < Z.of_nat (length (getOperands op))) as Hr by lia.
  split; [done|]. unfold getOpOperand. by rewrite bool_decide_eq_true_2.
Qed.

End VerifyClaims.

Lemma verify_accepts_iff_invariant_witness :
  verify exampleOperationOp = success /\ documentFormInvariant exampleOperationOp.
Proof.
  assert (indicesUnsigned (default [] (getDependencesAttr exampleOperationOp))) as Hu.
  { repeat constructor; unfold UINT_RANGE; simpl; lia. }
  assert (Z.of_nat (length (getOperands exampleOperationOp))
          + Z.of_nat (length (default [] (getDependencesAttr exampleOperationOp)))
          <= INT_MAX) as Hlen.
  { unfold INT_MAX. simpl. lia. }
  destruct (verify_accepts_iff_invariant exampleOperationOp Hu Hlen) as [Hiff _].
  split; [reflexivity|]. apply Hiff. reflexivity.
Defined.

Lemma verified_operand_access_in_bounds_witness :
  getOpOperand exampleOperationOp 1 = Some 1%nat.
Proof.
  assert (indicesUnsigned (default [] (getDependencesAttr exampleOperationOp))) as Hu.
  { repeat constructor; unfold UINT_RANGE; simpl; lia. }
  refine (proj2 (verified_operand_access_in_bounds exampleOperationOp
           (mkDependenceAttr 1 None (Some [("p", 7)])) Hu _ _ _)).
  - reflexivity.
  - simpl. apply list_elem_of_here.
  - reflexivity.
Defined.

(** ** [OperationOp::parse] *)

Section ParseFacts.

Context {Attribute : Type}.
Implicit Types (entry : DependenceEntry Attribute)
  (entries : list (DependenceEntry Attribute)) (st : ParseState Attribute).

Lemma parseDependenceSourceWithAttrDict_step entry st :
  hasSource entry ->
  parseDependenceSourceWithAttrDict entry st =
  inr (mkParseState
         (unresolvedOperands st ++
            match entrySource entry with OperandSource o => [o] | _ => [] end)
         (dependences st ++ option_list (recordOf (operandIdx st) entry))
         (uint_incr (operandIdx st))).
Proof.
  unfold hasSource, parseDependenceSourceWithAttrDict, recordOf.
  destruct entry as [[sourceRef|operand|] [properties|]]; simpl; intros Hs;
    try done; by rewrite ?app_nil_r.
Qed.

Lemma parseDependenceSourceWithAttrDict_fails entry st :
  entrySource entry = NoSource ->
  parseDependenceSourceWithAttrDict entry st = inl msgExpectedSource.
Proof. unfold parseDependenceSourceWithAttrDict. by intros ->. Qed.

Lemma parseCommaSeparatedList_spec entries st :
  Forall hasSource entries ->
  0 <= operandIdx st ->
  operandIdx st + Z.of_nat (length entries) < UINT_RANGE ->
  exists st',
    parseCommaSeparatedList entries st = inr st' /\
    dependences st' = dependences st ++ materialized (operandIdx st) entries /\
    operandIdx st' = operandIdx st + Z.of_nat (length entries).
Proof.
  revert st. induction entries as [|entry entries IH]; intros st Hs Hidx Hlen.
  { exists st. simpl. rewrite app_nil_r. split_and!; [done..|lia]. }
  apply Forall_cons in Hs as [Hs Hss]. simpl length in Hlen.
  cbn [parseCommaSeparatedList]. rewrite parseDependenceSourceWithAttrDict_step by done.
  assert (uint_incr (operandIdx st) = operandIdx st + 1) as Hincr
    by (apply uint_incr_small; lia).
  rewrite Hincr.
  edestruct (IH (mkParseState
                   (unresolvedOperands st ++
                      match entrySource entry with OperandSource o => [o] | _ => [] end)
                   (dependences st ++ option_list (recordOf (operandIdx st) entry))
                   (operandIdx st + 1)))
    as (st' & Hparse & Hdeps & Hlast); [done|simpl; lia..|].
  exists st'. split; [exact Hparse|]. rewrite Hdeps, Hlast. simpl.
  split; [|lia]. rewrite <- app_assoc. f_equal.
  by destruct (recordOf (operandIdx st) entry).
Qed.

Lemma elem_of_materialized (idx : Z) entries (dep : DependenceAttr Attribute) :
  dep ∈ materialized idx entries <->
  exists (i : nat) entry,
    entries !! i = Some entry /\ recordOf (idx + Z.of_nat i) entry = Some dep.
Proof.
  revert idx. induction entries as [|entry entries IH]; intros idx; simpl.
  { split; [by intros ?%elem_of_nil|]. by intros (i & e & ? & _). }
  assert (dep ∈ materialized (idx + 1) entries <->
          exists (i : nat) e, entries !! i = Some e /\
                              recordOf (idx + Z.of_nat (S i)) e = Some dep) as IH'.
  { rewrite IH. split; intros (i & e & Hl & Hr); exists i, e; (split; [done|]);
      by replace (idx + Z.of_nat (S i)) with (idx + 1 + Z.of_nat i) in * by lia. }
  assert ((exists (i : nat) e, (entry :: entries) !! i = Some e /\
                               recordOf (idx + Z.of_nat i) e = Some dep) <->
          recordOf idx entry = Some dep \/ dep ∈ materialized (idx + 1) entries) as ->.
  { rewrite IH'. split.
    - intros ([|i] & e & Hl & Hr); simpl in Hl.
      + left. injection Hl as ->. by rewrite Z.add_0_r in Hr.
      + right. eauto.
    - intros [Hr|(i & e & Hl & Hr)].
      + exists 0%nat, entry. by rewrite Z.add_0_r.
      + exists (S i), e. done. }
  destruct (recordOf idx entry) as [dep'|].
  - rewrite elem_of_cons. split; intros [?|?]; auto; left; congruence.
  - split; [auto|]. by intros [?|?].
Qed.

(** What [parse] returns, from what the list parser returns. *)
Lemma parse_inr scope (syn : OperationSyntax Attribute) (state : OperationState Attribute) :
  parse scope syn = inr state <->
  exists st operands,
    parseCommaSeparatedList (synEntries syn) (mkParseState [] [] 0) = inr st /\
    resolveOperands scope (unresolvedOperands st) = inr operands /\
    state = mkOperationState
              (listedAttributes (synSymName syn) (dependences st) (synProperties syn)
               ++ synAttrDict syn)
              operands (synNumResults syn).
Proof.
  unfold parse. cbv zeta.
  destruct (parseCommaSeparatedList _ _) as [err|st] eqn:Hparse.
  { split; [done|]. by intros (?&?&?&_). }
  destruct (resolveOperands _ _) as [err|operands] eqn:Hres.
  - split; [done|]. intros (st'&?&[= <-]&Hr&_). congruence.
  - split.
    + intros [= <-]. exists st, operands. split_and!; [done..|].
      unfold listedAttributes. rewrite <- !app_assoc. by destruct (dependences st).
    + intros (st'&?&[= <-]&Hr&->). rewrite Hr in Hres. injection Hres as ->.
      unfold listedAttributes. rewrite <- !app_assoc. by destruct (dependences st).
Qed.

Lemma omap_dependencesOf_listed (symName : option string)
    (deps : list (DependenceAttr Attribute)) (properties : ArrayAttr Attribute)
    (dict : list (NamedAttribute Attribute)) :
  omap dependencesOf (listedAttributes symName deps properties ++ dict)
  = match deps with [] => [] | _ => [deps] end ++ omap dependencesOf dict.
Proof. unfold listedAttributes. by destruct symName, deps, properties. Qed.

Lemma omap_dependencesOf_nil (dict : list (NamedAttribute Attribute)) :
  (forall deps, NamedDependences deps ∉ dict) -> omap dependencesOf dict = [].
Proof.
  induction dict as [|attr dict IH]; intros Hdict; [done|].
  cbn [omap list_omap]. fold (omap (M := list) (@dependencesOf Attribute)).
  rewrite IH by (intros deps Hin; apply (Hdict deps); by apply elem_of_cons; right).
  destruct attr as [|deps|]; simpl; try done.
  destruct (Hdict deps). apply list_elem_of_here.
Qed.

Lemma head_omap_dependencesOf (dict : list (NamedAttribute Attribute))
    (deps : list (DependenceAttr Attribute)) :
  head (omap dependencesOf dict) = Some deps -> NamedDependences deps ∈ dict.
Proof.
  induction dict as [|attr dict IH]; [done|].
  cbn [omap list_omap]. fold (omap (M := list) (@dependencesOf Attribute)).
  destruct attr as [|deps'|]; simpl.
  - intros ?. apply elem_of_cons; right. by apply IH.
  - intros [= ->]. apply list_elem_of_here.
  - intros ?. apply elem_of_cons; right. by apply IH.
Qed.

(** The operation of a state that [parse] has filled: the records of the
    list are its dependences, unless the list has none and the attribute
    dictionary gives the attribute. *)
Lemma createOperation_listed (symName : option string)
    (deps : list (DependenceAttr Attribute)) (properties : ArrayAttr Attribute)
    (dict : list (NamedAttribute Attribute)) (operands : list Value) (numResults : nat)
    (op : OperationOp Attribute) :
  createOperation
    (mkOperationState (listedAttributes symName deps properties ++ dict) operands numResults)
  = inr op ->
  getOperands op = operands /\
  getNumResults op = numResults /\
  (deps ≠ [] \/ (forall deps', NamedDependences deps' ∉ dict) ->
   default [] (getDependencesAttr op) = deps) /\
  (getDependencesAttr op = Some [] -> NamedDependences [] ∈ dict).
Proof.
  unfold createOperation. destruct (findDuplicate _); [done|].
  intros [= <-]. cbn [getOperands getNumResults getDependencesAttr stateAttributes
                      stateOperands stateTypes].
  rewrite omap_dependencesOf_listed. split_and!; [done..| |].
  - intros [Hdeps|Hdict]; [by destruct deps|].
    rewrite (omap_dependencesOf_nil dict Hdict). by destruct deps.
  - destruct deps; [|done]. apply head_omap_dependencesOf.
Qed.

(** Without an attribute dictionary, the operation has the attributes of
    the list form. *)
Lemma createOperation_no_dict (symName : option string)
    (deps : list (DependenceAttr Attribute)) (properties : ArrayAttr Attribute)
    (operands : list Value) (numResults : nat) :
  createOperation
    (mkOperationState (listedAttributes symName deps properties ++ []) operands numResults)
  = inr (mkOperationOp symName operands numResults
           (match deps with [] => None | _ => Some deps end) properties).
Proof. by destruct symName, deps, properties. Qed.

Lemma parseOperation_no_dict scope (syn : OperationSyntax Attribute)
    (op : OperationOp Attribute) :
  synAttrDict syn = [] ->
  parseOperation scope syn = inr op <->
  exists st operands,
    parseCommaSeparatedList (synEntries syn) (mkParseState [] [] 0) = inr st /\
    resolveOperands scope (unresolvedOperands st) = inr operands /\
    op = mkOperationOp (synSymName syn) operands (synNumResults syn)
           (match dependences st with [] => None | deps => Some deps end)
           (synProperties syn).
Proof.
  intros Hdict. unfold parseOperation.
  destruct (parse scope syn) as [err|state] eqn:Hstate.
  - split; [done|]. intros (st & operands & Hparse & Hres & _).
    assert (exists state, parse scope syn = inr state) as [state Hstate'].
    { eexists. apply parse_inr. eauto. }
    congruence.
  - apply parse_inr in Hstate as (st & operands & Hparse & Hres & ->).
    rewrite Hdict, createOperation_no_dict. split.
    + intros [= <-]. exists st, operands. split_and!; [done..|].
      by destruct (dependences st).
    + intros (st' & operands' & Hparse' & Hres' & ->).
      rewrite Hparse in Hparse'. injection Hparse' as <-.
      rewrite Hres in Hres'. injection Hres' as <-. by destruct (dependences st).
Qed.

End ParseFacts.

Section ParseClaims.

Context {Attribute : Type}.

(** C9: the parser adds a record for an entry that references a data input
    only if the entry carries a property list, and always for an entry that
    is a symbol reference; the [i]-th entry, of either kind, takes slot
    index [i]. The dependences attribute of the parsed operation holds
    exactly these records, when the attribute dictionary of the text gives
    no dependences attribute of its own. *)
Theorem parse_materializes_records (entries : list (DependenceEntry Attribute)) :
  Forall hasSource entries ->
  Z.of_nat (length entries) < UINT_RANGE ->
  exists st,
    parseCommaSeparatedList entries (mkParseState [] [] 0) = inr st /\
    operandIdx st = Z.of_nat (length entries) /\
    dependences st = materialized 0 entries /\
    (forall (i : nat) entry, entries !! i = Some entry ->
       match entrySource entry, entryProperties entry with
       | SymbolSource sourceRef, properties =>
           mkDependenceAttr (Z.of_nat i) (Some sourceRef) properties ∈ dependences st
       | _, Some properties =>
           mkDependenceAttr (Z.of_nat i) None (Some properties) ∈ dependences st
       | _, None =>
           forall dep, dep ∈ dependences st -> getOperandIdx dep ≠ Z.of_nat i
       end) /\
    (forall dep, dep ∈ dependences st ->
       exists (i : nat) entry,
         entries !! i = Some entry /\ getOperandIdx dep = Z.of_nat i /\
         (getSourceRef dep = None -> is_Some (entryProperties entry))) /\
    (forall scope syn op,
       synEntries syn = entries ->
       (forall deps, NamedDependences deps ∉ synAttrDict syn) ->
       parseOperation scope syn = inr op ->
       default [] (getDependencesAttr op) = dependences st).
Proof.
  intros Hs Hlen.
  destruct (parseCommaSeparatedList_spec entries (mkParseState [] [] 0) Hs)
    as (st & Hparse & Hdeps & Hidx); [simpl; lia..|].
  simpl in Hdeps, Hidx. exists st. split_and!; [done|lia|done| | |].
  - intros i entry Hi. rewrite Hdeps.
    assert (forall dep, recordOf (Z.of_nat i) entry = Some dep ->
                        dep ∈ materialized 0 entries) as Hin.
    { intros dep Hr. apply elem_of_materialized. exists i, entry. by rewrite Z.add_0_l. }
    assert (hasSource entry) as Hsrc.
    { rewrite Forall_forall in Hs. apply Hs. by eapply list_elem_of_lookup_2. }
    unfold hasSource in Hsrc. unfold recordOf in Hin.
    destruct (entrySource entry) as [sourceRef|operand|] eqn:Hes; [by auto| |done].
    destruct (entryProperties entry) as [properties|] eqn:Hep; [by auto|].
    intros dep (j & entry' & Hj & Hr)%elem_of_materialized Heq.
    rewrite Z.add_0_l in Hr.
    assert (getOperandIdx dep = Z.of_nat j) as Hdj.
    { unfold recordOf in Hr.
      destruct (entrySource entry'), (entryProperties entry'); simplify_eq; done. }
    assert (j = i) as -> by lia. rewrite Hi in Hj. injection Hj as <-.
    unfold recordOf in Hr. by rewrite Hes, Hep in Hr.
  - intros dep. rewrite Hdeps.
    intros (i & entry & Hi & Hr)%elem_of_materialized. rewrite Z.add_0_l in Hr.
    exists i, entry. split; [done|]. unfold recordOf in Hr.
    destruct (entrySource entry), (entryProperties entry); simplify_eq; simpl; eauto.
    all: split; [done|]; done.
  - intros scope syn op Hsyn Hdict Hop. unfold parseOperation in Hop.
    destruct (parse scope syn) as [|state] eqn:Hstate; [done|].
    apply parse_inr in Hstate as (st' & operands & Hparse' & _ & ->).
    rewrite Hsyn, Hparse in Hparse'. injection Hparse' as <-.
    apply createOperation_listed in Hop as (_ & _ & Hop & _). auto.
Qed.

End ParseClaims.

Lemma parse_materializes_records_witness :
  exists st,
    parseCommaSeparatedList exampleEntries (mkParseState [] [] 0) = inr st /\
    dependences st =
      [mkDependenceAttr 1 None (Some [("p", 7)]);
       mkDependenceAttr 2 (Some "op0") None;
       mkDependenceAttr 3 (Some "op1") (Some [("q", 1)])].
Proof.
  assert (Forall hasSource exampleEntries) as Hs by (repeat constructor; done).
  assert (Z.of_nat (length exampleEntries) < UINT_RANGE) as Hlen by reflexivity.
  destruct (parse_materializes_records exampleEntries Hs Hlen)
    as (st & Hparse & _ & Hdeps & _).
  exists st. split; [exact Hparse|]. rewrite Hdeps. reflexivity.
Defined.

(** ** Property dispatch *)

Section DispatchFacts.

Context {Attribute ProblemT : Type} {model : ProblemModel Attribute ProblemT}.
Context {Target : Type}.
Implicit Types (kind : PropertyKind Attribute ProblemT Target)
  (kinds : list (PropertyKind Attribute ProblemT Target))
  (prop : Attribute) (props : list Attribute).

Lemma typeSwitch_first kinds kinds' kind prop (prob : ProblemT) (target : Target) :
  unrecognized kinds prop ->
  classof kind prop = true ->
  typeSwitch (kinds ++ kind :: kinds') prop prob target
  = setInProblem kind prop prob target.
Proof.
  induction 1 as [|kind0 kinds Hk _ IH]; intros Hacc; simpl.
  - by rewrite Hacc.
  - rewrite Hk. by apply IH.
Qed.

Lemma typeSwitch_unrecognized kinds prop (prob : ProblemT) (target : Target) :
  unrecognized kinds prop -> typeSwitch kinds prop prob target = prob.
Proof. induction 1 as [|kind kinds Hk _ IH]; simpl; [done|]. by rewrite Hk. Qed.

Lemma loadProperties_Some kinds (prob : ProblemT) (target : Target) props :
  loadProperties kinds prob target (Some props)
  = foldl (fun prob prop => typeSwitch kinds prop prob target) prob props.
Proof.
  destruct kinds; [|done]. simpl. by induction props.
Qed.

Lemma loadProperties_None kinds (prob : ProblemT) (target : Target) :
  loadProperties kinds prob target None = prob.
Proof. by destruct kinds. Qed.

Lemma loadProperties_cons kinds (prob : ProblemT) (target : Target) prop props :
  loadProperties kinds prob target (Some (prop :: props))
  = loadProperties kinds (typeSwitch kinds prop prob target) target (Some props).
Proof. by rewrite !loadProperties_Some. Qed.

Lemma loadProperties_app kinds (prob : ProblemT) (target : Target) props props' :
  loadProperties kinds prob target (Some (props ++ props'))
  = loadProperties kinds (loadProperties kinds prob target (Some props)) target
                   (Some props').
Proof. by rewrite !loadProperties_Some, foldl_app. Qed.

Lemma loadProperties_skip kinds (prob : ProblemT) (target : Target) prop props props' :
  unrecognized kinds prop ->
  loadProperties kinds prob target (Some (props ++ prop :: props'))
  = loadProperties kinds prob target (Some (props ++ props')).
Proof.
  intros Hun. rewrite !loadProperties_app, loadProperties_cons.
  by rewrite typeSwitch_unrecognized.
Qed.

End DispatchFacts.

Section DispatchClaims.

Context {Attribute ProblemT : Type} {model : ProblemModel Attribute ProblemT}.

(** C6: an encoded value is tested against the kinds in the order of the
    kind list and the first kind that accepts it is the one that installs
    it, also when a later kind of the list accepts the value too; the load
    then goes on with the next value. *)
Theorem first_match_dispatch
    (before after : list (PropertyKind Attribute ProblemT Operation))
    (kind : PropertyKind Attribute ProblemT Operation)
    (prop : Attribute) (props : list Attribute) (prob : ProblemT) (op : Operation) :
  unrecognized before prop ->
  classof kind prop = true ->
  typeSwitch (before ++ kind :: after) prop prob op = setInProblem kind prop prob op /\
  loadOperationProperties (before ++ kind :: after) prob op (Some (prop :: props))
  = loadOperationProperties (before ++ kind :: after)
                            (setInProblem kind prop prob op) op (Some props).
Proof.
  intros Hun Hacc. unfold loadOperationProperties.
  rewrite loadProperties_cons, typeSwitch_first by done. done.
Qed.

(** C4, as the code has it: an encoded value that none of the recognized
    kinds accepts is skipped. The switch leaves the problem as it is, and the
    property sequence loads as if the value were not in it, for operations
    and for dependences. *)
Theorem unrecognized_property_skipped
    (opKinds : list (PropertyKind Attribute ProblemT Operation))
    (depKinds : list (PropertyKind Attribute ProblemT Dependence))
    (prop : Attribute) (props props' : list Attribute)
    (prob : ProblemT) (op : Operation) (dep : Dependence) :
  (unrecognized opKinds prop ->
   typeSwitch opKinds prop prob op = prob /\
   loadOperationProperties opKinds prob op (Some (props ++ prop :: props'))
   = loadOperationProperties opKinds prob op (Some (props ++ props'))) /\
  (unrecognized depKinds prop ->
   typeSwitch depKinds prop prob dep = prob /\
   loadDependenceProperties depKinds prob dep (Some (props ++ prop :: props'))
   = loadDependenceProperties depKinds prob dep (Some (props ++ props'))).
Proof.
  unfold loadOperationProperties, loadDependenceProperties.
  split; intros Hun; (split; [by apply typeSwitch_unrecognized|]);
    by apply loadProperties_skip.
Qed.

End DispatchClaims.

(** Two kinds that both decode the value: the order of the kind list decides
    which slot receives it. *)
Lemma first_match_dispatch_witness :
  let first := greedyKind AtOperation "first" in
  let second := greedyKind AtOperation "second" in
  let prob := Problem_get unrecognizedInstance in
  properties (typeSwitch [first; second] ("p", 1) prob 0%nat)
    !! (AtOperation 0%nat, "first") = Some ("p", 1) /\
  properties (typeSwitch [second; first] ("p", 1) prob 0%nat)
    !! (AtOperation 0%nat, "first") = None.
Proof.
  intros first second prob.
  destruct (first_match_dispatch [] [second] first ("p", 1) [] prob 0%nat) as [H1 _];
    [constructor|reflexivity|].
  destruct (first_match_dispatch [] [first] second ("p", 1) [] prob 0%nat) as [H2 _];
    [constructor|reflexivity|].
  simpl app in H1, H2. rewrite H1, H2. split; reflexivity.
Defined.

Lemma unrecognized_property_skipped_witness :
  loadOperationProperties exampleOpKinds (Problem_get unrecognizedInstance) 0%nat
    (Some [("opr", 1); ("unknown", 5)])
  = loadOperationProperties exampleOpKinds (Problem_get unrecognizedInstance) 0%nat
      (Some [("opr", 1)]).
Proof.
  destruct (unrecognized_property_skipped exampleOpKinds exampleDepKinds
              ("unknown", 5) [("opr", 1)] [] (Problem_get unrecognizedInstance)
              0%nat (DefUseDep 0%nat 0%nat)) as [Hop _].
  apply Hop. repeat constructor.
Defined.

(** C4 as stated fails: the property value [("unknown", 5)] is accepted by
    no kind of the list, and the load returns a problem. *)
Lemma unrecognized_property_not_fatal :
  unrecognized exampleOpKinds (("unknown", 5) : ExampleAttr) /\
  loadProblem unrecognizedInstance exampleOpKinds exampleOprKinds exampleDepKinds
              exampleInstKinds
  = inr (mkProblem unrecognizedInstance [] [0%nat] [] ∅).
Proof. split; [repeat constructor|reflexivity]. Qed.

(** ** Loops that may fail *)

Section FoldlE.

Context {A E S : Type}.
Implicit Types (body : S -> A -> E + S) (l : list A).

Lemma foldlE_app body (s : S) l l' :
  foldlE body s (l ++ l')
  = match foldlE body s l with
    | inl err => inl err
    | inr s' => foldlE body s' l'
    end.
Proof.
  revert s. induction l as [|x l IH]; intros s; simpl; [done|].
  destruct (body s x); [done|]. apply IH.
Qed.

(** An element on which the body fails in every state ends the loop, at
    that element or before. *)
Lemma foldlE_fails body (s : S) l (x : A) :
  x ∈ l -> (forall s', exists err, body s' x = inl err) ->
  exists err, foldlE body s l = inl err.
Proof.
  intros Hin Hfail. revert s. induction l as [|y l IH]; intros s.
  { by apply elem_of_nil in Hin. }
  simpl. apply elem_of_cons in Hin as [<-|Hin].
  - destruct (Hfail s) as [err ->]. eauto.
  - destruct (body s y) as [err|s']; eauto.
Qed.

(** A body that succeeds on every element, in every state, completes. *)
Lemma foldlE_succeeds body (s : S) l :
  (forall x s', x ∈ l -> exists s'', body s' x = inr s'') ->
  exists s', foldlE body s l = inr s'.
Proof.
  revert s. induction l as [|x l IH]; intros s Hok; simpl; [by eauto|].
  destruct (Hok x s) as [s'' ->]; [by left|].
  apply IH. intros y s' Hy. apply Hok. by right.
Qed.

End FoldlE.

(** ** The walks of [loadProblem] *)

Section WalkFacts.

Context {Attribute : Type}.
Implicit Types (instOp : InstanceOp Attribute).

Lemma elem_of_operationOps instOp (op : Operation) (opOp : OperationOp Attribute) :
  (op, opOp) ∈ operationOps instOp <-> getBody instOp !! op = Some (OperationDecl opOp).
Proof.
  unfold operationOps. rewrite list_elem_of_omap. split.
  - intros ([h b] & Hin & Heq). apply elem_of_lookup_imap in Hin as (i & x & Hpair & Hl).
    injection Hpair as -> ->. destruct x; simplify_eq. done.
  - intros Hl. exists (op, OperationDecl opOp). split; [|done].
    apply elem_of_lookup_imap. eauto.
Qed.

End WalkFacts.

Section LoadClaims.

Context {Attribute ProblemT : Type} {model : ProblemModel Attribute ProblemT}.
Implicit Types (instOp : InstanceOp Attribute) (opOp : OperationOp Attribute)
  (depAttr : DependenceAttr Attribute) (prob : ProblemT).

Lemma verifySymbolUsesIn_success instOp (deps : list (DependenceAttr Attribute)) :
  verifySymbolUsesIn instOp deps = success <->
  Forall (fun dep => forall sourceRef,
            getSourceRef dep = Some sourceRef -> resolvesToOperation instOp sourceRef)
         deps.
Proof.
  induction deps as [|dep deps IH]; simpl; [by split; auto|].
  rewrite Forall_cons, <- IH. unfold resolvesToOperation.
  destruct (getSourceRef dep) as [sourceRef|]; [|by split; [auto|intros [_ ?]]].
  destruct (lookupSymbolIn instOp sourceRef) as [sourceOp|] eqn:Hl.
  - destruct (isaOperationOp instOp sourceOp) eqn:Hisa.
    + split; [|by intros [_ ?]]. intros ?. split; [|done].
      intros ? [= <-]. eauto.
    + split; [done|]. intros [Hres _].
      destruct (Hres _ eq_refl) as (src & Hsrc & Hop). congruence.
  - split; [done|]. intros [Hres _].
    destruct (Hres _ eq_refl) as (src & Hsrc & Hop). congruence.
Qed.

Lemma verifySymbolUsesIn_failure instOp (deps : list (DependenceAttr Attribute))
    (diagnostic : string) :
  verifySymbolUsesIn instOp deps = failure diagnostic ->
  exists dep sourceRef,
    dep ∈ deps /\ getSourceRef dep = Some sourceRef /\
    ~ resolvesToOperation instOp sourceRef /\
    diagnostic = msgInvalidSource sourceRef.
Proof.
  induction deps as [|dep deps IH]; simpl; [done|].
  assert (verifySymbolUsesIn instOp deps = failure diagnostic ->
          exists dep0 sourceRef, dep0 ∈ dep :: deps /\ getSourceRef dep0 = Some sourceRef /\
            ~ resolvesToOperation instOp sourceRef /\
            diagnostic = msgInvalidSource sourceRef) as IH'.
  { intros (dep0 & ref & ? & ? & ? & ?)%IH. exists dep0, ref. split; [by right|done]. }
  destruct (getSourceRef dep) as [sourceRef|] eqn:Hsrc; [|done].
  unfold resolvesToOperation.
  destruct (lookupSymbolIn instOp sourceRef) as [sourceOp|] eqn:Hl.
  - destruct (isaOperationOp instOp sourceOp) eqn:Hisa; [done|].
    intros [= <-]. exists dep, sourceRef. split_and!; [by left|done| |done].
    intros (src & Hsrc' & Hop). congruence.
  - intros [= <-]. exists dep, sourceRef. split_and!; [by left|done| |done].
    intros (src & Hsrc' & Hop). congruence.
Qed.

(** C7, as the code has it: validation ([verifySymbolUses]) succeeds exactly
    when every source-name reference of a dependence record resolves, in the
    enclosing instance, to an [ssp.operation], and otherwise fails with a
    diagnostic that names an offending reference, be it unresolved or of the
    wrong kind. [loadProblem] ends in a fatal error, and returns no problem,
    when a reference does not resolve. It does not test the kind of the
    operation that a reference resolves to: it inserts the auxiliary
    dependence from that operation, and goes on unless the problem rejects
    the insertion. *)
Theorem reference_kind_checked_by_validation_only instOp :
  (forall opOp,
     verifySymbolUses instOp opOp = success <->
     Forall (fun dep => forall sourceRef,
               getSourceRef dep = Some sourceRef -> resolvesToOperation instOp sourceRef)
            (default [] (getDependencesAttr opOp))) /\
  (forall opOp diagnostic,
     verifySymbolUses instOp opOp = failure diagnostic ->
     exists dep sourceRef,
       dep ∈ default [] (getDependencesAttr opOp) /\
       getSourceRef dep = Some sourceRef /\
       ~ resolvesToOperation instOp sourceRef /\
       diagnostic = msgInvalidSource sourceRef) /\
  (forall opKinds oprKinds depKinds instKinds op opOp depAttr sourceRef,
     getBody instOp !! op = Some (OperationDecl opOp) ->
     depAttr ∈ default [] (getDependencesAttr opOp) ->
     getSourceRef depAttr = Some sourceRef ->
     lookupSymbolIn instOp sourceRef = None ->
     exists err : LoadError,
       loadProblem (ProblemT := ProblemT) instOp opKinds oprKinds depKinds instKinds
       = inl err) /\
  (forall (depKinds : list (PropertyKind Attribute ProblemT Dependence))
          (op : Operation) opOp prob depAttr sourceRef sourceOp,
     getSourceRef depAttr = Some sourceRef ->
     lookupSymbolIn instOp sourceRef = Some sourceOp ->
     loadDependence depKinds instOp op opOp prob depAttr
     = match insertDependence (AuxDep sourceOp op) prob with
       | None => inl AssertInsertionSucceeded
       | Some prob' =>
           inr (loadDependenceProperties depKinds prob' (AuxDep sourceOp op)
                                         (getProperties depAttr))
       end).
Proof.
  split_and!.
  - intros opOp. unfold verifySymbolUses.
    destruct (getDependencesAttr opOp) as [deps|]; simpl.
    + apply verifySymbolUsesIn_success.
    + split; auto.
  - intros opOp diagnostic. unfold verifySymbolUses.
    destruct (getDependencesAttr opOp) as [deps|]; simpl; [|done].
    apply verifySymbolUsesIn_failure.
  - intros opKinds oprKinds depKinds instKinds op opOp depAttr sourceRef Hbody Hin Hsrc Hl.
    unfold loadProblem.
    apply (foldlE_fails _ _ _ (op, opOp)); [by apply elem_of_operationOps|].
    intros prob. unfold loadDependences.
    destruct (getDependencesAttr opOp) as [deps|]; simpl in Hin;
      [|by apply elem_of_nil in Hin].
    apply (foldlE_fails _ _ _ depAttr); [done|].
    intros prob'. unfold loadDependence. rewrite Hsrc, Hl. eauto.
  - intros depKinds op opOp prob depAttr sourceRef sourceOp Hsrc Hl.
    unfold loadDependence. by rewrite Hsrc, Hl.
Qed.

(** C5, as the code has it: a record with a source name makes an auxiliary
    dependence that is inserted into the problem, and a rejected insertion
    is fatal; a record without a source name makes the data dependence of
    its operand only to attach the record's properties, without an
    insertion. So an instance whose records are all data records within the
    operands loads in every problem model, whatever its [insertDependence]
    accepts. *)
Theorem loader_inserts_auxiliary_dependences
    (depKinds : list (PropertyKind Attribute ProblemT Dependence)) instOp :
  (forall (op : Operation) opOp prob depAttr sourceRef sourceOp,
     getSourceRef depAttr = Some sourceRef ->
     lookupSymbolIn instOp sourceRef = Some sourceOp ->
     loadDependence depKinds instOp op opOp prob depAttr
     = match insertDependence (AuxDep sourceOp op) prob with
       | None => inl AssertInsertionSucceeded
       | Some prob' =>
           inr (loadDependenceProperties depKinds prob' (AuxDep sourceOp op)
                                         (getProperties depAttr))
       end) /\
  (forall (op : Operation) opOp prob depAttr,
     getSourceRef depAttr = None ->
     0 <= getOperandIdx depAttr < Z.of_nat (length (getOperands opOp)) ->
     loadDependence depKinds instOp op opOp prob depAttr
     = inr (loadDependenceProperties depKinds prob
              (DefUseDep op (Z.to_nat (getOperandIdx depAttr)))
              (getProperties depAttr))) /\
  (forall opKinds oprKinds instKinds,
     (forall op opOp depAttr,
        getBody instOp !! op = Some (OperationDecl opOp) ->
        depAttr ∈ default [] (getDependencesAttr opOp) ->
        getSourceRef depAttr = None /\
        0 <= getOperandIdx depAttr < Z.of_nat (length (getOperands opOp))) ->
     exists prob,
       loadProblem instOp opKinds oprKinds depKinds instKinds = inr prob).
Proof.
  assert (forall (op : Operation) opOp prob depAttr,
     getSourceRef depAttr = None ->
     0 <= getOperandIdx depAttr < Z.of_nat (length (getOperands opOp)) ->
     loadDependence depKinds instOp op opOp prob depAttr
     = inr (loadDependenceProperties depKinds prob
              (DefUseDep op (Z.to_nat (getOperandIdx depAttr)))
              (getProperties depAttr))) as Hdata.
  { intros op opOp prob depAttr Hsrc Hidx. unfold loadDependence, getOpOperand.
    rewrite Hsrc. by rewrite bool_decide_eq_true_2. }
  split_and!; [|done|].
  - intros op opOp prob depAttr sourceRef sourceOp Hsrc Hl.
    unfold loadDependence. by rewrite Hsrc, Hl.
  - intros opKinds oprKinds instKinds Hall. unfold loadProblem.
    apply foldlE_succeeds. intros [op opOp] prob Hin%elem_of_operationOps.
    unfold loadDependences.
    destruct (getDependencesAttr opOp) as [deps|] eqn:Hdeps; [|by eauto].
    apply foldlE_succeeds. intros depAttr prob' Hd.
    destruct (Hall op opOp depAttr Hin) as [Hsrc Hidx]; [by rewrite Hdeps|].
    rewrite Hdata by done. eauto.
Qed.

End LoadClaims.

Lemma reference_kind_checked_by_validation_only_witness :
  verifySymbolUses danglingInstance
    (mkOperationOp (Some "op0") [] 1%nat
       (Some [mkDependenceAttr 0 (Some "missing") None]) None)
  = failure "'ssp.operation' op references invalid source operation: @missing" /\
  verifySymbolUses danglingInstance
    (mkOperationOp (Some "op1") [] 1%nat
       (Some [mkDependenceAttr 0 (Some "slow") None]) None)
  = failure "'ssp.operation' op references invalid source operation: @slow" /\
  exists err,
    loadProblem danglingInstance exampleOpKinds exampleOprKinds exampleDepKinds
                exampleInstKinds = inl err.
Proof.
  split; [reflexivity|]. split; [reflexivity|].
  destruct (reference_kind_checked_by_validation_only (ProblemT := Problem ExampleAttr)
              danglingInstance) as (_ & _ & Hload & _).
  apply (Hload exampleOpKinds exampleOprKinds exampleDepKinds exampleInstKinds 1%nat
           (mkOperationOp (Some "op0") [] 1%nat
              (Some [mkDependenceAttr 0 (Some "missing") None]) None)
           (mkDependenceAttr 0 (Some "missing") None) "missing").
  - reflexivity.
  - simpl. apply list_elem_of_here.
  - reflexivity.
  - reflexivity.
Defined.

(** C7 as stated fails: the reference [@slow] of [wrongKindInstance]
    resolves to an operator type, and [verifySymbolUses] rejects it; with a
    problem that accepts the insertion, [loadProblem] returns a problem that
    holds the dependence from the operator type. *)
Lemma wrong_kind_reference_loads :
  getBody wrongKindInstance !! 1%nat = Some (OperationDecl wrongKindOperationOp) /\
  lookupSymbolIn wrongKindInstance "slow" = Some 0%nat /\
  isaOperationOp wrongKindInstance 0%nat = false /\
  verifySymbolUses wrongKindInstance wrongKindOperationOp
  = failure "'ssp.operation' op references invalid source operation: @slow" /\
  loadProblem (model := acceptingModel) wrongKindInstance exampleOpKinds exampleOprKinds
              exampleDepKinds exampleInstKinds
  = inr (mkProblem wrongKindInstance ["slow"] [1%nat] [(0%nat, 1%nat)] ∅).
Proof. split_and!; reflexivity. Qed.

Lemma loader_inserts_auxiliary_dependences_witness :
  exists prob,
    loadProblem (model := rejectingModel) dataRecordInstance exampleOpKinds exampleOprKinds
                exampleDepKinds exampleInstKinds = inr prob.
Proof.
  destruct (loader_inserts_auxiliary_dependences (model := rejectingModel)
              exampleDepKinds dataRecordInstance) as (_ & _ & Hload).
  apply Hload. intros op opOp depAttr Hbody Hin.
  destruct op as [|[|op]]; simpl in Hbody; simplify_eq; simpl in Hin.
  - by apply elem_of_nil in Hin.
  - apply list_elem_of_singleton in Hin as ->. simpl. split; [reflexivity|lia].
Defined.

(** C5 as stated fails: the model rejects every insertion, the second
    operation has a data record, and the load returns a problem, in which
    the data dependence carries the property of the record. *)
Lemma data_dependence_not_inserted :
  (forall dep prob, insertDependence (ProblemModel := rejectingModel) dep prob = None) /\
  exists prob,
    loadProblem (model := rejectingModel) dataRecordInstance exampleOpKinds exampleOprKinds
                exampleDepKinds exampleInstKinds = inr prob /\
    properties prob !! (AtDependence (DefUseDep 1%nat 0%nat), "distance")
    = Some ("distance", 1).
Proof.
  split; [reflexivity|]. eexists. split; reflexivity.
Qed.

(** ** The naming pass of [saveProblem] *)

Section NamingFacts.

Context {Attribute ProblemT : Type} {model : ProblemModel Attribute ProblemT}.
Variable operationNameFn : Operation -> option string.
Implicit Types (opNames : gmap Operation string) (op src : Operation) (dep : Dependence).

Lemma synthesizedName_inj (n n' : nat) :
  synthesizedName n = synthesizedName n' -> n = n'.
Proof.
  unfold synthesizedName. intros Heq%(inj (String.app "Op")).
  by apply (inj pretty) in Heq.
Qed.

Lemma namesInvariant_empty : namesInvariant operationNameFn ∅.
Proof. split; intros *; rewrite ?lookup_empty; done. Qed.

Lemma size_insert_ge opNames op (name : string) :
  (size opNames <= size (<[op := name]> opNames))%nat.
Proof.
  rewrite map_size_insert. destruct (opNames !! op); simpl; lia.
Qed.

Lemma namesInvariant_provided opNames op name :
  operationNameFn op = Some name ->
  namesInvariant operationNameFn opNames -> namesInvariant operationNameFn (<[op := name]> opNames).
Proof.
  intros Hfn [Hp Hs Hd]. pose proof (size_insert_ge opNames op name) as Hsize. split.
  - intros op' n n'. rewrite lookup_insert. case_decide; [|by apply Hp].
    intros [= <-] ?. simplify_eq. congruence.
  - intros op' n. rewrite lookup_insert. case_decide; [intros; simplify_eq; congruence|].
    intros Hl Hnone. destruct (Hs _ _ Hl Hnone) as (k & ? & ?). exists k. split; [lia|done].
  - intros op1 op2 n Hne. rewrite !lookup_insert.
    repeat case_decide; intros; simplify_eq; try congruence. by eapply (Hd op1 op2).
Qed.

Lemma namesInvariant_synthesized opNames src :
  opNames !! src = None -> operationNameFn src = None ->
  namesInvariant operationNameFn opNames ->
  namesInvariant operationNameFn (<[src := synthesizedName (size opNames)]> opNames).
Proof.
  intros Hfresh Hfn [Hp Hs Hd].
  assert (size (<[src := synthesizedName (size opNames)]> opNames) = S (size opNames))
    as Hsize by (by apply map_size_insert_None).
  split.
  - intros op' n n'. rewrite lookup_insert. case_decide; [|by apply Hp].
    intros; simplify_eq; congruence.
  - intros op' n. rewrite Hsize, lookup_insert. case_decide.
    + intros [= <-] _. exists (size opNames). split; [lia|done].
    + intros Hl Hnone. destruct (Hs _ _ Hl Hnone) as (k & ? & ?). exists k. split; [lia|done].
  - intros op1 op2 n Hne. rewrite !lookup_insert.
    repeat case_decide; simplify_eq.
    + intros [= <-] Hl _ Hnone. destruct (Hs _ _ Hl Hnone) as (k & Hk & Heq).
      apply synthesizedName_inj in Heq. lia.
    + intros Hl [= <-] Hnone _. destruct (Hs _ _ Hl Hnone) as (k & Hk & Heq).
      apply synthesizedName_inj in Heq. lia.
    + intros. by eapply (Hd op1 op2).
Qed.

Lemma namesInvariant_assignSourceName opNames dep :
  namesInvariant operationNameFn opNames ->
  namesInvariant operationNameFn (assignSourceName operationNameFn opNames dep).
Proof.
  intros Hinv. destruct dep as [owner n|src dst]; simpl; [done|].
  case_bool_decide as Hin; [done|].
  assert (opNames !! src = None) as Hfresh.
  { destruct (opNames !! src) eqn:E; [|done]. exfalso. apply Hin. eauto. }
  destruct (operationNameFn src) as [providedName|] eqn:Hfn.
  - by apply namesInvariant_provided.
  - by apply namesInvariant_synthesized.
Qed.

Lemma namesInvariant_assignNames (prob : ProblemT) opNames op :
  namesInvariant operationNameFn opNames ->
  namesInvariant operationNameFn (assignNames operationNameFn prob opNames op).
Proof.
  intros Hinv. unfold assignNames.
  assert (namesInvariant operationNameFn
            match operationNameFn op with
            | Some providedName => <[op := providedName]> opNames
            | None => opNames
            end) as Hinv'.
  { destruct (operationNameFn op) eqn:Hfn; [|done]. by apply namesInvariant_provided. }
  revert Hinv'. generalize (match operationNameFn op with
                            | Some providedName => <[op := providedName]> opNames
                            | None => opNames
                            end).
  induction (getDependences prob op) as [|dep deps IH]; intros m Hm; simpl; [done|].
  apply IH. by apply namesInvariant_assignSourceName.
Qed.

Lemma namesInvariant_nameTable (prob : ProblemT) :
  namesInvariant operationNameFn (nameTable operationNameFn prob).
Proof.
  unfold nameTable. generalize namesInvariant_empty.
  generalize (∅ : gmap Operation string).
  induction (getOperations prob) as [|op ops IH]; intros m Hm; simpl; [done|].
  apply IH. by apply namesInvariant_assignNames.
Qed.

(** Names are never removed from the table. *)
Lemma assignSourceName_mono opNames dep op :
  is_Some (opNames !! op) ->
  is_Some (assignSourceName operationNameFn opNames dep !! op).
Proof.
  intros Hop. destruct dep as [owner n|src dst]; simpl; [done|].
  case_bool_decide; [done|].
  destruct (operationNameFn src); rewrite lookup_insert; case_decide; eauto.
Qed.

Lemma assignSourceName_names_source opNames src dst :
  is_Some (assignSourceName operationNameFn opNames (AuxDep src dst) !! src).
Proof.
  simpl. case_bool_decide; [done|].
  destruct (operationNameFn src); rewrite lookup_insert_eq; eauto.
Qed.

Lemma foldl_assignSourceName_mono opNames (deps : list Dependence) op :
  is_Some (opNames !! op) ->
  is_Some (foldl (assignSourceName operationNameFn) opNames deps !! op).
Proof.
  revert opNames. induction deps as [|dep deps IH]; intros m Hm; simpl; [done|].
  by apply IH, assignSourceName_mono.
Qed.

Lemma foldl_assignSourceName_names opNames (deps : list Dependence) src dst :
  AuxDep src dst ∈ deps ->
  is_Some (foldl (assignSourceName operationNameFn) opNames deps !! src).
Proof.
  revert opNames. induction deps as [|dep deps IH]; intros m Hin; simpl.
  { by apply elem_of_nil in Hin. }
  apply elem_of_cons in Hin as [<-|Hin]; [|by apply IH].
  apply foldl_assignSourceName_mono, assignSourceName_names_source.
Qed.

Lemma assignNames_mono (prob : ProblemT) opNames op op' :
  is_Some (opNames !! op') ->
  is_Some (assignNames operationNameFn prob opNames op !! op').
Proof.
  intros Hop. unfold assignNames. apply foldl_assignSourceName_mono.
  destruct (operationNameFn op); [|done].
  rewrite lookup_insert. case_decide; eauto.
Qed.

Lemma nameTable_names_sources (prob : ProblemT) op src dst :
  op ∈ getOperations prob -> AuxDep src dst ∈ getDependences prob op ->
  is_Some (nameTable operationNameFn prob !! src).
Proof.
  unfold nameTable. generalize (∅ : gmap Operation string).
  induction (getOperations prob) as [|op' ops IH]; intros m Hin Hdep; simpl.
  { by apply elem_of_nil in Hin. }
  apply elem_of_cons in Hin as [<-|Hin]; [|by apply IH].
  assert (is_Some (assignNames operationNameFn prob m op !! src)) as Hsrc
    by (by eapply foldl_assignSourceName_names).
  revert Hsrc. generalize (assignNames operationNameFn prob m op). clear.
  induction ops as [|op' ops IH]; intros m Hm; simpl; [done|].
  by apply IH, assignNames_mono.
Qed.

End NamingFacts.

Section NamingClaims.

Context {Attribute ProblemT : Type} {model : ProblemModel Attribute ProblemT}.

(** What the naming pass does ensure: every source of an auxiliary
    dependence gets a name; the names synthesized for the operations the
    caller does not name are [Op<n>] for pairwise different [n], hence
    pairwise distinct; and they differ from the caller-supplied names of the
    table when the caller supplies no name of the form [Op<n>]. *)
Theorem synthesized_names_distinct
    (operationNameFn : Operation -> option string) (prob : ProblemT) :
  let opNames := nameTable operationNameFn prob in
  (forall op src dst,
     op ∈ getOperations prob -> AuxDep src dst ∈ getDependences prob op ->
     is_Some (opNames !! src)) /\
  (forall op name,
     opNames !! op = Some name -> operationNameFn op = None ->
     exists n, (n < size opNames)%nat /\ name = synthesizedName n) /\
  (forall op op' name name',
     op ≠ op' ->
     opNames !! op = Some name -> operationNameFn op = None ->
     opNames !! op' = Some name' -> operationNameFn op' = None ->
     name ≠ name') /\
  ((forall op n, operationNameFn op ≠ Some (synthesizedName n)) ->
   forall op op' name name',
     opNames !! op = Some name -> operationNameFn op = None ->
     opNames !! op' = Some name' -> is_Some (operationNameFn op') ->
     name ≠ name').
Proof.
  intros opNames.
  destruct (namesInvariant_nameTable operationNameFn prob) as [Hp Hs Hd].
  fold opNames in Hp, Hs, Hd. split_and!.
  - intros op src dst. apply nameTable_names_sources.
  - exact Hs.
  - intros op op' name name' Hne Hl Hfn Hl' Hfn' <-. by eapply (Hd op op').
  - intros Hform op op' name name' Hl Hfn Hl' [provided Hfn'] <-.
    destruct (Hs _ _ Hl Hfn) as (n & _ & ->).
    rewrite <- (Hp _ _ _ Hl' Hfn') in Hfn'. by apply (Hform op' n).
Qed.

End NamingClaims.

Lemma synthesized_names_distinct_witness :
  nameTable sinkNameFn collidingProblem !! 0%nat = Some "Op1" /\
  nameTable sinkNameFn collidingProblem !! 1%nat = Some "sink" /\
  "Op1" ≠ "sink".
Proof.
  split; [reflexivity|]. split; [reflexivity|].
  destruct (synthesized_names_distinct sinkNameFn collidingProblem) as (_ & _ & _ & Hfree).
  apply (Hfree) with (op := 0%nat) (op' := 1%nat).
  - intros op n. unfold sinkNameFn. case_bool_decide; [|done]. intros [=].
  - reflexivity.
  - reflexivity.
  - reflexivity.
  - eexists. reflexivity.
Defined.

(** C3 fails on the code: the naming pass does not compare a synthesized
    name with the names of the caller. The caller names [op1] as [Op1] and
    leaves [op0], the source of an auxiliary dependence, unnamed; the name
    synthesized for [op0] is [Op1] too. In the instance saved from
    [shadowingProblem] both operations are declared as [@Op1], and the
    reference to the source, [op1], resolves to the other operation, so that
    loading the instance gives a dependence of [op0] on itself. *)
Lemma synthesized_name_collides :
  collidingNameFn 0%nat = None /\
  collidingNameFn 1%nat = Some "Op1" /\
  AuxDep 0%nat 1%nat ∈ getDependences collidingProblem 1%nat /\
  nameTable collidingNameFn collidingProblem !! 0%nat = Some "Op1" /\
  nameTable collidingNameFn collidingProblem !! 1%nat = Some "Op1" /\
  getDependences shadowingProblem 0%nat = [AuxDep 1%nat 0%nat] /\
  exists instOp',
    saveProblem shadowingProblem "inst" "Problem" shadowingNameFn
      exampleOpKinds exampleOprKinds exampleDepKinds exampleInstKinds
    = inr instOp' /\
    getBody instOp'
    = [OperationDecl (mkOperationOp (Some "Op1") [] 1%nat
                        (Some [mkDependenceAttr 0 (Some "Op1") None]) None);
       OperationDecl (mkOperationOp (Some "Op1") [] 1%nat None None)] /\
    lookupSymbolIn instOp' "Op1" = Some 0%nat /\
    exists prob',
      loadProblem instOp' exampleOpKinds exampleOprKinds exampleDepKinds exampleInstKinds
      = inr prob' /\
      getDependences prob' 0%nat = [AuxDep 0%nat 0%nat].
Proof.
  split_and!; try reflexivity; [apply list_elem_of_here|].
  eexists. split_and!; try reflexivity.
  eexists. split; reflexivity.
Qed.

(** ** The emission pass of [saveProblem] *)

Section EmissionFacts.

Context {Attribute ProblemT : Type} {model : ProblemModel Attribute ProblemT}.
Variable depKinds : list (PropertyKind Attribute ProblemT Dependence).
Variable prob : ProblemT.
Variable opNames : gmap Operation string.
Implicit Types (dep : Dependence) (deps : list Dependence)
  (depAttrs : list (DependenceAttr Attribute)).

Lemma sourcesNamed_cons dep deps :
  sourcesNamed opNames (dep :: deps) -> sourcesNamed opNames deps.
Proof. intros Hn src dst Hin. apply (Hn src dst). by right. Qed.

Lemma foldlE_emitDependence deps depAttrs (idx : Z) :
  sourcesNamed opNames deps ->
  0 <= idx -> idx + Z.of_nat (length deps) < UINT_RANGE ->
  exists idx',
    foldlE (emitDependence depKinds prob opNames) (depAttrs, idx) deps
    = inr (depAttrs ++ recordsFrom depKinds prob opNames idx deps, idx').
Proof.
  revert depAttrs idx. induction deps as [|dep deps IH]; intros depAttrs idx Hn Hidx Hlen.
  { exists idx. simpl. by rewrite app_nil_r. }
  simpl length in Hlen. pose proof (sourcesNamed_cons _ _ Hn) as Hn'.
  destruct dep as [owner operandNumber|src dst]; cbn [foldlE emitDependence recordsFrom].
  - unfold dataRecordOf.
    destruct (saveDependenceProperties depKinds prob (DefUseDep owner operandNumber))
      as [props|]; simpl.
    + destruct (IH (depAttrs ++ [mkDependenceAttr (Z.of_nat operandNumber mod UINT_RANGE)
                                                   None (Some props)]) idx)
        as [idx' ->]; [done|lia..|].
      exists idx'. by rewrite <- app_assoc.
    + apply IH; [done|lia..].
  - destruct (Hn src dst) as [name Hname]; [by left|]. rewrite Hname.
    rewrite uint_incr_small by lia.
    destruct (IH (depAttrs ++ [mkDependenceAttr idx (Some name)
                   (saveDependenceProperties depKinds prob (AuxDep src dst))]) (idx + 1))
      as [idx' ->]; [done|lia..|].
    exists idx'. by rewrite <- app_assoc.
Qed.

Lemma recordsFrom_data deps (next : Z) :
  sourcesNamed opNames deps ->
  filter isDataRecord (recordsFrom depKinds prob opNames next deps)
  = omap (dataRecordOf depKinds prob) deps.
Proof.
  revert next. induction deps as [|dep deps IH]; intros next Hn; [done|].
  pose proof (sourcesNamed_cons _ _ Hn) as Hn'.
  destruct dep as [owner operandNumber|src dst]; cbn [recordsFrom omap list_omap].
  - rewrite filter_app, IH by done.
    destruct (dataRecordOf depKinds prob (DefUseDep owner operandNumber)) as [r|] eqn:Hr;
      [|done].
    simpl. rewrite filter_cons_True; [done|]. unfold dataRecordOf in Hr.
    destruct (saveDependenceProperties _ _ _); by simplify_eq.
  - destruct (Hn src dst) as [name Hname]; [by left|]. rewrite Hname.
    rewrite filter_cons_False by (by intros ?). simpl. by apply IH.
Qed.

Lemma recordsFrom_aux deps (nOperands k : nat) :
  sourcesNamed opNames deps ->
  filter isAuxRecord (recordsFrom depKinds prob opNames
                        (Z.of_nat nOperands + Z.of_nat k) deps)
  = imap (fun j => auxRecordOf depKinds prob opNames nOperands (k + j))
         (filter (fun dep => isAuxiliary dep = true) deps).
Proof.
  revert k. induction deps as [|dep deps IH]; intros k Hn; [done|].
  pose proof (sourcesNamed_cons _ _ Hn) as Hn'.
  destruct dep as [owner operandNumber|src dst]; cbn [recordsFrom].
  - rewrite filter_app, IH by done.
    rewrite (filter_cons_False _ (DefUseDep owner operandNumber)) by done.
    assert (filter isAuxRecord
              (option_list (dataRecordOf depKinds prob (DefUseDep owner operandNumber)))
            = []) as ->; [|done].
    unfold dataRecordOf. destruct (saveDependenceProperties _ _ _); [|done].
    simpl. rewrite filter_cons_False; [done|]. unfold isAuxRecord. simpl. tauto.
  - destruct (Hn src dst) as [name Hname]; [by left|].
    rewrite filter_cons_True by (unfold isAuxRecord; simpl; by rewrite Hname).
    rewrite (filter_cons_True _ (AuxDep src dst)) by done.
    rewrite imap_cons. f_equal.
    + unfold auxRecordOf. f_equal. lia.
    + replace (Z.of_nat nOperands + Z.of_nat k + 1)
        with (Z.of_nat nOperands + Z.of_nat (S k)) by lia.
      rewrite IH by done. apply imap_ext. intros j dep _. simpl.
      f_equal. lia.
Qed.

(** The auxiliary records of an enumeration that has only auxiliary
    dependences left pass the checks of [OperationOp::verify]. *)
Lemma verifyDependences_recordsFrom_aux deps (nOperands lastIdx next : Z) :
  sourcesNamed opNames deps ->
  Forall (fun dep => isAuxiliary dep = true) deps ->
  0 <= nOperands <= next ->
  (next = lastIdx + 1 \/ (lastIdx < next /\ next = nOperands)) ->
  -1 <= lastIdx ->
  next + Z.of_nat (length deps) <= INT_MAX ->
  verifyDependences nOperands lastIdx (recordsFrom depKinds prob opNames next deps)
  = success.
Proof.
  revert lastIdx next. induction deps as [|dep deps IH];
    intros lastIdx next Hn Haux Hnext Hstep Hlast Hlen; [done|].
  pose proof (sourcesNamed_cons _ _ Hn) as Hn'.
  apply Forall_cons in Haux as [Hd Haux]. simpl length in Hlen.
  destruct dep as [owner operandNumber|src dst]; [done|]. cbn [recordsFrom].
  destruct (Hn src dst) as [name Hname]; [by left|]. rewrite Hname.
  apply verifyDependences_cons. simpl.
  rewrite (to_int_small next) by lia. unfold int_add.
  rewrite (to_int_small (lastIdx + 1)) by lia.
  split; [lia|]. apply IH; try done; lia.
Qed.

Lemma verifyDependences_recordsFrom deps (nOperands least : nat) (lastIdx : Z) :
  sourcesNamed opNames deps ->
  operandsFirst nOperands least deps ->
  -1 <= lastIdx < Z.of_nat least ->
  lastIdx < Z.of_nat nOperands ->
  Z.of_nat nOperands + Z.of_nat (length deps) <= INT_MAX ->
  verifyDependences (Z.of_nat nOperands) lastIdx
    (recordsFrom depKinds prob opNames (Z.of_nat nOperands) deps)
  = success.
Proof.
  revert least lastIdx. induction deps as [|dep deps IH];
    intros least lastIdx Hn Hord Hlast Hlt Hlen; [done|].
  pose proof (sourcesNamed_cons _ _ Hn) as Hn'. simpl length in Hlen.
  destruct dep as [owner operandNumber|src dst].
  - destruct Hord as [Hnum Hord]. cbn [recordsFrom]. unfold dataRecordOf.
    destruct (saveDependenceProperties depKinds prob (DefUseDep owner operandNumber))
      as [props|]; simpl option_list; cbn [app].
    + apply verifyDependences_cons. simpl.
      assert (Z.of_nat operandNumber mod UINT_RANGE = Z.of_nat operandNumber) as ->
        by (apply Z.mod_small; unfold UINT_RANGE, INT_MAX in *; lia).
      rewrite to_int_small by lia. split; [lia|].
      apply (IH (S operandNumber)); try done; lia.
    + apply (IH (S operandNumber)); try done; lia.
  - apply verifyDependences_recordsFrom_aux; try done; try lia.
    constructor; [done|]. exact Hord.
Qed.

End EmissionFacts.

Section EmissionClaims.

Context {Attribute ProblemT : Type} {model : ProblemModel Attribute ProblemT}.
Implicit Types (prob : ProblemT) (deps : list Dependence)
  (depKinds : list (PropertyKind Attribute ProblemT Dependence))
  (opNames : gmap Operation string).

Lemma length_recordsFrom depKinds prob opNames (next : Z) deps :
  (length (recordsFrom depKinds prob opNames next deps) <= length deps)%nat.
Proof.
  revert next. induction deps as [|[owner n|src dst] deps IH]; intros next;
    cbn [recordsFrom]; [done| |].
  - rewrite length_app. specialize (IH next).
    destruct (dataRecordOf depKinds prob (DefUseDep owner n)); simpl; lia.
  - specialize (IH (next + 1)). simpl. lia.
Qed.

Lemma indicesUnsigned_recordsFrom depKinds prob opNames (next : Z) deps :
  0 <= next -> next + Z.of_nat (length deps) < UINT_RANGE ->
  indicesUnsigned (recordsFrom depKinds prob opNames next deps).
Proof.
  revert next. induction deps as [|[owner n|src dst] deps IH]; intros next Hn Hlen;
    simpl length in Hlen; cbn [recordsFrom]; [constructor| |].
  - apply Forall_app. split; [|apply IH; lia].
    unfold dataRecordOf. destruct (saveDependenceProperties _ _ _); [|constructor].
    repeat constructor; simpl; apply Z.mod_pos_bound; unfold UINT_RANGE; lia.
  - constructor; [unfold is_unsigned; simpl; lia|]. apply IH; lia.
Qed.

Lemma mappedValues_length prob (vs : list Value) :
  length (mappedValues prob vs) = length vs.
Proof. unfold mappedValues. apply length_fmap. Qed.

(** C8: for every operation of the problem, the emission pass of
    [saveProblem] completes and emits: for the data dependences, a record
    only for those with encoded properties, at the operand number and with
    no source name; for the auxiliary dependences, in enumeration order,
    records at consecutive slot indices from the operand count. When the
    problem enumerates the data dependences first, by increasing operand
    number, the emitted operation passes [OperationOp::verify] and satisfies
    the document-form invariant. *)
Theorem saver_reproduces_record_invariant
    (operationNameFn : Operation -> option string)
    (opKinds : list (PropertyKind Attribute ProblemT Operation))
    (depKinds : list (PropertyKind Attribute ProblemT Dependence))
    prob (op : Operation) :
  let opNames := nameTable operationNameFn prob in
  let deps := getDependences prob op in
  let nOperands := length (operandsOf prob op) in
  op ∈ getOperations prob ->
  Z.of_nat nOperands + Z.of_nat (length deps) <= INT_MAX ->
  exists depAttrs,
    emitDependences depKinds prob opNames op = inr depAttrs /\
    filter isDataRecord depAttrs = omap (dataRecordOf depKinds prob) deps /\
    filter isAuxRecord depAttrs
    = imap (auxRecordOf depKinds prob opNames nOperands)
           (filter (fun dep => isAuxiliary dep = true) deps) /\
    (operandsFirst nOperands 0 deps ->
     forall opOp,
       emitOperation opKinds depKinds prob opNames op = inr opOp ->
       default [] (getDependencesAttr opOp) = depAttrs /\
       verify opOp = success /\ documentFormInvariant opOp).
Proof.
  intros opNames deps nOperands Hop Hlen.
  assert (sourcesNamed opNames deps) as Hnamed.
  { intros src dst Hin. by eapply nameTable_names_sources. }
  assert (Z.of_nat nOperands mod UINT_RANGE = Z.of_nat nOperands) as Hmod
    by (apply Z.mod_small; unfold UINT_RANGE, INT_MAX in *; lia).
  destruct (foldlE_emitDependence depKinds prob opNames deps [] (Z.of_nat nOperands))
    as [idx' Hfold]; [done|lia|unfold UINT_RANGE, INT_MAX in *; lia|].
  simpl in Hfold.
  exists (recordsFrom depKinds prob opNames (Z.of_nat nOperands) deps).
  assert (emitDependences depKinds prob opNames op
          = inr (recordsFrom depKinds prob opNames (Z.of_nat nOperands) deps)) as Hemit.
  { unfold emitDependences. fold nOperands deps. by rewrite Hmod, Hfold. }
  split_and!; [done|by apply recordsFrom_data| |].
  - pose proof (recordsFrom_aux depKinds prob opNames deps nOperands 0 Hnamed) as Haux.
    rewrite Z.add_0_r in Haux. exact Haux.
  - intros Hord opOp. unfold emitOperation. rewrite Hemit.
    pose proof (mappedValues_length prob (operandsOf prob op)) as Hmap. intros [= <-].
    pose proof (verifyDependences_recordsFrom depKinds prob opNames deps nOperands 0 (-1)
                  Hnamed Hord ltac:(lia) ltac:(lia) Hlen) as Hverify.
    pose proof (length_recordsFrom depKinds prob opNames (Z.of_nat nOperands) deps) as Hle.
    assert (indicesUnsigned (recordsFrom depKinds prob opNames (Z.of_nat nOperands) deps))
      as Hu by (apply indicesUnsigned_recordsFrom; unfold UINT_RANGE, INT_MAX in *; lia).
    set (depAttrs := recordsFrom depKinds prob opNames (Z.of_nat nOperands) deps) in *.
    assert (default [] match depAttrs with [] => None | _ :: _ => Some depAttrs end
            = depAttrs) as Hdefault by (by destruct depAttrs).
    split; [done|]. split.
    + unfold verify, getNumOperands. simpl. rewrite Hmap. fold nOperands.
      rewrite Hmod, to_int_small by lia. by destruct depAttrs.
    + unfold documentFormInvariant. simpl. rewrite Hmap, Hdefault. fold nOperands.
      apply (verifyDependences_data_phase _ (-1)) in Hverify; [by destruct Hverify|lia|lia|done].
Qed.

End EmissionClaims.

(** The problem model enumerates the dependences in the order the
    verifier relies on. *)
Lemma Problem_getDependences_operandsFirst {Attribute : Type}
    (prob : Problem Attribute) (op : Operation) :
  operandsFirst (length (operandsOf prob op)) 0 (getDependences prob op).
Proof.
  simpl. unfold Problem_getDependences, operandsOf. simpl.
  fold (bodyOperands (containingOp prob) op).
  generalize (bodyOperands (containingOp prob) op). intros operands.
  set (auxs := omap _ (auxDependences prob)).
  assert (Forall (fun dep => isAuxiliary dep = true) auxs) as Haux.
  { apply Forall_forall. intros dep ([src dst] & _ & Heq)%list_elem_of_omap.
    case_bool_decide; by simplify_eq. }
  clearbody auxs.
  assert (forall k,
    operandsFirst (k + length operands) k
      (omap (fun '(i, v) =>
               if bool_decide (getDefiningOp v ∈ operations prob)
               then Some (DefUseDep op i) else None)
            (imap (fun i => pair (k + i)%nat) operands) ++ auxs)) as Hgen.
  { induction operands as [|v operands IH]; intros k.
    - simpl. destruct auxs as [|[owner n|src dst] auxs]; simpl; [done| |].
      + by apply Forall_cons in Haux as [? _].
      + by apply Forall_cons in Haux as [_ ?].
    - rewrite imap_cons. cbn [omap list_omap]. rewrite Nat.add_0_r.
      assert (operandsFirst (k + length (v :: operands)) (S k)
                (omap (fun '(i, v0) =>
                         if bool_decide (getDefiningOp v0 ∈ operations prob)
                         then Some (DefUseDep op i) else None)
                      (imap ((fun i => pair (k + i)%nat) ∘ S) operands) ++ auxs)) as Hrest.
      { specialize (IH (S k)). simpl length.
        replace (k + S (length operands))%nat with (S k + length operands)%nat by lia.
        erewrite imap_ext; [exact IH|]. intros i x _. simpl. f_equal. lia. }
      case_bool_decide.
      + simpl. split; [simpl length; lia|done].
      + clear IH. revert Hrest. generalize (omap (fun '(i, v0) =>
                         if bool_decide (getDefiningOp v0 ∈ operations prob)
                         then Some (DefUseDep op i) else None)
                      (imap ((fun i => pair (k + i)%nat) ∘ S) operands) ++ auxs).
        intros [|[owner n|src dst] l]; simpl; [done| |done].
        intros [? ?]. split; [lia|done]. }
  apply (Hgen 0%nat).
Qed.

Example loadProblem_exampleInstance :
  loadProblem exampleInstance exampleOpKinds exampleOprKinds exampleDepKinds
              exampleInstKinds = inr exampleProblem.
Proof. vm_compute. reflexivity. Qed.

Lemma saver_reproduces_record_invariant_witness :
  emitDependences exampleDepKinds exampleProblem
    (nameTable exampleNameFn exampleProblem) 3%nat
  = inr [mkDependenceAttr 0 None (Some [("distance", 1)])] /\
  emitDependences exampleDepKinds exampleProblem
    (nameTable exampleNameFn exampleProblem) 4%nat
  = inr [mkDependenceAttr 0 (Some "op0") None] /\
  forall opOp,
    emitOperation exampleOpKinds exampleDepKinds exampleProblem
      (nameTable exampleNameFn exampleProblem) 4%nat = inr opOp ->
    verify opOp = success.
Proof.
  split; [reflexivity|]. split; [reflexivity|].
  assert (4%nat ∈ getOperations exampleProblem) as Hop
    by (simpl; repeat constructor).
  destruct (saver_reproduces_record_invariant exampleNameFn exampleOpKinds
              exampleDepKinds exampleProblem 4%nat Hop) as (depAttrs & _ & _ & _ & Hverify).
  { unfold INT_MAX. simpl. lia. }
  intros opOp HopOp.
  apply (Hverify (Problem_getDependences_operandsFirst exampleProblem 4%nat) opOp HopOp).
Defined.

(** ** The round trip through [saveProblem] and [loadProblem] *)

Section StoreFacts.
Context {Attribute : Type}.
Implicit Types (prob : Problem Attribute) (descs : list (KindDesc Attribute))
  (store : gmap (AttachmentPoint * string) Attribute) (point : AttachmentPoint).

Lemma withProperties_id prob : withProperties prob (properties prob) = prob.
Proof. by destruct prob. Qed.

Lemma typeSwitch_kindsAt {Target : Type} (pt : Target -> AttachmentPoint) descs
    (prop : Attribute) prob (target : Target) :
  typeSwitch (kindsAt pt descs) prop prob target
  = withProperties prob (dispatch descs (pt target) prop (properties prob)).
Proof.
  unfold dispatch. induction descs as [|desc descs IH]; simpl.
  { by rewrite withProperties_id. }
  case_decide as Hacc.
  - by rewrite Hacc.
  - apply not_true_is_false in Hacc. rewrite Hacc, IH.
    by destruct (list_find _ descs) as [[i d]|].
Qed.

Lemma loadProperties_kindsAt {Target : Type} (pt : Target -> AttachmentPoint) descs
    prob (target : Target) (props : ArrayAttr Attribute) :
  loadProperties (kindsAt pt descs) prob target props
  = withProperties prob
      (foldl (fun store prop => dispatch descs (pt target) prop store)
             (properties prob) (default [] props)).
Proof.
  destruct props as [props|]; simpl.
  2:{ rewrite loadProperties_None. by rewrite withProperties_id. }
  rewrite loadProperties_Some. revert prob.
  induction props as [|prop props IH]; intros prob; simpl.
  { by rewrite withProperties_id. }
  rewrite IH, typeSwitch_kindsAt. done.
Qed.

Lemma saveProperties_kindsAt {Target : Type} (pt : Target -> AttachmentPoint) descs
    prob (target : Target) :
  default [] (saveProperties (kindsAt pt descs) prob target)
  = omap (fun desc : KindDesc Attribute => properties prob !! (pt target, desc.1)) descs.
Proof.
  unfold saveProperties.
  assert (omap (fun kind => getFromProblem kind prob target) (kindsAt pt descs)
          = omap (fun desc : KindDesc Attribute =>
                    properties prob !! (pt target, desc.1)) descs) as ->.
  { unfold kindsAt. induction descs as [|desc descs IH]; [done|].
    cbn [fmap list_fmap omap list_omap]. rewrite <- IH. done. }
  by destruct (omap _ descs).
Qed.

Lemma dispatch_own descs point desc prop store :
  unambiguous descs -> desc ∈ descs -> desc.2 prop = true ->
  dispatch descs point prop store = <[(point, desc.1) := prop]> store.
Proof.
  intros [_ Hdisj] Hin Hacc. unfold dispatch.
  destruct (list_find _ descs) as [[i desc']|] eqn:Hfind.
  - apply list_find_Some in Hfind as (Hi & Hacc' & _).
    rewrite (Hdisj desc desc' prop); try done. by eapply list_elem_of_lookup_2.
  - apply list_find_None in Hfind. rewrite Forall_forall in Hfind.
    by destruct (Hfind desc Hin).
Qed.

Lemma foldl_dispatch_slotValues descs descs0 store0 store source target :
  unambiguous descs ->
  slotsTyped descs source store0 ->
  descs0 ⊆ descs ->
  foldl (fun store prop => dispatch descs target prop store) store
        (omap (fun desc : KindDesc Attribute => store0 !! (source, desc.1)) descs0)
  = insertAll (slotValues descs0 store0 source target) store.
Proof.
  intros Hun Htyped. unfold insertAll, slotValues. revert store.
  induction descs0 as [|desc descs0 IH]; intros store Hsub; [done|].
  cbn [omap list_omap].
  assert (desc ∈ descs) as Hin by (apply Hsub; by left).
  assert (descs0 ⊆ descs) as Hsub' by (intros d Hd; apply Hsub; by right).
  destruct (store0 !! (source, desc.1)) as [prop|] eqn:Hl; simpl.
  - rewrite (dispatch_own descs _ desc); [by apply IH|done..|].
    by apply (Htyped desc).
  - by apply IH.
Qed.

(** Loading what was saved: the values of the slots move over. *)
Lemma load_saved_properties {Target : Type} (pt : Target -> AttachmentPoint) descs
    prob prob' (target target' : Target) :
  unambiguous descs ->
  slotsTyped descs (pt target) (properties prob) ->
  loadProperties (kindsAt pt descs) prob' target'
                 (saveProperties (kindsAt pt descs) prob target)
  = withProperties prob'
      (insertAll (slotValues descs (properties prob) (pt target) (pt target'))
                 (properties prob')).
Proof.
  intros Hun Htyped. rewrite loadProperties_kindsAt, saveProperties_kindsAt. f_equal.
  by apply foldl_dispatch_slotValues.
Qed.

End StoreFacts.

Section SetInsert.
Context {A : Type} `{EqDecision A}.
Implicit Types (x : A) (l : list A).

Lemma setInsert_new x l : x ∉ l -> setInsert x l = l ++ [x].
Proof. intros Hx. unfold setInsert. by rewrite bool_decide_eq_false_2. Qed.

Lemma setInsert_old x l : x ∈ l -> setInsert x l = l.
Proof. intros Hx. unfold setInsert. by rewrite bool_decide_eq_true_2. Qed.

Lemma elem_of_setInsert x y l : y ∈ setInsert x l <-> y = x \/ y ∈ l.
Proof.
  unfold setInsert. case_bool_decide; [|rewrite elem_of_app, list_elem_of_singleton].
  - split; [auto|]. by intros [->|?].
  - tauto.
Qed.

Lemma NoDup_setInsert x l : NoDup l -> NoDup (setInsert x l).
Proof.
  intros Hl. unfold setInsert. case_bool_decide; [done|].
  apply NoDup_app. split_and!; [done| |apply NoDup_singleton].
  intros y Hy ->%list_elem_of_singleton. done.
Qed.

Lemma foldl_setInsert_NoDup {B : Type} (f : B -> A) (acc : list A) (l : list B) :
  NoDup (acc ++ (f <$> l)) ->
  foldl (fun acc y => setInsert (f y) acc) acc l = acc ++ (f <$> l).
Proof.
  revert acc. induction l as [|y l IH]; intros acc Hnd; simpl.
  { by rewrite app_nil_r. }
  simpl in Hnd. rewrite setInsert_new.
  - rewrite IH; rewrite <- app_assoc; done.
  - apply NoDup_app in Hnd as (_ & Hdisj & _). intros Hin.
    apply (Hdisj _ Hin). by left.
Qed.

End SetInsert.

Section BodyFacts.
Context {Attribute : Type}.
Implicit Types (body : list (BodyOp Attribute)) (instOp : InstanceOp Attribute).

Lemma operationOps_operationsFrom instOp :
  operationOps instOp = operationsFrom 0 (getBody instOp).
Proof. done. Qed.

Lemma operationsFrom_cons (k : nat) (op : BodyOp Attribute) body :
  operationsFrom k (op :: body)
  = match op with OperationDecl o => [(k, o)] | _ => [] end
    ++ operationsFrom (S k) body.
Proof.
  unfold operationsFrom. rewrite imap_cons. cbn [omap list_omap].
  rewrite Nat.add_0_r.
  assert (imap ((fun i op0 => ((k + i)%nat, op0)) ∘ S) body
          = imap (fun i op0 => ((S k + i)%nat, op0)) body) as ->.
  { apply imap_ext. intros i x _. simpl. f_equal. lia. }
  by destruct op.
Qed.

Lemma operationsFrom_app (k : nat) body body' :
  operationsFrom k (body ++ body')
  = operationsFrom k body ++ operationsFrom (k + length body) body'.
Proof.
  revert k. induction body as [|op body IH]; intros k.
  { simpl. by rewrite Nat.add_0_r. }
  simpl app. rewrite !operationsFrom_cons, IH, <- app_assoc. simpl length.
  by replace (S k + length body)%nat with (k + S (length body))%nat by lia.
Qed.

Lemma operationsFrom_operator_types (k : nat) (oprOps : list (OperatorTypeOp Attribute)) :
  operationsFrom k (OperatorTypeDecl <$> oprOps) = [].
Proof.
  revert k. induction oprOps as [|o oprOps IH]; intros k; [done|].
  simpl fmap. rewrite operationsFrom_cons. apply IH.
Qed.

Lemma operationsFrom_operations (k : nat) (opOps : list (OperationOp Attribute)) :
  operationsFrom k (OperationDecl <$> opOps) = imap (fun j o => ((k + j)%nat, o)) opOps.
Proof.
  revert k. induction opOps as [|o opOps IH]; intros k; [done|].
  simpl fmap. rewrite operationsFrom_cons, IH, imap_cons. simpl.
  rewrite Nat.add_0_r. f_equal. apply imap_ext. intros i x _. simpl. f_equal. lia.
Qed.

Lemma operationsFrom_fst_ge (k : nat) body (h : Operation) :
  h ∈ (operationsFrom k body).*1 -> (k <= h)%nat.
Proof.
  revert k. induction body as [|op body IH]; intros k.
  { by intros ?%elem_of_nil. }
  rewrite operationsFrom_cons, fmap_app, elem_of_app. intros [Hin|Hin].
  - destruct op; simpl in Hin; [by apply elem_of_nil in Hin|].
    apply list_elem_of_singleton in Hin as ->. done.
  - apply IH in Hin. lia.
Qed.

Lemma NoDup_operationsFrom (k : nat) body : NoDup (operationsFrom k body).*1.
Proof.
  revert k. induction body as [|op body IH]; intros k; [constructor|].
  rewrite operationsFrom_cons, fmap_app. apply NoDup_app. split_and!; [|  |apply IH].
  - destruct op; simpl; [constructor|apply NoDup_singleton].
  - intros h Hh Hin%operationsFrom_fst_ge.
    destruct op; simpl in Hh; [by apply elem_of_nil in Hh|].
    apply list_elem_of_singleton in Hh as ->. lia.
Qed.

Lemma NoDup_operationOps instOp : NoDup (operationOps instOp).*1.
Proof. exact (NoDup_operationsFrom 0 (getBody instOp)). Qed.

Lemma operatorTypeOps_app (a : list (OperatorTypeOp Attribute))
    (b : list (OperationOp Attribute)) name pname props :
  operatorTypeOps (mkInstanceOp name pname props
                     ((OperatorTypeDecl <$> a) ++ (OperationDecl <$> b))) = a.
Proof.
  unfold operatorTypeOps. simpl. rewrite omap_app.
  assert (omap (fun op : BodyOp Attribute =>
                  match op with OperatorTypeDecl o => Some o | _ => None end)
               (OperationDecl <$> b) = []) as -> by (by induction b).
  rewrite app_nil_r. induction a as [|o a IH]; [done|].
  cbn [fmap list_fmap omap list_omap]. f_equal. exact IH.
Qed.

End BodyFacts.

Section LoadModel.

Context {Attribute : Type}.
Variables opDescs oprDescs depDescs instDescs : list (KindDesc Attribute).
Hypothesis opDescs_unambiguous : unambiguous opDescs.
Hypothesis oprDescs_unambiguous : unambiguous oprDescs.
Hypothesis depDescs_unambiguous : unambiguous depDescs.
Hypothesis instDescs_unambiguous : unambiguous instDescs.

Local Notation "'opKinds'" := (kindsAt AtOperation opDescs).
Local Notation "'oprKinds'" := (kindsAt AtOperatorType oprDescs).
Local Notation "'depKinds'" := (kindsAt AtDependence depDescs).
Local Notation "'instKinds'" := (kindsAt (fun _ : unit => AtInstance) instDescs).
Local Notation "'typed'" := (typedStore opDescs oprDescs depDescs instDescs).
Local Notation "'kindsFor'" := (descsFor opDescs oprDescs depDescs instDescs).

Implicit Types (prob : Problem Attribute) (instOp : InstanceOp Attribute)
  (store : gmap (AttachmentPoint * string) Attribute) (point : AttachmentPoint).

Lemma descsFor_unambiguous point : unambiguous (kindsFor point).
Proof. by destruct point. Qed.

Lemma desc_by_name (descs : list (KindDesc Attribute)) desc desc' :
  unambiguous descs -> desc ∈ descs -> desc' ∈ descs -> desc.1 = desc'.1 -> desc = desc'.
Proof.
  intros [Hnd _] Hin Hin' Heq.
  apply list_elem_of_lookup in Hin as [i Hi]. apply list_elem_of_lookup in Hin' as [j Hj].
  assert (i = j) as ->.
  { eapply NoDup_lookup; [exact Hnd| |]; rewrite list_lookup_fmap.
    - by rewrite Hi.
    - rewrite Hj. simpl. by rewrite Heq. }
  congruence.
Qed.

Lemma dispatch_typed point (prop : Attribute) store :
  typed store -> typed (dispatch (kindsFor point) point prop store).
Proof.
  intros Htyped. unfold dispatch.
  destruct (list_find _ (kindsFor point)) as [[i desc]|] eqn:Hfind; [|done].
  apply list_find_Some in Hfind as (Hi & Hacc & _).
  apply list_elem_of_lookup_2 in Hi.
  intros point' desc' prop' Hin'. rewrite lookup_insert. case_decide as Heq.
  - injection Heq as <- Heq. intros [= <-].
    rewrite <- (desc_by_name (kindsFor point) desc desc'); try done.
    apply descsFor_unambiguous.
  - by apply Htyped.
Qed.

Lemma loadStore_typed point (props : ArrayAttr Attribute) store :
  typed store -> typed (loadStore (kindsFor point) point props store).
Proof.
  unfold loadStore. generalize (default [] props). intros l. revert store.
  induction l as [|prop l IH]; intros store Htyped; simpl; [done|].
  by apply IH, dispatch_typed.
Qed.

Lemma typed_empty : typed ∅.
Proof. intros point desc prop _. by rewrite lookup_empty. Qed.

Lemma foldl_loadOperatorType prob (oprOps : list (OperatorTypeOp Attribute)) :
  foldl (loadOperatorType oprKinds) prob oprOps
  = mkProblem (containingOp prob)
      (foldl (fun oprs oprOp => setInsert (getNameAttr oprOp) oprs)
             (operatorTypes prob) oprOps)
      (operations prob) (auxDependences prob)
      (foldl (fun store oprOp =>
                loadStore oprDescs (AtOperatorType (getNameAttr oprOp))
                          (getOprPropertiesAttr oprOp) store)
             (properties prob) oprOps).
Proof.
  revert prob. induction oprOps as [|oprOp oprOps IH]; intros prob; simpl.
  { by destruct prob. }
  rewrite IH. unfold loadOperatorType, loadOperatorTypeProperties.
  rewrite loadProperties_kindsAt. done.
Qed.

Lemma foldl_loadOperation prob (entries : list (Operation * OperationOp Attribute)) :
  foldl (loadOperation opKinds) prob entries
  = mkProblem (containingOp prob) (operatorTypes prob)
      (foldl (fun ops entry => setInsert entry.1 ops) (operations prob) entries)
      (auxDependences prob)
      (foldl (fun store '(op, opOp) =>
                loadStore opDescs (AtOperation op) (getPropertiesAttr opOp) store)
             (properties prob) entries).
Proof.
  revert prob. induction entries as [|[op opOp] entries IH]; intros prob; simpl.
  { by destruct prob. }
  rewrite IH. unfold loadOperationProperties.
  rewrite loadProperties_kindsAt. done.
Qed.

Lemma loadNodes_explicit instOp :
  loadNodes instOp opKinds oprKinds instKinds
  = mkProblem instOp (loadedOperatorTypes instOp) (operationOps instOp).*1 []
              (loadedNodeStore opDescs oprDescs instDescs instOp).
Proof.
  unfold loadNodes, loadInstanceProperties.
  rewrite foldl_loadOperation, foldl_loadOperatorType, loadProperties_kindsAt. simpl.
  unfold loadedOperatorTypes, loadedNodeStore. f_equal.
  rewrite (foldl_setInsert_NoDup fst); [done|]. apply NoDup_operationOps.
Qed.

Lemma NoDup_loadedOperatorTypes instOp : NoDup (loadedOperatorTypes instOp).
Proof.
  unfold loadedOperatorTypes. generalize (NoDup_nil_2 (A := OperatorType)).
  generalize (@nil OperatorType).
  induction (operatorTypeOps instOp) as [|o l IH]; intros acc Hacc; simpl; [done|].
  by apply IH, NoDup_setInsert.
Qed.

Lemma loadedNodeStore_typed instOp :
  typed (loadedNodeStore opDescs oprDescs instDescs instOp).
Proof.
  unfold loadedNodeStore.
  assert (typed (loadStore instDescs AtInstance (getInstPropertiesAttr instOp) ∅)) as H0.
  { apply (loadStore_typed AtInstance), typed_empty. }
  revert H0. generalize (loadStore instDescs AtInstance (getInstPropertiesAttr instOp) ∅).
  intros store Hstore.
  assert (typed (foldl (fun store oprOp =>
                  loadStore oprDescs (AtOperatorType (getNameAttr oprOp))
                            (getOprPropertiesAttr oprOp) store)
               store (operatorTypeOps instOp))) as H1.
  { revert store Hstore. induction (operatorTypeOps instOp) as [|o l IH];
      intros store Hstore; simpl; [done|].
    apply IH. by apply (loadStore_typed (AtOperatorType _)). }
  revert H1. generalize (foldl (fun store oprOp =>
                  loadStore oprDescs (AtOperatorType (getNameAttr oprOp))
                            (getOprPropertiesAttr oprOp) store)
               store (operatorTypeOps instOp)).
  clear store Hstore. intros store Hstore. revert store Hstore.
  induction (operationOps instOp) as [|[op opOp] l IH]; intros store Hstore; simpl; [done|].
  apply IH. by apply (loadStore_typed (AtOperation _)).
Qed.

Lemma loadNodes_loadedFrom instOp :
  loadedFrom opDescs oprDescs depDescs instDescs instOp
             (loadNodes instOp opKinds oprKinds instKinds).
Proof.
  rewrite loadNodes_explicit. split; simpl; try done.
  - constructor.
  - intros src dst Hin. by apply elem_of_nil in Hin.
  - apply loadedNodeStore_typed.
Qed.

Lemma loadDependence_loadedFrom instOp (op : Operation) (opOp : OperationOp Attribute)
    prob prob' (depAttr : DependenceAttr Attribute) :
  loadedFrom opDescs oprDescs depDescs instDescs instOp prob ->
  loadDependence depKinds instOp op opOp prob depAttr = inr prob' ->
  loadedFrom opDescs oprDescs depDescs instDescs instOp prob'.
Proof.
  intros [Hc Hoprs Hops Hnd Hend Htyped]. unfold loadDependence, loadDependenceProperties.
  destruct (getSourceRef depAttr) as [sourceRef|].
  - destruct (lookupSymbolIn instOp sourceRef) as [sourceOp|] eqn:Hl; [|done].
    simpl. destruct (bool_decide (sourceOp ∈ operations prob)) eqn:Hsrc; [|done].
    destruct (bool_decide (op ∈ operations prob)) eqn:Hdst; [|done].
    apply bool_decide_eq_true in Hsrc, Hdst. simpl.
    rewrite loadProperties_kindsAt. intros [= <-]. split; simpl; try done.
    + by apply NoDup_setInsert.
    + intros src dst [[= -> ->]|Hin]%elem_of_setInsert; [by eauto|by apply Hend].
    + by apply (loadStore_typed (AtDependence _)).
  - destruct (getOpOperand opOp (getOperandIdx depAttr)) as [operandNumber|]; [|done].
    rewrite loadProperties_kindsAt. intros [= <-]. split; simpl; try done.
    by apply (loadStore_typed (AtDependence _)).
Qed.

Lemma foldlE_preserves {A E S : Type} (Inv : S -> Prop) (body : S -> A -> E + S)
    (l : list A) (s s' : S) :
  (forall s x s', x ∈ l -> Inv s -> body s x = inr s' -> Inv s') ->
  Inv s -> foldlE body s l = inr s' -> Inv s'.
Proof.
  revert s. induction l as [|x l IH]; intros s Hstep Hs; simpl.
  { by intros [= <-]. }
  destruct (body s x) as [err|s''] eqn:Hb; [done|].
  apply IH.
  - intros s0 y s0' Hy. apply Hstep. by right.
  - eapply Hstep; [by left|done|done].
Qed.

Lemma loadProblem_loadedFrom instOp prob :
  loadProblem instOp opKinds oprKinds depKinds instKinds = inr prob ->
  loadedFrom opDescs oprDescs depDescs instDescs instOp prob.
Proof.
  unfold loadProblem. apply foldlE_preserves; [|apply loadNodes_loadedFrom].
  intros prob0 [op opOp] prob1 _ Hinv. unfold loadDependences.
  destruct (getDependencesAttr opOp) as [deps|]; [|by intros [= <-]].
  apply foldlE_preserves; [|done].
  intros prob2 depAttr prob3 _. apply loadDependence_loadedFrom.
Qed.

End LoadModel.

Section ProvidedNames.

Context {Attribute ProblemT : Type} {model : ProblemModel Attribute ProblemT}.
Variable operationNameFn : Operation -> option string.
Variable prob : ProblemT.
Implicit Types (opNames : gmap Operation string) (op src : Operation) (dep : Dependence).

(** The caller names the source of every auxiliary dependence. *)
Hypothesis sources_provided : forall op src dst,
  op ∈ getOperations prob -> AuxDep src dst ∈ getDependences prob op ->
  is_Some (operationNameFn src).

Lemma foldl_assignSourceName_provided opNames (deps : list Dependence) :
  (forall src dst, AuxDep src dst ∈ deps -> is_Some (operationNameFn src)) ->
  (forall op name, opNames !! op = Some name -> operationNameFn op = Some name) ->
  forall op name,
    foldl (assignSourceName operationNameFn) opNames deps !! op = Some name ->
    operationNameFn op = Some name.
Proof.
  revert opNames. induction deps as [|dep deps IH]; intros m Hsrc Hm; simpl; [done|].
  apply IH.
  - intros src dst Hin. apply (Hsrc src dst). by right.
  - destruct dep as [owner n|src dst]; simpl; [done|].
    case_bool_decide; [done|].
    destruct (Hsrc src dst) as [name Hname]; [by left|]. rewrite Hname.
    intros op name'. rewrite lookup_insert. case_decide; [|by apply Hm].
    intros [= <-]. by subst.
Qed.

Lemma foldl_assignNames_provided (ops : list Operation) opNames :
  ops ⊆ getOperations prob ->
  (forall op name, opNames !! op = Some name -> operationNameFn op = Some name) ->
  forall op name,
    foldl (assignNames operationNameFn prob) opNames ops !! op = Some name ->
    operationNameFn op = Some name.
Proof.
  revert opNames. induction ops as [|op0 ops IH]; intros m Hsub Hm; simpl; [done|].
  apply IH; [intros ? ?; apply Hsub; by right|].
  unfold assignNames. apply foldl_assignSourceName_provided.
  - intros src dst. apply sources_provided, Hsub. by left.
  - destruct (operationNameFn op0) as [name0|] eqn:Hfn; [|done].
    intros op' name'. rewrite lookup_insert. case_decide; [|by apply Hm].
    intros [= <-]. by subst.
Qed.

Lemma nameTable_provided op name :
  nameTable operationNameFn prob !! op = Some name -> operationNameFn op = Some name.
Proof.
  apply foldl_assignNames_provided; [done|].
  intros ? ?. by rewrite lookup_empty.
Qed.

Lemma foldl_assignNames_mono (ops : list Operation) opNames op :
  is_Some (opNames !! op) ->
  is_Some (foldl (assignNames operationNameFn prob) opNames ops !! op).
Proof.
  revert opNames. induction ops as [|op' ops IH]; intros m Hm; simpl; [done|].
  by apply IH, assignNames_mono.
Qed.

Lemma foldl_assignNames_names (ops : list Operation) opNames op :
  op ∈ ops -> is_Some (operationNameFn op) ->
  is_Some (foldl (assignNames operationNameFn prob) opNames ops !! op).
Proof.
  intros Hin [name Hname]. revert opNames.
  induction ops as [|op0 ops IH]; intros m; simpl.
  { by apply elem_of_nil in Hin. }
  apply elem_of_cons in Hin as [Heq|Hin]; [|by apply IH].
  subst op0. apply foldl_assignNames_mono.
  unfold assignNames. apply foldl_assignSourceName_mono. rewrite Hname.
  rewrite lookup_insert_eq. eauto.
Qed.

Lemma nameTable_names_operation op :
  op ∈ getOperations prob -> is_Some (operationNameFn op) ->
  is_Some (nameTable operationNameFn prob !! op).
Proof. apply foldl_assignNames_names. Qed.

(** The name table is the caller's name function, on the operations. *)
Lemma nameTable_operations op :
  op ∈ getOperations prob -> nameTable operationNameFn prob !! op = operationNameFn op.
Proof.
  intros Hin. destruct (operationNameFn op) as [name|] eqn:Hfn.
  - destruct (nameTable_names_operation op Hin) as [name' Hname']; [by rewrite Hfn|].
    rewrite Hname'. apply nameTable_provided in Hname'. congruence.
  - destruct (nameTable operationNameFn prob !! op) as [name|] eqn:Hl; [|done].
    apply nameTable_provided in Hl. congruence.
Qed.

End ProvidedNames.

Lemma NoDup_omap_lookup {A B : Type} (f : A -> option B) (l : list A)
    (i j : nat) (x y : A) (b : B) :
  NoDup (omap f l) -> l !! i = Some x -> l !! j = Some y ->
  f x = Some b -> f y = Some b -> i = j.
Proof.
  revert i j. induction l as [|z l IH]; intros i j Hnd Hi Hj Hx Hy; [done|].
  assert (forall k w, l !! k = Some w -> f w = Some b -> b ∈ omap f l) as Hin.
  { intros k w Hk Hw. apply list_elem_of_omap. exists w. split; [|done].
    by eapply list_elem_of_lookup_2. }
  cbn [omap list_omap] in Hnd.
  destruct i as [|i], j as [|j]; simpl in Hi, Hj; simplify_eq; [done| | |].
  - rewrite Hx in Hnd. apply NoDup_cons in Hnd as [Hnot _]. destruct Hnot. eauto.
  - rewrite Hy in Hnd. apply NoDup_cons in Hnd as [Hnot _]. destruct Hnot. eauto.
  - f_equal. apply IH; try done. destruct (f z); [by apply NoDup_cons in Hnd as [_ ?]|done].
Qed.

Section Loaded.

Context {Attribute : Type}.
Variables opDescs oprDescs depDescs instDescs : list (KindDesc Attribute).
Variable instOp : InstanceOp Attribute.
Variable prob : Problem Attribute.
Variable operationNameFn : Operation -> option string.
Hypothesis instOp_valid : validInstance instOp.
Hypothesis prob_loaded : loadedFrom opDescs oprDescs depDescs instDescs instOp prob.
Hypothesis names_reproduced : reproducesNames instOp operationNameFn.

Implicit Types (op src dst : Operation) (dep : Dependence).

Lemma loaded_operation_decl op :
  op ∈ operations prob <-> exists opOp, getBody instOp !! op = Some (OperationDecl opOp).
Proof.
  rewrite (loaded_operations _ _ _ _ _ _ prob_loaded), list_elem_of_fmap. split.
  - intros ([h opOp] & -> & Hin). apply elem_of_operationOps in Hin. eauto.
  - intros [opOp Hl]. exists (op, opOp). split; [done|]. by apply elem_of_operationOps.
Qed.

Lemma loaded_operations_distinct : NoDup (operations prob).
Proof.
  rewrite (loaded_operations _ _ _ _ _ _ prob_loaded). apply NoDup_operationOps.
Qed.

Lemma loaded_operator_types_distinct : NoDup (operatorTypes prob).
Proof.
  rewrite (loaded_operatorTypes _ _ _ _ _ _ prob_loaded).
  apply NoDup_loadedOperatorTypes.
Qed.

Lemma lookupSymbolIn_Some (sourceRef : string) op :
  lookupSymbolIn instOp sourceRef = Some op ->
  exists decl, getBody instOp !! op = Some decl /\ getSymbolName decl = Some sourceRef.
Proof.
  unfold lookupSymbolIn.
  destruct (list_find _ (getBody instOp)) as [[i decl]|] eqn:Hfind; [|done].
  simpl. intros [= <-]. apply list_find_Some in Hfind as (Hi & Hname & _). eauto.
Qed.

Lemma loaded_aux_source_named src dst :
  (src, dst) ∈ auxDependences prob -> is_Some (operationNameFn src).
Proof.
  intros Hin.
  destruct (loaded_aux_endpoints _ _ _ _ _ _ prob_loaded _ _ Hin)
    as (Hsrc & _ & sourceRef & Hl).
  apply loaded_operation_decl in Hsrc as [opOp HopOp].
  apply lookupSymbolIn_Some in Hl as (decl & Hdecl & Hname).
  rewrite HopOp in Hdecl. injection Hdecl as <-. simpl in Hname.
  rewrite (names_reproduced _ _ HopOp), Hname. eauto.
Qed.

Lemma elem_of_Problem_getDependences dep op :
  dep ∈ getDependences prob op <->
  (exists i v, dep = DefUseDep op i /\ bodyOperands (containingOp prob) op !! i = Some v /\
               getDefiningOp v ∈ operations prob) \/
  (exists src, dep = AuxDep src op /\ (src, op) ∈ auxDependences prob).
Proof.
  simpl. unfold Problem_getDependences. rewrite elem_of_app, !list_elem_of_omap.
  split.
  - intros [([i v] & Hin & Heq)|([src dst] & Hin & Heq)].
    + left. apply elem_of_lookup_imap in Hin as (j & w & [= -> ->] & Hl).
      case_bool_decide; simplify_eq. eauto.
    + right. case_bool_decide; simplify_eq. eauto.
  - intros [(i & v & -> & Hl & Hreg)|(src & -> & Hin)].
    + left. exists (i, v). split; [apply elem_of_lookup_imap; eauto|].
      by rewrite bool_decide_eq_true_2.
    + right. exists (src, op). split; [done|]. by rewrite bool_decide_eq_true_2.
Qed.

Lemma loaded_sources_provided op src dst :
  op ∈ getOperations prob -> AuxDep src dst ∈ getDependences prob op ->
  is_Some (operationNameFn src).
Proof.
  intros _ [(i & v & [=] & _)|(src' & [= -> ->] & Hin)]%elem_of_Problem_getDependences.
  by eapply loaded_aux_source_named.
Qed.

Lemma loaded_nameTable op :
  op ∈ operations prob ->
  nameTable operationNameFn prob !! op = operationNameFn op.
Proof. exact (nameTable_operations operationNameFn prob loaded_sources_provided op). Qed.

Lemma loaded_names_injective op op' (name : string) :
  op ∈ operations prob -> op' ∈ operations prob ->
  operationNameFn op = Some name -> operationNameFn op' = Some name -> op = op'.
Proof.
  intros [opOp Hl]%loaded_operation_decl [opOp' Hl']%loaded_operation_decl Hn Hn'.
  eapply (NoDup_omap_lookup getSymbolName); [apply instOp_valid|exact Hl|exact Hl'| |].
  - simpl. by rewrite <- (names_reproduced _ _ Hl).
  - simpl. by rewrite <- (names_reproduced _ _ Hl').
Qed.

Lemma elem_of_loadedOperatorTypes (opr : OperatorType) :
  opr ∈ loadedOperatorTypes instOp ->
  exists i oprOp, getBody instOp !! i = Some (OperatorTypeDecl oprOp) /\
                  getNameAttr oprOp = opr.
Proof.
  unfold loadedOperatorTypes.
  assert (forall oprOp, oprOp ∈ operatorTypeOps instOp ->
            exists i, getBody instOp !! i = Some (OperatorTypeDecl oprOp)) as Hops.
  { intros oprOp (decl & Hin & Heq)%list_elem_of_omap.
    destruct decl; simplify_eq. by apply list_elem_of_lookup in Hin. }
  revert Hops. generalize (operatorTypeOps instOp). intros l Hl.
  assert (opr ∈ foldl (fun oprs oprOp => setInsert (getNameAttr oprOp) oprs) [] l ->
          opr ∈ @nil OperatorType \/ exists oprOp, oprOp ∈ l /\ getNameAttr oprOp = opr) as H.
  { generalize (@nil OperatorType). clear Hl.
    induction l as [|o l IH]; intros acc; simpl; [by left|].
    intros [[->|Hacc]%elem_of_setInsert|(oprOp & Hin & Heq)]%IH.
    - right. exists o. split; [by left|done].
    - by left.
    - right. exists oprOp. split; [by right|done]. }
  intros [Hnil|(oprOp & Hin & Heq)]%H; [by apply elem_of_nil in Hnil|].
  destruct (Hl _ Hin) as [i Hi]. eauto.
Qed.

Lemma loaded_names_not_operator_types op (name : string) :
  op ∈ operations prob -> operationNameFn op = Some name ->
  name ∉ operatorTypes prob.
Proof.
  intros [opOp Hl]%loaded_operation_decl Hn.
  rewrite (loaded_operatorTypes _ _ _ _ _ _ prob_loaded).
  intros (i & oprOp & Hi & Heq)%elem_of_loadedOperatorTypes.
  assert (op = i) as Hop.
  2:{ subst i. pose proof (eq_trans (eq_sym Hl) Hi) as Habs. discriminate. }
  eapply (NoDup_omap_lookup getSymbolName); [apply instOp_valid|exact Hl|exact Hi| |].
  - simpl. by rewrite <- (names_reproduced _ _ Hl).
  - simpl. by rewrite Heq.
Qed.

Lemma loaded_operands_registered op v :
  op ∈ operations prob -> v ∈ operandsOf prob op ->
  getDefiningOp v ∈ operations prob.
Proof.
  intros [opOp Hl]%loaded_operation_decl. unfold operandsOf. simpl.
  rewrite (loaded_containingOp _ _ _ _ _ _ prob_loaded), Hl. intros Hv.
  pose proof (valid_operands _ instOp_valid _ _ _ Hl Hv) as Hisa.
  unfold isaOperationOp in Hisa. apply loaded_operation_decl.
  destruct (getBody instOp !! getDefiningOp v) as [[|o]|]; try done. eauto.
Qed.

End Loaded.

Section SavedFacts.

Context {Attribute ProblemT : Type} {model : ProblemModel Attribute ProblemT}.
Implicit Types (prob : ProblemT) (deps : list Dependence)
  (opKinds : list (PropertyKind Attribute ProblemT Operation))
  (depKinds : list (PropertyKind Attribute ProblemT Dependence))
  (opNames : gmap Operation string) (op : Operation).

Lemma newHandle_lookup prob (j : nat) op :
  NoDup (getOperations prob) -> getOperations prob !! j = Some op ->
  newHandle prob op = (length (getOperatorTypes prob) + j)%nat.
Proof.
  intros Hnd Hj. unfold newHandle.
  destruct (list_find _ (getOperations prob)) as [[i op']|] eqn:Hfind.
  - apply list_find_Some in Hfind as (Hi & -> & _).
    by rewrite (NoDup_lookup _ _ _ _ Hnd Hi Hj).
  - apply list_find_None in Hfind. rewrite Forall_forall in Hfind.
    destruct (Hfind op); [by eapply list_elem_of_lookup_2|done].
Qed.

Lemma newHandle_inj prob op op' :
  NoDup (getOperations prob) ->
  op ∈ getOperations prob -> op' ∈ getOperations prob ->
  newHandle prob op = newHandle prob op' -> op = op'.
Proof.
  intros Hnd [j Hj]%list_elem_of_lookup [j' Hj']%list_elem_of_lookup.
  rewrite (newHandle_lookup _ _ _ Hnd Hj), (newHandle_lookup _ _ _ Hnd Hj').
  intros Heq. assert (j = j') as -> by lia. congruence.
Qed.

Lemma imap_newHandle {B : Type} prob (f : Operation -> B) :
  NoDup (getOperations prob) ->
  imap (fun j op => ((length (getOperatorTypes prob) + j)%nat, f op)) (getOperations prob)
  = (fun op => (newHandle prob op, f op)) <$> getOperations prob.
Proof.
  intros Hnd. apply list_eq. intros j.
  rewrite list_lookup_imap, list_lookup_fmap.
  destruct (getOperations prob !! j) as [op|] eqn:Hj; simpl; [|done].
  by rewrite (newHandle_lookup _ _ _ Hnd Hj).
Qed.

Lemma mappedValues_newHandle prob (vs : list Value) :
  Forall (fun v => getDefiningOp v ∈ getOperations prob) vs ->
  mappedValues prob vs = mapValue (newHandle prob) <$> vs.
Proof.
  unfold mappedValues. induction 1 as [|v vs Hv _ IH]; [done|].
  rewrite !fmap_cons, IH. f_equal. unfold mappedValue, mapValue, newHandle.
  destruct (list_find _ (getOperations prob)) as [[i op']|] eqn:Hfind; [done|].
  apply list_find_None in Hfind. rewrite Forall_forall in Hfind.
  by destruct (Hfind _ Hv).
Qed.

Lemma foldlE_emitDependence_emitted depKinds prob opNames deps
    (depAttrs : list (DependenceAttr Attribute)) (idx : Z) :
  sourcesNamed opNames deps ->
  exists idx',
    foldlE (emitDependence depKinds prob opNames) (depAttrs, idx) deps
    = inr (depAttrs ++ emittedRecords depKinds prob opNames idx deps, idx').
Proof.
  revert depAttrs idx. induction deps as [|dep deps IH]; intros depAttrs idx Hn.
  { exists idx. simpl. by rewrite app_nil_r. }
  pose proof (sourcesNamed_cons _ _ _ Hn) as Hn'.
  destruct dep as [owner operandNumber|src dst]; cbn [foldlE emitDependence emittedRecords].
  - unfold dataRecordOf.
    destruct (saveDependenceProperties depKinds prob (DefUseDep owner operandNumber))
      as [props|]; simpl.
    + destruct (IH (depAttrs ++ [mkDependenceAttr (Z.of_nat operandNumber mod UINT_RANGE)
                                                   None (Some props)]) idx Hn')
        as [idx' ->].
      exists idx'. by rewrite <- app_assoc.
    + by apply IH.
  - destruct (Hn src dst) as [name Hname]; [by left|]. rewrite Hname.
    destruct (IH (depAttrs ++ [mkDependenceAttr idx (Some name)
                   (saveDependenceProperties depKinds prob (AuxDep src dst))])
                 (uint_incr idx) Hn') as [idx' ->].
    exists idx'. by rewrite <- app_assoc.
Qed.

Lemma emitOperation_emitted opKinds depKinds prob opNames op :
  sourcesNamed opNames (getDependences prob op) ->
  Forall (fun v => getDefiningOp v ∈ getOperations prob) (operandsOf prob op) ->
  emitOperation opKinds depKinds prob opNames op
  = inr (emittedOperation opKinds depKinds prob opNames op).
Proof.
  intros Hn Hv. unfold emitOperation, emitDependences.
  destruct (foldlE_emitDependence_emitted depKinds prob opNames (getDependences prob op)
              [] (Z.of_nat (length (operandsOf prob op)) mod UINT_RANGE) Hn)
    as [idx' ->].
  simpl. by rewrite mappedValues_newHandle.
Qed.

Lemma emitOperations_emitted opKinds depKinds prob opNames (ops : list Operation) :
  (forall op, op ∈ ops ->
     sourcesNamed opNames (getDependences prob op) /\
     Forall (fun v => getDefiningOp v ∈ getOperations prob) (operandsOf prob op)) ->
  emitOperations opKinds depKinds prob opNames ops
  = inr (emittedOperation opKinds depKinds prob opNames <$> ops).
Proof.
  induction ops as [|op ops IH]; intros Hops; simpl; [done|].
  destruct (Hops op) as [Hn Hv]; [by left|].
  rewrite emitOperation_emitted, IH; [done| |done..].
  intros op' Hin. apply Hops. by right.
Qed.

Lemma saveProblem_saved prob (instanceName problemName : string)
    (operationNameFn : Operation -> option string) opKinds oprKinds depKinds instKinds :
  (forall op v, op ∈ getOperations prob -> v ∈ operandsOf prob op ->
                getDefiningOp v ∈ getOperations prob) ->
  saveProblem prob instanceName problemName operationNameFn
              opKinds oprKinds depKinds instKinds
  = inr (savedInstance prob instanceName problemName operationNameFn
                       opKinds oprKinds depKinds instKinds).
Proof.
  intros Hv. unfold saveProblem. rewrite emitOperations_emitted; [done|].
  intros op Hop. split.
  - intros src dst Hin. by eapply nameTable_names_sources.
  - apply Forall_forall. intros v. by apply Hv.
Qed.

End SavedFacts.

Section InsertAll.

Context {K V : Type} `{Countable K}.
Implicit Types (kvs : list (K * V)) (m : gmap K V).

Lemma insertAll_app kvs kvs' m :
  insertAll (kvs ++ kvs') m = insertAll kvs' (insertAll kvs m).
Proof. apply foldl_app. Qed.

Lemma foldl_insertAll_bind {X : Type} (f : X -> list (K * V)) (l : list X) m :
  foldl (fun m x => insertAll (f x) m) m l = insertAll (l ≫= f) m.
Proof.
  revert m. induction l as [|x l IH]; intros m; [done|].
  cbn [foldl mbind list_bind]. by rewrite IH, insertAll_app.
Qed.

Lemma lookup_insertAll_inv kvs m (k : K) (v : V) :
  insertAll kvs m !! k = Some v -> (k, v) ∈ kvs \/ m !! k = Some v.
Proof.
  revert m. induction kvs as [|[k1 v1] kvs IH]; intros m; simpl; [by right|].
  intros [Hin|Hm]%IH; [left; by right|].
  revert Hm. rewrite lookup_insert. case_decide; [|by right].
  intros [= <-]. subst. left. by left.
Qed.

Lemma lookup_insertAll_functional kvs m (k : K) (v : V) :
  (forall v', (k, v') ∈ kvs -> v' = v) ->
  (k, v) ∈ kvs \/ m !! k = Some v ->
  insertAll kvs m !! k = Some v.
Proof.
  revert m. induction kvs as [|[k1 v1] kvs IH]; intros m Hfun Hin; simpl.
  { destruct Hin as [Hin|Hm]; [by apply elem_of_nil in Hin|done]. }
  apply IH; [intros v' Hv'; apply Hfun; by right|].
  destruct Hin as [[[= <- <-]|Hin]%elem_of_cons|Hm].
  - right. apply lookup_insert_eq.
  - by left.
  - right. rewrite lookup_insert. case_decide; [|done].
    subst k1. f_equal. apply Hfun. by left.
Qed.

End InsertAll.

Section SlotFacts.

Context {Attribute : Type}.
Implicit Types (descs : list (KindDesc Attribute))
  (store : gmap (AttachmentPoint * string) Attribute) (source target : AttachmentPoint).

Lemma elem_of_slotValues descs store source target
    (key : AttachmentPoint * string) (prop : Attribute) :
  (key, prop) ∈ slotValues descs store source target <->
  exists desc, desc ∈ descs /\ key = (target, desc.1) /\
               store !! (source, desc.1) = Some prop.
Proof.
  unfold slotValues. rewrite list_elem_of_omap. split.
  - intros (desc & Hin & Heq). exists desc. split; [done|].
    destruct (store !! (source, desc.1)); simpl in Heq; simplify_eq. done.
  - intros (desc & Hin & -> & Hl). exists desc. split; [done|]. by rewrite Hl.
Qed.

Lemma loadStore_saved {Target : Type} (pt : Target -> AttachmentPoint) descs
    (prob : Problem Attribute) (x : Target) target store :
  unambiguous descs ->
  slotsTyped descs (pt x) (properties prob) ->
  loadStore descs target (saveProperties (kindsAt pt descs) prob x) store
  = insertAll (slotValues descs (properties prob) (pt x) target) store.
Proof.
  intros Hun Htyped. unfold loadStore. rewrite saveProperties_kindsAt.
  by apply foldl_dispatch_slotValues.
Qed.

Lemma loadProperties_saved {Target : Type} (pt : Target -> AttachmentPoint) descs
    (prob prob' : Problem Attribute) (x x' : Target) :
  unambiguous descs ->
  slotsTyped descs (pt x) (properties prob) ->
  loadProperties (kindsAt pt descs) prob' x' (saveProperties (kindsAt pt descs) prob x)
  = withProperties prob'
      (insertAll (slotValues descs (properties prob) (pt x) (pt x')) (properties prob')).
Proof. apply load_saved_properties. Qed.

End SlotFacts.

Lemma NoDup_omap_strong {A B : Type} (f : A -> option B) (l : list A) :
  (forall x1 x2 y, x1 ∈ l -> x2 ∈ l -> f x1 = Some y -> f x2 = Some y -> x1 = x2) ->
  NoDup l -> NoDup (omap f l).
Proof.
  intros Hinj. induction 1 as [|x l Hx Hl IH]; [constructor|].
  cbn [omap list_omap].
  assert (NoDup (omap f l)) as IH'.
  { apply IH. intros x1 x2 y H1 H2. apply Hinj; by right. }
  destruct (f x) as [y|] eqn:Hfx; [|done].
  constructor; [|done]. intros (x' & Hin & Hfx')%list_elem_of_omap.
  assert (x = x') as <-; [|done].
  apply (Hinj x x' y); [by left|by right|done..].
Qed.

Lemma omap_bind {A B C : Type} (f : B -> option C) (g : A -> list B) (l : list A) :
  omap f (l ≫= g) = l ≫= (fun x => omap f (g x)).
Proof.
  induction l as [|x l IH]; [done|]. cbn [mbind list_bind].
  by rewrite omap_app, IH.
Qed.

Lemma bind_single {A B : Type} (f : A -> list B) (l : list A) (x : A) :
  NoDup l -> x ∈ l -> (forall y, y ∈ l -> y ≠ x -> f y = []) -> l ≫= f = f x.
Proof.
  induction 1 as [|y l Hy Hl IH]; intros Hin Hnil.
  { by apply elem_of_nil in Hin. }
  cbn [mbind list_bind]. apply elem_of_cons in Hin as [->|Hin].
  - assert (l ≫= f = []) as ->; [|by rewrite app_nil_r].
    clear IH. induction l as [|z l IH]; [done|]. cbn [mbind list_bind].
    apply NoDup_cons in Hl as [Hz Hl]. rewrite IH; try done.
    + rewrite Hnil; [done|by right; left|]. intros ->. apply Hy. by left.
    + intros Hyl. apply Hy. by right.
    + intros w Hw. apply Hnil. apply elem_of_cons in Hw as [->|Hw]; [by left|].
      right. by right.
  - rewrite Hnil; [|by left|by intros ->]. simpl. apply IH; [done|].
    intros z Hz. apply Hnil. by right.
Qed.

Lemma omap_imap_all_from {A B : Type} (P : A -> Prop) `{forall x, Decision (P x)}
    (f : nat -> B) (l : list A) (k : nat) :
  Forall P l ->
  omap (fun '(i, x) => if bool_decide (P x) then Some (f i) else None)
       (imap (fun i x => ((k + i)%nat, x)) l)
  = imap (fun i _ => f (k + i)%nat) l.
Proof.
  revert k. induction l as [|x l IH]; intros k Hl; [done|].
  apply Forall_cons in Hl as [Hx Hl].
  rewrite !imap_cons. cbn [omap list_omap]. rewrite bool_decide_eq_true_2 by done.
  f_equal.
  rewrite (imap_ext ((fun i x0 => ((k + i)%nat, x0)) ∘ S)
                    (fun i x0 => ((S k + i)%nat, x0)))
    by (intros; simpl; f_equal; lia).
  rewrite (IH (S k) Hl). apply imap_ext. intros j y _. simpl. f_equal. lia.
Qed.

Lemma omap_imap_all {A B : Type} (P : A -> Prop) `{forall x, Decision (P x)}
    (f : nat -> B) (l : list A) :
  Forall P l ->
  omap (fun '(i, x) => if bool_decide (P x) then Some (f i) else None) (imap pair l)
  = imap (fun i _ => f i) l.
Proof. exact (omap_imap_all_from P f l 0). Qed.

Section Reload.

Context {Attribute : Type}.
Variables opDescs oprDescs depDescs instDescs : list (KindDesc Attribute).
Variable instOp : InstanceOp Attribute.
Variable prob : Problem Attribute.
Variable operationNameFn : Operation -> option string.
Variables instanceName problemName : string.
Hypothesis opDescs_unambiguous : unambiguous opDescs.
Hypothesis oprDescs_unambiguous : unambiguous oprDescs.
Hypothesis depDescs_unambiguous : unambiguous depDescs.
Hypothesis instDescs_unambiguous : unambiguous instDescs.
Hypothesis instOp_valid : validInstance instOp.
Hypothesis prob_loaded : loadedFrom opDescs oprDescs depDescs instDescs instOp prob.
Hypothesis names_reproduced : reproducesNames instOp operationNameFn.

Local Notation "'opKinds'" := (kindsAt AtOperation opDescs).
Local Notation "'oprKinds'" := (kindsAt AtOperatorType oprDescs).
Local Notation "'depKinds'" := (kindsAt AtDependence depDescs).
Local Notation "'instKinds'" := (kindsAt (fun _ : unit => AtInstance) instDescs).
Local Notation "'opNames'" := (nameTable operationNameFn prob).
Local Notation "'newOp'" := (newHandle prob).
Local Notation "'emitted'" := (emittedOperation opKinds depKinds prob opNames).
Local Notation "'instOp''" :=
  (savedInstance prob instanceName problemName operationNameFn
                 opKinds oprKinds depKinds instKinds).

Implicit Types (op src dst : Operation) (dep : Dependence).

Lemma ops_distinct : NoDup (operations prob).
Proof. by eapply loaded_operations_distinct. Qed.

Lemma oprs_distinct : NoDup (operatorTypes prob).
Proof. by eapply loaded_operator_types_distinct. Qed.

Lemma store_typed point :
  slotsTyped (descsFor opDescs oprDescs depDescs instDescs point) point (properties prob).
Proof. apply (loaded_store_typed _ _ _ _ _ _ prob_loaded). Qed.

Lemma names_of_operations op :
  op ∈ operations prob -> opNames !! op = operationNameFn op.
Proof. exact (loaded_nameTable _ _ _ _ _ _ _ prob_loaded names_reproduced op). Qed.

Lemma names_injective op op' (name : string) :
  op ∈ operations prob -> op' ∈ operations prob ->
  operationNameFn op = Some name -> operationNameFn op' = Some name -> op = op'.
Proof.
  exact (loaded_names_injective _ _ _ _ _ _ _ instOp_valid prob_loaded names_reproduced
           op op' name).
Qed.

Lemma names_not_operator_types op (name : string) :
  op ∈ operations prob -> operationNameFn op = Some name -> name ∉ operatorTypes prob.
Proof.
  exact (loaded_names_not_operator_types _ _ _ _ _ _ _ instOp_valid prob_loaded
           names_reproduced op name).
Qed.

Lemma operands_registered op v :
  op ∈ operations prob -> v ∈ operandsOf prob op -> getDefiningOp v ∈ operations prob.
Proof.
  exact (loaded_operands_registered _ _ _ _ _ _ instOp_valid prob_loaded op v).
Qed.

Lemma aux_source_named src dst :
  (src, dst) ∈ auxDependences prob ->
  src ∈ operations prob /\ dst ∈ operations prob /\ is_Some (operationNameFn src).
Proof.
  intros Hin.
  destruct (loaded_aux_endpoints _ _ _ _ _ _ prob_loaded _ _ Hin) as (? & ? & _).
  split_and!; [done..|].
  exact (loaded_aux_source_named _ _ _ _ _ _ _ prob_loaded names_reproduced _ _ Hin).
Qed.

Lemma saved_operatorTypeOps :
  operatorTypeOps instOp' = emitOperatorType oprKinds prob <$> operatorTypes prob.
Proof. apply operatorTypeOps_app. Qed.

Lemma saved_operationOps :
  operationOps instOp' = (fun op => (newOp op, emitted op)) <$> operations prob.
Proof.
  rewrite operationOps_operationsFrom. unfold savedInstance. simpl getBody.
  rewrite operationsFrom_app, operationsFrom_operator_types, operationsFrom_operations.
  simpl. rewrite !length_fmap.
  rewrite <- (imap_newHandle (model := Problem_model) prob emitted ops_distinct).
  by rewrite imap_fmap.
Qed.

Lemma saved_body_operation op :
  op ∈ operations prob ->
  getBody instOp' !! newOp op = Some (OperationDecl (emitted op)).
Proof.
  intros Hin. apply elem_of_operationOps. rewrite saved_operationOps.
  apply list_elem_of_fmap. eauto.
Qed.

Lemma saved_lookupSymbolIn src (name : string) :
  src ∈ operations prob -> operationNameFn src = Some name ->
  lookupSymbolIn instOp' name = Some (newOp src).
Proof.
  intros Hin Hname. unfold lookupSymbolIn.
  apply list_elem_of_lookup in Hin as [j Hj].
  pose proof (newHandle_lookup (model := Problem_model) prob j src ops_distinct Hj) as Hnew.
  simpl in Hnew.
  assert (list_find (fun decl : BodyOp Attribute => getSymbolName decl = Some name)
                    (getBody instOp')
          = Some (newOp src, OperationDecl (emitted src))) as ->; [|done].
  assert (src ∈ operations prob) as Hin by (by eapply list_elem_of_lookup_2).
  apply list_find_Some. split_and!.
  - by apply saved_body_operation.
  - simpl. by rewrite names_of_operations.
  - intros i decl Hi Hlt Hdecl. unfold savedInstance in Hi. simpl getBody in Hi.
    apply lookup_app_Some in Hi as [Hi|[Hge Hi]].
    + rewrite <- list_fmap_compose, list_lookup_fmap in Hi.
      destruct (operatorTypes prob !! i) as [opr|] eqn:Hopr; [|done].
      simpl in Hi. injection Hi as <-. simpl in Hdecl. injection Hdecl as ->.
      apply (names_not_operator_types src name Hin Hname).
      by eapply list_elem_of_lookup_2.
    + rewrite !length_fmap in Hi, Hge. rewrite <- list_fmap_compose, list_lookup_fmap in Hi.
      destruct (operations prob !! (i - length (operatorTypes prob))%nat)
        as [op|] eqn:Hop; [|done].
      simpl in Hi. injection Hi as <-. simpl in Hdecl.
      assert (op ∈ operations prob) as Hin' by (by eapply list_elem_of_lookup_2).
      rewrite names_of_operations in Hdecl by done.
      assert (op = src) as -> by (by eapply names_injective).
      pose proof (NoDup_lookup _ _ _ _ ops_distinct Hop Hj). lia.
Qed.

Lemma saved_loadedOperatorTypes : loadedOperatorTypes instOp' = operatorTypes prob.
Proof.
  unfold loadedOperatorTypes. rewrite saved_operatorTypeOps.
  rewrite (foldl_fmap _ _ _ (emitOperatorType oprKinds prob)). simpl.
  rewrite (foldl_setInsert_NoDup id); rewrite list_fmap_id; [done|].
  apply oprs_distinct.
Qed.

Lemma foldl_fmap_insertAll {X Y : Type} (f : X -> Y)
    (g : gmap (AttachmentPoint * string) Attribute -> Y ->
         gmap (AttachmentPoint * string) Attribute)
    (h : X -> list ((AttachmentPoint * string) * Attribute)) (l : list X) store :
  (forall x store, g store (f x) = insertAll (h x) store) ->
  foldl g store (f <$> l) = insertAll (l ≫= h) store.
Proof.
  intros Hg. rewrite foldl_fmap, <- foldl_insertAll_bind. revert store.
  induction l as [|x l IH]; intros store; simpl; [done|]. by rewrite Hg, IH.
Qed.

Lemma saved_loadedNodeStore :
  loadedNodeStore opDescs oprDescs instDescs instOp'
  = insertAll
      (slotValues instDescs (properties prob) AtInstance AtInstance
       ++ (operatorTypes prob ≫= fun opr =>
             slotValues oprDescs (properties prob) (AtOperatorType opr)
                        (AtOperatorType opr))
       ++ (operations prob ≫= fun op =>
             slotValues opDescs (properties prob) (AtOperation op)
                        (AtOperation (newOp op))))
      ∅.
Proof.
  unfold loadedNodeStore. rewrite saved_operationOps, saved_operatorTypeOps.
  rewrite !insertAll_app.
  rewrite (foldl_fmap_insertAll (fun op => (newOp op, emitted op)) _
             (fun op => slotValues opDescs (properties prob) (AtOperation op)
                                   (AtOperation (newOp op)))).
  2:{ intros op store. simpl. apply (loadStore_saved AtOperation); [done|].
      apply (store_typed (AtOperation op)). }
  rewrite (foldl_fmap_insertAll (emitOperatorType oprKinds prob) _
             (fun opr => slotValues oprDescs (properties prob) (AtOperatorType opr)
                                    (AtOperatorType opr))).
  2:{ intros opr store. simpl. apply (loadStore_saved AtOperatorType); [done|].
      apply (store_typed (AtOperatorType opr)). }
  do 2 f_equal. simpl.
  apply (loadStore_saved (fun _ : unit => AtInstance)); [done|].
  apply (store_typed AtInstance).
Qed.

(** The third walk over the saved instance. *)

Lemma saved_data_record op (i : nat) (v : Value) (prob' : Problem Attribute) :
  op ∈ operations prob ->
  operandsOf prob op !! i = Some v ->
  foldlE (loadDependence depKinds instOp' (newOp op) (emitted op)) prob'
         (option_list (dataRecordOf depKinds prob (DefUseDep op i)))
  = inr (withProperties prob'
           (insertAll (movedDependenceSlot depDescs prob (DefUseDep op i))
                      (properties prob'))).
Proof.
  intros Hop Hi. unfold movedDependenceSlot. cbn [mapDependence].
  rewrite <- (loadProperties_saved AtDependence depDescs prob prob'
                (DefUseDep op i) (DefUseDep (newOp op) i));
    [|done|apply (store_typed (AtDependence _))].
  unfold dataRecordOf, saveDependenceProperties.
  destruct (saveProperties depKinds prob (DefUseDep op i)) as [props|] eqn:Hsave.
  2:{ simpl. by rewrite loadProperties_None. }
  simpl. unfold loadDependence. simpl.
  assert (Z.of_nat i < Z.of_nat (length (operandsOf prob op)) < UINT_RANGE) as Hlt.
  { apply lookup_lt_Some in Hi. split; [lia|].
    apply (loaded_operation_decl _ _ _ _ _ _ prob_loaded) in Hop as [opOp HopOp].
    pose proof (valid_operand_count _ instOp_valid _ _ HopOp) as Hcount.
    unfold operandsOf. simpl. rewrite (loaded_containingOp _ _ _ _ _ _ prob_loaded).
    by rewrite HopOp. }
  rewrite Z.mod_small by lia. unfold getOpOperand. simpl.
  rewrite length_fmap, bool_decide_eq_true_2 by lia.
  by rewrite Nat2Z.id.
Qed.

Lemma saved_emitted_records op (deps : list Dependence)
    (acc : list (Operation * Operation)) store (idx : Z) :
  op ∈ operations prob ->
  deps ⊆ getDependences prob op ->
  NoDup (acc ++ movedAuxOf prob deps) ->
  foldlE (loadDependence depKinds instOp' (newOp op) (emitted op))
         (mkProblem instOp' (operatorTypes prob) (newOp <$> operations prob) acc store)
         (emittedRecords depKinds prob opNames idx deps)
  = inr (mkProblem instOp' (operatorTypes prob) (newOp <$> operations prob)
                   (acc ++ movedAuxOf prob deps)
                   (insertAll (deps ≫= movedDependenceSlot depDescs prob) store)).
Proof.
  intros Hop. revert acc store idx.
  induction deps as [|dep deps IH]; intros acc store idx Hsub Hnd.
  { simpl. by rewrite app_nil_r. }
  assert (deps ⊆ getDependences prob op) as Hsub'
    by (intros d Hd; apply Hsub; by right).
  assert (dep ∈ getDependences prob op) as Hdep by (apply Hsub; by left).
  apply elem_of_Problem_getDependences in Hdep
    as [(i & v & -> & Hi & Hreg)|(src & -> & Hin)].
  - cbn [emittedRecords movedAuxOf omap list_omap mbind list_bind] in *.
    rewrite foldlE_app, (saved_data_record op i v) by done.
    unfold withProperties. simpl. rewrite IH by done.
    by rewrite insertAll_app.
  - destruct (aux_source_named _ _ Hin) as (Hsrc & _ & name & Hname).
    cbn [emittedRecords movedAuxOf omap list_omap mbind list_bind foldlE] in *.
    rewrite (names_of_operations src Hsrc), Hname.
    unfold loadDependence. simpl getSourceRef. cbv iota.
    rewrite (saved_lookupSymbolIn src name Hsrc Hname). simpl.
    rewrite !bool_decide_eq_true_2 by (apply list_elem_of_fmap; eauto). simpl.
    rewrite setInsert_new.
    2:{ apply NoDup_app in Hnd as (_ & Hdisj & _). intros Hacc.
        apply (Hdisj _ Hacc). by left. }
    unfold loadDependenceProperties, saveDependenceProperties.
    rewrite (loadProperties_saved AtDependence depDescs prob _ (AuxDep src op)
               (AuxDep (newOp src) (newOp op)));
      [|done|apply (store_typed (AtDependence _))].
    unfold withProperties. simpl. rewrite IH; [|done|by rewrite <- app_assoc].
    by rewrite <- app_assoc, insertAll_app.
Qed.

Lemma saved_loadDependences op (prob' : Problem Attribute) :
  loadDependences depKinds instOp' prob' (newOp op, emitted op)
  = foldlE (loadDependence depKinds instOp' (newOp op) (emitted op)) prob'
           (emittedRecords depKinds prob opNames
              (Z.of_nat (length (operandsOf prob op)) mod UINT_RANGE)
              (getDependences prob op)).
Proof.
  unfold loadDependences, emittedOperation. simpl.
  by destruct (emittedRecords _ _ _ _ _).
Qed.

Lemma saved_emitted_operations (ops : list Operation)
    (acc : list (Operation * Operation)) store :
  ops ⊆ operations prob ->
  NoDup (acc ++ (ops ≫= movedAuxDependences prob)) ->
  foldlE (loadDependences depKinds instOp')
         (mkProblem instOp' (operatorTypes prob) (newOp <$> operations prob) acc store)
         ((fun op => (newOp op, emitted op)) <$> ops)
  = inr (mkProblem instOp' (operatorTypes prob) (newOp <$> operations prob)
                   (acc ++ (ops ≫= movedAuxDependences prob))
                   (insertAll (ops ≫= movedDependenceSlots depDescs prob) store)).
Proof.
  revert acc store. induction ops as [|op ops IH]; intros acc store Hsub Hnd.
  { simpl. by rewrite app_nil_r. }
  assert (op ∈ operations prob) as Hop by (apply Hsub; by left).
  assert (ops ⊆ operations prob) as Hsub' by (intros o Ho; apply Hsub; by right).
  cbn [fmap list_fmap foldlE mbind list_bind] in *.
  rewrite saved_loadDependences.
  rewrite (saved_emitted_records op (getDependences prob op)); [|done|done|].
  2:{ rewrite app_assoc in Hnd. by apply NoDup_app in Hnd as (? & _ & _). }
  fold (movedAuxDependences prob op). rewrite IH; [|done|by rewrite <- app_assoc].
  by rewrite <- app_assoc, insertAll_app.
Qed.

Lemma movedAuxDependences_alt op :
  movedAuxDependences prob op
  = omap (fun '(src, dst) =>
            if bool_decide (dst = op) then Some (newOp src, newOp dst) else None)
         (auxDependences prob).
Proof.
  unfold movedAuxDependences, movedAuxOf. simpl. unfold Problem_getDependences.
  rewrite omap_app.
  assert (forall l : list (nat * Value),
            omap (fun dep => match dep with
                             | AuxDep src dst => Some (newOp src, newOp dst)
                             | DefUseDep _ _ => None
                             end)
                 (omap (fun '(i, v) =>
                          if bool_decide (getDefiningOp v ∈ operations prob)
                          then Some (DefUseDep op i) else None) l) = []) as ->.
  { induction l as [|[i v] l IH]; [done|]. cbn [omap list_omap].
    by case_bool_decide. }
  cbn [app]. induction (auxDependences prob) as [|[src dst] l IH]; [done|].
  cbn [omap list_omap]. case_bool_decide; cbn [omap list_omap]; [f_equal|]; exact IH.
Qed.

Lemma elem_of_movedAuxDependences op (pair : Operation * Operation) :
  pair ∈ movedAuxDependences prob op <->
  exists src, (src, op) ∈ auxDependences prob /\ pair = (newOp src, newOp op).
Proof.
  rewrite movedAuxDependences_alt, list_elem_of_omap. split.
  - intros ([src dst] & Hin & Heq). case_bool_decide; simplify_eq. eauto.
  - intros (src & Hin & ->). exists (src, op). split; [done|].
    by rewrite bool_decide_eq_true_2.
Qed.

Lemma newOp_inj op op' :
  op ∈ operations prob -> op' ∈ operations prob -> newOp op = newOp op' -> op = op'.
Proof. apply (newHandle_inj (model := Problem_model)), ops_distinct. Qed.

Lemma movedAux_distinct : NoDup (operations prob ≫= movedAuxDependences prob).
Proof.
  apply NoDup_bind; [| |apply ops_distinct].
  - intros op op' pair Hop Hop' (src & _ & ->)%elem_of_movedAuxDependences
      (src' & _ & [= _ Heq])%elem_of_movedAuxDependences.
    by apply newOp_inj.
  - intros op Hop. rewrite movedAuxDependences_alt.
    apply NoDup_omap_strong; [|apply (loaded_aux_distinct _ _ _ _ _ _ prob_loaded)].
    intros [src dst] [src' dst'] pair Hin Hin' Hp Hp'.
    case_bool_decide; [|done]. case_bool_decide; [|done]. simplify_eq.
    f_equal. apply newOp_inj; [by apply (aux_source_named _ _ Hin)
                              |by apply (aux_source_named _ _ Hin')|congruence].
Qed.

(** The saved instance loads, to the problem [reloadedProblem]. *)
Lemma saved_loadProblem :
  loadProblem instOp' opKinds oprKinds depKinds instKinds
  = inr (reloadedProblem opDescs oprDescs depDescs instDescs prob instOp').
Proof.
  unfold loadProblem.
  rewrite (loadNodes_explicit opDescs oprDescs instDescs).
  rewrite saved_loadedOperatorTypes, saved_loadedNodeStore, saved_operationOps.
  rewrite <- list_fmap_compose.
  assert (fst ∘ (fun op => (newOp op, emitted op)) = newOp) as -> by done.
  rewrite (saved_emitted_operations (operations prob) []); [|done|apply movedAux_distinct].
  unfold reloadedProblem, movedSlots. simpl. f_equal. f_equal.
  by rewrite <- insertAll_app, <- !app_assoc.
Qed.

Local Notation "'kindsFor'" := (descsFor opDescs oprDescs depDescs instDescs).
Local Notation "'moved'" := (movedSlots opDescs oprDescs depDescs instDescs prob).

Lemma visible_dependence dep :
  visiblePoint prob (AtDependence dep) ->
  match dep with
  | DefUseDep owner _ => owner ∈ operations prob
  | AuxDep src dst => src ∈ operations prob /\ dst ∈ operations prob
  end.
Proof.
  intros (op & Hop & [(i & v & -> & _)|(src & -> & Hin)]%elem_of_Problem_getDependences);
    [done|].
  split; [|done]. by apply (aux_source_named _ _ Hin).
Qed.

Lemma movedPoint_inj point point' :
  visiblePoint prob point -> visiblePoint prob point' ->
  movedPoint prob point = movedPoint prob point' -> point = point'.
Proof.
  destruct point as [|opr|op|dep], point' as [|opr'|op'|dep']; simpl; try done.
  - intros Hop Hop' [= Heq]. f_equal. by apply newOp_inj.
  - intros Hdep%visible_dependence Hdep'%visible_dependence Heq.
    destruct dep as [owner i|src dst], dep' as [owner' i'|src' dst'];
      simpl in Heq; try done.
    + injection Heq as Heq <-. do 2 f_equal. by apply newOp_inj.
    + destruct Hdep, Hdep'. injection Heq as Heq1 Heq2.
      f_equal; f_equal; by apply newOp_inj.
Qed.

Lemma elem_of_moved (key : AttachmentPoint * string) (prop : Attribute) :
  (key, prop) ∈ moved <->
  exists point desc,
    visiblePoint prob point /\ desc ∈ kindsFor point /\
    key = (movedPoint prob point, desc.1) /\
    properties prob !! (point, desc.1) = Some prop.
Proof.
  unfold movedSlots. rewrite !elem_of_app, !list_elem_of_bind, elem_of_slotValues.
  setoid_rewrite elem_of_slotValues. unfold movedDependenceSlots.
  setoid_rewrite list_elem_of_bind. unfold movedDependenceSlot.
  setoid_rewrite elem_of_slotValues. split.
  - intros [(desc & ? & ? & ?)|[(opr & (desc & ? & ? & ?) & ?)
             |[(op & (desc & ? & ? & ?) & ?)|(op & (dep & (desc & ? & ? & ?) & ?) & ?)]]].
    + by exists AtInstance, desc.
    + by exists (AtOperatorType opr), desc.
    + by exists (AtOperation op), desc.
    + exists (AtDependence dep), desc. split_and!; try done. simpl. eauto.
  - intros ([|opr|op|dep] & desc & Hvis & Hin & Hkey & Hl); simpl in *.
    + left. eauto.
    + right; left. eauto 10.
    + right; right; left. eauto 10.
    + right; right; right. destruct Hvis as (op & Hop & Hdep). eauto 10.
Qed.

(** The reloaded store holds, at the new attachment points, what the store
    of the problem holds. *)
Lemma reloaded_lookup point (desc : KindDesc Attribute) :
  visiblePoint prob point -> desc ∈ kindsFor point ->
  insertAll moved ∅ !! (movedPoint prob point, desc.1)
  = properties prob !! (point, desc.1).
Proof.
  intros Hvis Hdesc.
  assert (forall prop, (movedPoint prob point, desc.1, prop) ∈ moved ->
                       properties prob !! (point, desc.1) = Some prop) as Hsound.
  { intros prop (point' & desc' & Hvis' & Hdesc' & [= Hpt Hname] & Hl)%elem_of_moved.
    apply movedPoint_inj in Hpt; [|done..]. subst point'. by rewrite Hname. }
  destruct (properties prob !! (point, desc.1)) as [prop|] eqn:Hl.
  - apply lookup_insertAll_functional.
    + intros prop' Hin%Hsound. congruence.
    + left. apply elem_of_moved. exists point, desc. done.
  - destruct (insertAll moved ∅ !! (movedPoint prob point, desc.1)) as [prop|] eqn:Hl';
      [|done].
    apply lookup_insertAll_inv in Hl' as [Hin%Hsound|Hempty]; [congruence|].
    by rewrite lookup_empty in Hempty.
Qed.

Lemma elem_of_kindsAt {Target : Type} (pt : Target -> AttachmentPoint)
    (descs : list (KindDesc Attribute))
    (kind : PropertyKind Attribute (Problem Attribute) Target) :
  kind ∈ kindsAt pt descs ->
  exists desc, desc ∈ descs /\ kind = storedKind pt desc.1 desc.2.
Proof. intros (desc & -> & Hin)%list_elem_of_fmap. eauto. Qed.

Lemma reloaded_dependences op :
  op ∈ operations prob ->
  getDependences (reloadedProblem opDescs oprDescs depDescs instDescs prob instOp')
                 (newOp op)
  = mapDependence newOp <$> getDependences prob op.
Proof.
  intros Hop. simpl. unfold Problem_getDependences. simpl.
  rewrite fmap_app. f_equal.
  - unfold bodyOperands. rewrite (saved_body_operation op Hop). simpl.
    fold (bodyOperands (containingOp prob) op).
    assert (Forall (fun v => getDefiningOp v ∈ operations prob)
                   (bodyOperands (containingOp prob) op)) as Hreg.
    { apply Forall_forall. intros v Hv. by apply (operands_registered op). }
    rewrite (omap_imap_all (fun v => getDefiningOp v ∈ operations prob)
               (fun i => DefUseDep op i)) by done.
    rewrite (omap_imap_all
               (fun v => getDefiningOp v ∈ newOp <$> operations prob)
               (fun i => DefUseDep (newOp op) i)).
    2:{ apply Forall_fmap. eapply Forall_impl; [exact Hreg|].
        intros v Hv. simpl. apply list_elem_of_fmap. eauto. }
    rewrite imap_fmap, fmap_imap. by apply imap_ext.
  - rewrite omap_bind.
    rewrite (bind_single _ _ op ops_distinct Hop).
    2:{ intros op' Hop' Hne. rewrite movedAuxDependences_alt.
        induction (auxDependences prob) as [|[src dst] l IH]; [done|].
        cbn [omap list_omap]. case_bool_decide; [|done]. subst dst.
        cbn [omap list_omap]. rewrite bool_decide_eq_false_2; [done|].
        intros Heq. apply Hne. by apply newOp_inj. }
    rewrite movedAuxDependences_alt.
    induction (auxDependences prob) as [|[src dst] l IH]; [done|].
    cbn [omap list_omap]. case_bool_decide; [|done]. subst dst.
    cbn [omap list_omap fmap list_fmap]. rewrite bool_decide_eq_true_2 by done.
    simpl. f_equal. exact IH.
Qed.

(** The reloaded problem is the problem, up to the renaming of the
    operations. *)
Lemma reloaded_iso :
  problemIso newOp opKinds oprKinds depKinds instKinds prob
    (reloadedProblem opDescs oprDescs depDescs instDescs prob instOp').
Proof.
  split.
  - done.
  - simpl. apply NoDup_fmap_2_strong; [|apply ops_distinct].
    intros op op'. apply newOp_inj.
  - intros op Hop. unfold operandsOf, numResultsOf.
    change (getContainingOp
              (reloadedProblem opDescs oprDescs depDescs instDescs prob instOp'))
      with instOp'.
    by rewrite (saved_body_operation op Hop).
  - done.
  - apply reloaded_dependences.
  - intros kind (desc & Hdesc & ->)%elem_of_kindsAt. simpl.
    by apply (reloaded_lookup AtInstance).
  - intros kind opr (desc & Hdesc & ->)%elem_of_kindsAt Hopr. simpl.
    by apply (reloaded_lookup (AtOperatorType opr)).
  - intros kind op (desc & Hdesc & ->)%elem_of_kindsAt Hop. simpl.
    by apply (reloaded_lookup (AtOperation op)).
  - intros kind op dep (desc & Hdesc & ->)%elem_of_kindsAt Hop Hdep. simpl.
    apply (reloaded_lookup (AtDependence dep)); [|done]. simpl. eauto.
Qed.

End Reload.

Section RoundTrip.

Context {Attribute : Type}.

(** C1: for a problem [prob] that [loadProblem] builds from a valid
    instance, [saveProblem] with the same kind lists and a name function that
    gives the operations their names of the instance returns an instance,
    which [loadProblem] decodes to a problem isomorphic to [prob]: the same
    operations in the same order, the same operator types, the same
    dependences and the same property values. *)
Theorem save_load_round_trip
    (opDescs oprDescs depDescs instDescs : list (KindDesc Attribute))
    (instOp : InstanceOp Attribute) (operationNameFn : Operation -> option string)
    (instanceName problemName : string) (prob : Problem Attribute) :
  let opKinds := kindsAt AtOperation opDescs in
  let oprKinds := kindsAt AtOperatorType oprDescs in
  let depKinds := kindsAt AtDependence depDescs in
  let instKinds := kindsAt (fun _ : unit => AtInstance) instDescs in
  validInstance instOp ->
  unambiguous opDescs -> unambiguous oprDescs ->
  unambiguous depDescs -> unambiguous instDescs ->
  reproducesNames instOp operationNameFn ->
  loadProblem instOp opKinds oprKinds depKinds instKinds = inr prob ->
  exists instOp' prob',
    saveProblem prob instanceName problemName operationNameFn
                opKinds oprKinds depKinds instKinds = inr instOp' /\
    loadProblem instOp' opKinds oprKinds depKinds instKinds = inr prob' /\
    problemIso (newHandle prob) opKinds oprKinds depKinds instKinds prob prob'.
Proof.
  intros opKinds oprKinds depKinds instKinds Hvalid Hop Hopr Hdep Hinst Hnames Hload.
  pose proof (loadProblem_loadedFrom opDescs oprDescs depDescs instDescs
                Hop Hopr Hdep Hinst instOp prob Hload) as Hloaded.
  exists (savedInstance prob instanceName problemName operationNameFn
            opKinds oprKinds depKinds instKinds),
         (reloadedProblem opDescs oprDescs depDescs instDescs prob
            (savedInstance prob instanceName problemName operationNameFn
               opKinds oprKinds depKinds instKinds)).
  split_and!.
  - apply saveProblem_saved. intros op v.
    exact (loaded_operands_registered _ _ _ _ _ _ Hvalid Hloaded op v).
  - by eapply saved_loadProblem.
  - by eapply reloaded_iso.
Qed.

End RoundTrip.

Lemma mnemonic_unambiguous (mnemonics : list string) :
  NoDup mnemonics -> unambiguous (mnemonicDesc <$> mnemonics).
Proof.
  intros Hnd. split.
  - rewrite <- list_fmap_compose. by rewrite list_fmap_id.
  - intros desc desc' prop (m & -> & _)%list_elem_of_fmap (m' & -> & _)%list_elem_of_fmap.
    simpl. intros ->%bool_decide_eq_true ->%bool_decide_eq_true. done.
Qed.

Lemma exampleInstance_valid : validInstance exampleInstance.
Proof.
  split.
  - refine (@bool_decide_unpack _ (NoDup_dec _) _). vm_compute. exact I.
  - intros op opOp v Hbody Hv.
    do 5 (destruct op as [|op]; simpl in Hbody; simplify_eq; simpl in Hv;
          try (by apply elem_of_nil in Hv);
          try (apply list_elem_of_singleton in Hv as ->; reflexivity)).
  - intros op opOp Hbody.
    do 5 (destruct op as [|op]; simpl in Hbody; simplify_eq; try reflexivity).
Qed.

Lemma exampleNameFn_reproduces : reproducesNames exampleInstance exampleNameFn.
Proof.
  intros op opOp Hbody.
  do 5 (destruct op as [|op]; simpl in Hbody; simplify_eq; try reflexivity).
Qed.

Lemma save_load_round_trip_witness :
  exists instOp' prob',
    saveProblem exampleProblem "inst" "Problem" exampleNameFn
      exampleOpKinds exampleOprKinds exampleDepKinds exampleInstKinds = inr instOp' /\
    loadProblem instOp' exampleOpKinds exampleOprKinds exampleDepKinds exampleInstKinds
    = inr prob' /\
    problemIso (newHandle exampleProblem)
      exampleOpKinds exampleOprKinds exampleDepKinds exampleInstKinds
      exampleProblem prob'.
Proof.
  apply (save_load_round_trip exampleOpDescs exampleOprDescs exampleDepDescs
           exampleInstDescs exampleInstance exampleNameFn "inst" "Problem"
           exampleProblem).
  - exact exampleInstance_valid.
  - apply mnemonic_unambiguous.
    refine (@bool_decide_unpack _ (NoDup_dec _) _). vm_compute. exact I.
  - apply mnemonic_unambiguous.
    refine (@bool_decide_unpack _ (NoDup_dec _) _). vm_compute. exact I.
  - apply mnemonic_unambiguous.
    refine (@bool_decide_unpack _ (NoDup_dec _) _). vm_compute. exact I.
  - apply mnemonic_unambiguous.
    refine (@bool_decide_unpack _ (NoDup_dec _) _). vm_compute. exact I.
  - exact exampleNameFn_reproduces.
  - vm_compute. reflexivity.
Defined.

(** The saved instance of the example is the instance it was loaded from. *)
Example saveProblem_exampleProblem :
  saveProblem exampleProblem "inst" "Problem" exampleNameFn
    exampleOpKinds exampleOprKinds exampleDepKinds exampleInstKinds
  = inr exampleInstance.
Proof. vm_compute. reflexivity. Qed.

(** ** What the parser accepts and what the verifier makes of it *)

Section ParseShape.

Context {Attribute : Type}.
Implicit Types (entry : DependenceEntry Attribute)
  (entries : list (DependenceEntry Attribute)) (st : ParseState Attribute)
  (scope : UnresolvedOperand -> option Value).

Lemma operandNames_cons entry entries :
  operandNames (entry :: entries)
  = match entrySource entry with OperandSource o => [o] | _ => [] end
    ++ operandNames entries.
Proof. unfold operandNames. simpl. by destruct (entrySource entry). Qed.

Lemma operandNames_app entries entries' :
  operandNames (entries ++ entries') = operandNames entries ++ operandNames entries'.
Proof. unfold operandNames. apply omap_app. Qed.

Lemma operandNames_operands entries :
  Forall isOperandEntry entries -> length (operandNames entries) = length entries.
Proof.
  induction 1 as [|entry entries He _ IH]; [done|].
  rewrite operandNames_cons. unfold isOperandEntry in He.
  destruct (entrySource entry); try done. simpl. by rewrite IH.
Qed.

Lemma operandNames_symbols entries :
  Forall isSymbolEntry entries -> operandNames entries = [].
Proof.
  induction 1 as [|entry entries He _ IH]; [done|].
  rewrite operandNames_cons, IH. unfold isSymbolEntry in He.
  by destruct (entrySource entry).
Qed.

Lemma length_operandNames entries :
  (length (operandNames entries) <= length entries)%nat.
Proof.
  induction entries as [|entry entries IH]; [done|].
  rewrite operandNames_cons, length_app. simpl.
  destruct (entrySource entry); simpl; lia.
Qed.

Lemma operandNames_Exists entries :
  Exists isOperandEntry entries -> (0 < length (operandNames entries))%nat.
Proof.
  induction 1 as [entry entries He|entry entries _ IH];
    rewrite operandNames_cons, length_app.
  - unfold isOperandEntry in He. destruct (entrySource entry); try done. simpl. lia.
  - lia.
Qed.

(** The parser collects the operand names whatever the length of the list
    is. *)
Lemma parseCommaSeparatedList_operands entries st :
  Forall hasSource entries ->
  exists st',
    parseCommaSeparatedList entries st = inr st' /\
    unresolvedOperands st' = unresolvedOperands st ++ operandNames entries.
Proof.
  revert st. induction entries as [|entry entries IH]; intros st Hs.
  { exists st. simpl. by rewrite app_nil_r. }
  apply Forall_cons in Hs as [Hs Hss].
  cbn [parseCommaSeparatedList]. rewrite parseDependenceSourceWithAttrDict_step by done.
  edestruct IH as (st' & Hparse & Hops); [done|].
  exists st'. split; [exact Hparse|]. rewrite Hops. cbn [unresolvedOperands].
  by rewrite operandNames_cons, app_assoc.
Qed.

Lemma parseCommaSeparatedList_no_source entries st :
  Exists (fun entry => entrySource entry = NoSource) entries ->
  parseCommaSeparatedList entries st = inl msgExpectedSource.
Proof.
  intros Hex. revert st. induction Hex as [entry entries He|entry entries _ IH]; intros st.
  - cbn [parseCommaSeparatedList].
    by rewrite parseDependenceSourceWithAttrDict_fails.
  - cbn [parseCommaSeparatedList].
    destruct (entrySource entry) eqn:Hsrc.
    + rewrite parseDependenceSourceWithAttrDict_step by (unfold hasSource; congruence).
      apply IH.
    + rewrite parseDependenceSourceWithAttrDict_step by (unfold hasSource; congruence).
      apply IH.
    + by rewrite parseDependenceSourceWithAttrDict_fails.
Qed.

Lemma parseCommaSeparatedList_inr entries st st' :
  parseCommaSeparatedList entries st = inr st' -> Forall hasSource entries.
Proof.
  intros Hparse. apply Forall_forall. intros entry Hin.
  destruct (entrySource entry) eqn:Hsrc; try (unfold hasSource; congruence).
  rewrite parseCommaSeparatedList_no_source in Hparse; [done|].
  apply Exists_exists. eauto.
Qed.

Lemma resolveOperands_inr scope (names : list UnresolvedOperand) (vs : list Value) :
  resolveOperands scope names = inr vs <->
  Forall2 (fun o v => scope o = Some v) names vs.
Proof.
  revert vs. induction names as [|o names IH]; intros vs; simpl.
  { split; [intros [= <-]; constructor|]. by intros ->%Forall2_nil_inv_l. }
  destruct (scope o) as [v|] eqn:Ho.
  - destruct (resolveOperands scope names) as [err|vs'] eqn:Hr.
    + split; [done|]. intros (v' & vs' & _ & Hrest & ->)%Forall2_cons_inv_l.
      by apply IH in Hrest.
    + split.
      * intros [= <-]. constructor; [done|]. by apply IH.
      * intros (v' & vs'' & Hv & Hrest & ->)%Forall2_cons_inv_l.
        apply IH in Hrest. congruence.
  - split; [done|]. intros (v' & vs' & Hv & _)%Forall2_cons_inv_l. congruence.
Qed.

Lemma resolveOperands_declared scope (names : list UnresolvedOperand) :
  Forall (fun o => is_Some (scope o)) names ->
  exists vs, resolveOperands scope names = inr vs.
Proof.
  induction 1 as [|o names [v Ho] _ [vs IH]]; simpl; [by eauto|].
  rewrite Ho, IH. eauto.
Qed.

Lemma materialized_app (idx : Z) entries entries' :
  materialized idx (entries ++ entries')
  = materialized idx entries
    ++ materialized (idx + Z.of_nat (length entries)) entries'.
Proof.
  revert idx. induction entries as [|entry entries IH]; intros idx; simpl.
  { by rewrite Z.add_0_r. }
  rewrite IH. replace (idx + 1 + Z.of_nat (length entries))
    with (idx + Z.pos (Pos.of_succ_nat (length entries))) by lia.
  by destruct (recordOf idx entry).
Qed.

(** What [parse] adds to [result] for a list it accepts. *)
Lemma parse_state scope (syn : OperationSyntax Attribute) (state : OperationState Attribute) :
  parse scope syn = inr state ->
  exists deps,
    stateAttributes state
    = listedAttributes (synSymName syn) deps (synProperties syn) ++ synAttrDict syn /\
    (Z.of_nat (length (synEntries syn)) < UINT_RANGE ->
     deps = materialized 0 (synEntries syn)) /\
    Forall hasSource (synEntries syn) /\
    Forall2 (fun o v => scope o = Some v) (operandNames (synEntries syn))
            (stateOperands state) /\
    stateTypes state = synNumResults syn.
Proof.
  intros (st & operands & Hparse & Hres & ->)%parse_inr.
  pose proof (parseCommaSeparatedList_inr _ _ _ Hparse) as Hs.
  destruct (parseCommaSeparatedList_operands (synEntries syn) (mkParseState [] [] 0) Hs)
    as (st2 & Hparse2 & Hops).
  assert (st2 = st) as -> by congruence.
  simpl in Hops. rewrite Hops in Hres. apply resolveOperands_inr in Hres.
  exists (dependences st). split_and!; try done.
  intros Hlen.
  destruct (parseCommaSeparatedList_spec (synEntries syn) (mkParseState [] [] 0) Hs)
    as (st1 & Hparse1 & Hdeps & _); [simpl; lia..|].
  assert (st1 = st) as -> by congruence. done.
Qed.

(** The operation that the parser builds from a list it accepts. *)
Lemma parseOperation_operation scope (syn : OperationSyntax Attribute)
    (op : OperationOp Attribute) :
  Z.of_nat (length (synEntries syn)) < UINT_RANGE ->
  parseOperation scope syn = inr op ->
  Forall hasSource (synEntries syn) /\
  (materialized 0 (synEntries syn) ≠ [] \/
   (forall deps, NamedDependences deps ∉ synAttrDict syn) ->
   default [] (getDependencesAttr op) = materialized 0 (synEntries syn)) /\
  Forall2 (fun o v => scope o = Some v) (operandNames (synEntries syn)) (getOperands op) /\
  getNumResults op = synNumResults syn /\
  (getDependencesAttr op = Some [] -> NamedDependences [] ∈ synAttrDict syn).
Proof.
  intros Hlen. unfold parseOperation.
  destruct (parse scope syn) as [|[attributes operands numResults]] eqn:Hstate; [done|].
  apply parse_state in Hstate as (deps & Hattrs & Hdeps & Hs & Hops & Hn).
  simpl in Hattrs, Hops, Hn. subst attributes numResults. rewrite <- (Hdeps Hlen).
  intros (<- & <- & Hd & Hempty)%createOperation_listed. done.
Qed.

Lemma materialized_symbol_entry (pre post : list (DependenceEntry Attribute))
    (entry : DependenceEntry Attribute) (sourceRef : string) :
  entrySource entry = SymbolSource sourceRef ->
  materialized 0 (pre ++ entry :: post) ≠ [].
Proof.
  intros Hsrc. rewrite materialized_app. cbn [materialized]. unfold recordOf.
  rewrite Hsrc. by destruct (materialized 0 pre).
Qed.

Lemma entries_shape entries :
  Forall hasSource entries ->
  operandsLead entries \/
  exists pre entry post sourceRef,
    entries = pre ++ entry :: post /\ Forall isOperandEntry pre /\
    entrySource entry = SymbolSource sourceRef /\ Exists isOperandEntry post.
Proof.
  induction 1 as [|entry entries He Hs IH].
  { left. exists [], []. by repeat split. }
  destruct (entrySource entry) as [sourceRef|operand|] eqn:Hsrc; [| |done].
  - destruct (decide (Exists isOperandEntry entries)) as [Hex|Hnex].
    + right. exists [], entry, entries, sourceRef. by repeat split.
    + left. exists [], (entry :: entries). repeat split; [constructor|].
      constructor; [unfold isSymbolEntry; by rewrite Hsrc|].
      apply Forall_forall. intros e Hin.
      assert (hasSource e) as Hse by (rewrite Forall_forall in Hs; auto).
      assert (~ isOperandEntry e) as Hne.
      { intros Hoe. apply Hnex, Exists_exists. eauto. }
      unfold hasSource in Hse. unfold isOperandEntry in Hne. unfold isSymbolEntry.
      by destruct (entrySource e).
  - assert (isOperandEntry entry) as Hoe by (unfold isOperandEntry; by rewrite Hsrc).
    destruct IH as [(ops & syms & -> & Hops & Hsyms)|
                    (pre & e & post & ref & -> & Hpre & He' & Hpost)].
    + left. exists (entry :: ops), syms. repeat split; [by constructor|done].
    + right. exists (entry :: pre), e, post, ref. repeat split; [by constructor|done..].
Qed.

Lemma operandsLead_not_interleaved (pre post : list (DependenceEntry Attribute)) entry :
  isSymbolEntry entry -> Exists isOperandEntry post ->
  ~ operandsLead (pre ++ entry :: post).
Proof.
  intros He (e & Hin & Hoe)%Exists_exists (ops & syms & Heq & Hops & Hsyms).
  assert (forall e' : DependenceEntry Attribute,
            isOperandEntry e' -> isSymbolEntry e' -> False) as Hexcl.
  { intros e'. unfold isOperandEntry, isSymbolEntry. by destruct (entrySource e'). }
  destruct (decide (length ops <= length pre)%nat) as [Hle|Hgt].
  - assert (e ∈ syms) as Hes.
    { apply (f_equal (drop (length ops))) in Heq.
      rewrite drop_app_length in Heq.
      rewrite <- Heq. rewrite drop_app_le by done.
      apply elem_of_app. right. by apply elem_of_cons; right. }
    rewrite Forall_forall in Hsyms. eauto.
  - assert (entry ∈ ops) as Hes.
    { apply (f_equal (take (length ops))) in Heq.
      rewrite take_app_length in Heq. rewrite <- Heq.
      rewrite take_app_ge by lia.
      apply elem_of_app. right.
      destruct (length ops - length pre)%nat eqn:Hd; [lia|]. simpl. apply list_elem_of_here. }
    rewrite Forall_forall in Hops. eauto.
Qed.

End ParseShape.

Section ParsedVerify.

Context {Attribute : Type}.
Implicit Types (entry : DependenceEntry Attribute)
  (entries : list (DependenceEntry Attribute))
  (deps : list (DependenceAttr Attribute)).

Lemma verify_verifyDependences (op : OperationOp Attribute) :
  verify op
  = verifyDependences (to_int (getNumOperands op)) (-1)
                      (default [] (getDependencesAttr op)).
Proof. unfold verify. by destruct (getDependencesAttr op). Qed.

Lemma to_int_getNumOperands (op : OperationOp Attribute) :
  Z.of_nat (length (getOperands op)) <= INT_MAX ->
  to_int (getNumOperands op) = Z.of_nat (length (getOperands op)).
Proof.
  intros Hn. unfold getNumOperands.
  rewrite Z.mod_small by (unfold UINT_RANGE, INT_MAX in *; lia).
  apply to_int_small. lia.
Qed.

(** The records of operand entries pass the loop, and leave [lastIdx] below
    the slots they cover. *)
Lemma verifyDependences_operand_entries (nOperands lastIdx k : Z) entries deps :
  Forall isOperandEntry entries ->
  -1 <= lastIdx < k ->
  k + Z.of_nat (length entries) <= nOperands -> nOperands <= INT_MAX ->
  exists lastIdx',
    -1 <= lastIdx' < k + Z.of_nat (length entries) /\
    verifyDependences nOperands lastIdx (materialized k entries ++ deps)
    = verifyDependences nOperands lastIdx' deps.
Proof.
  intros Hall. revert lastIdx k.
  induction Hall as [|entry entries He _ IH]; intros lastIdx k Hlast Hk Hn.
  { exists lastIdx. simpl in *. split; [lia|done]. }
  simpl length in *. cbn [materialized]. unfold recordOf, isOperandEntry in *.
  destruct (entrySource entry) as [|operand|]; try done.
  destruct (entryProperties entry) as [properties|].
  - destruct (IH k (k + 1)) as (lastIdx' & Hlast' & Heq); [lia..|].
    exists lastIdx'. split; [lia|]. rewrite <- Heq.
    cbn [app verifyDependences getSourceRef getOperandIdx]. cbv zeta.
    rewrite to_int_small by lia. rewrite Z.geb_leb.
    destruct (Z.leb_spec nOperands k); [lia|].
    destruct (Z.leb_spec k lastIdx); [lia|]. done.
  - destruct (IH lastIdx (k + 1)) as (lastIdx' & Hlast' & Heq); [lia..|].
    exists lastIdx'. split; [lia|]. done.
Qed.

(** The records of symbol references that start at the operand count pass
    the loop. *)
Lemma verifyDependences_symbol_entries (nOperands lastIdx next : Z) entries :
  Forall isSymbolEntry entries ->
  0 <= nOperands <= next -> -1 <= lastIdx ->
  next = lastIdx + 1 \/ (lastIdx < next /\ next = nOperands) ->
  next + Z.of_nat (length entries) <= INT_MAX ->
  verifyDependences nOperands lastIdx (materialized next entries) = success.
Proof.
  intros Hall. revert lastIdx next.
  induction Hall as [|entry entries He _ IH]; intros lastIdx next Hn Hlast Hnext Hlen.
  { done. }
  simpl length in *. cbn [materialized]. unfold recordOf, isSymbolEntry in *.
  destruct (entrySource entry) as [sourceRef| |]; try done.
  cbn [verifyDependences getSourceRef getOperandIdx]. cbv zeta.
  unfold int_add. rewrite !to_int_small by lia.
  destruct (Z.ltb_spec next nOperands); [lia|].
  rewrite Z.gtb_ltb.
  destruct (Z.eqb_spec next (lastIdx + 1)), (Z.ltb_spec lastIdx next),
    (Z.eqb_spec next nOperands); simpl; try lia; apply IH; lia.
Qed.

(** A symbol reference that stands before an operand gets a slot below the
    operand count. *)
Lemma verifyDependences_interleaved (nOperands : Z) (pre post : list (DependenceEntry Attribute))
    entry (sourceRef : string) :
  Forall isOperandEntry pre ->
  entrySource entry = SymbolSource sourceRef ->
  Z.of_nat (length pre) < nOperands <= INT_MAX ->
  verifyDependences nOperands (-1) (materialized 0 (pre ++ entry :: post))
  = failure (msgInterleaved sourceRef).
Proof.
  intros Hpre Hsrc Hn. rewrite materialized_app.
  destruct (verifyDependences_operand_entries nOperands (-1) 0 pre
              (materialized (0 + Z.of_nat (length pre)) (entry :: post)) Hpre)
    as (lastIdx' & Hlast' & ->); [lia..|].
  cbn [materialized]. unfold recordOf. rewrite Hsrc.
  cbn [verifyDependences getSourceRef getOperandIdx]. cbv zeta.
  rewrite to_int_small by lia.
  destruct (Z.ltb_spec (0 + Z.of_nat (length pre)) nOperands); [done|lia].
Qed.

(** The loop keeps [-1 <= lastIdx] or [nOperands <= lastIdx] over the
    records it accepts. *)
Lemma verifyDependences_accepted_prefix (nOperands lastIdx : Z) deps deps' :
  -1 <= lastIdx \/ nOperands <= lastIdx ->
  verifyDependences nOperands lastIdx deps = success ->
  exists lastIdx',
    (-1 <= lastIdx' \/ nOperands <= lastIdx') /\
    verifyDependences nOperands lastIdx (deps ++ deps')
    = verifyDependences nOperands lastIdx' deps'.
Proof.
  revert lastIdx. induction deps as [|dep deps IH]; intros lastIdx Hlast Hok.
  { exists lastIdx. done. }
  pose proof Hok as Hok'. apply verifyDependences_cons in Hok'. cbv zeta in Hok'.
  destruct Hok' as [Hstep Hrest].
  destruct (IH (to_int (getOperandIdx dep))) as (lastIdx' & Hlast' & Heq); [|done|].
  { destruct (getSourceRef dep); lia. }
  exists lastIdx'. split; [done|]. rewrite <- Heq.
  cbn [app verifyDependences] in *. cbv zeta in *.
  destruct (getSourceRef dep).
  - destruct (_ <? _); [done|]. destruct (negb _); [done|]. done.
  - destruct (_ >=? _); [done|]. destruct (_ <=? _); [done|]. done.
Qed.

End ParsedVerify.

Section ParseOutcomes.

Context {Attribute : Type}.

(** X1: [OperationOp::parse] succeeds exactly when every entry has a source and
    every operand name is declared, whatever the attribute dictionary holds.
    It then has added to [result] the symbol name, the dependences attribute
    with the records of the list if the list makes any, the properties and
    then the entries of the attribute dictionary, and the resolved operands
    in the order of the operand entries and the result types. The operation
    that is parsed from the text has an empty dependences array only if the
    attribute dictionary gives it. An entry without a source ends the parse
    with the diagnostic of the list parser, whatever the scope is. *)
Theorem parse_succeeds_iff (scope : UnresolvedOperand -> option Value)
    (syn : OperationSyntax Attribute) :
  ((exists state, parse scope syn = inr state) <->
   Forall hasSource (synEntries syn) /\
   Forall (fun o => is_Some (scope o)) (operandNames (synEntries syn))) /\
  (forall state, parse scope syn = inr state ->
     exists deps,
       stateAttributes state
       = listedAttributes (synSymName syn) deps (synProperties syn) ++ synAttrDict syn /\
       (Z.of_nat (length (synEntries syn)) < UINT_RANGE ->
        deps = materialized 0 (synEntries syn)) /\
       Forall2 (fun o v => scope o = Some v) (operandNames (synEntries syn))
               (stateOperands state) /\
       stateTypes state = synNumResults syn) /\
  (forall op, parseOperation scope syn = inr op ->
     getDependencesAttr op = Some [] -> NamedDependences [] ∈ synAttrDict syn) /\
  (Exists (fun entry => entrySource entry = NoSource) (synEntries syn) ->
   parse scope syn = inl msgExpectedSource).
Proof.
  split_and!.
  - split.
    + intros [state Hstate].
      destruct (parse_state scope syn state Hstate) as (deps & _ & _ & Hs & Hf & _).
      split; [done|]. apply Forall_forall. intros o Hin.
      apply list_elem_of_lookup in Hin as [i Hi].
      destruct (Forall2_lookup_l _ _ _ _ _ Hf Hi) as (v & _ & Hv). by rewrite Hv.
    + intros [Hs Hdecl].
      destruct (parseCommaSeparatedList_operands (synEntries syn) (mkParseState [] [] 0) Hs)
        as (st & Hparse & Hops).
      simpl in Hops. rewrite <- Hops in Hdecl.
      destruct (resolveOperands_declared scope _ Hdecl) as [operands Hr].
      eexists. apply parse_inr. eauto.
  - intros state Hstate.
    destruct (parse_state scope syn state Hstate) as (deps & ? & ? & _ & ? & ?).
    by exists deps.
  - intros op. unfold parseOperation.
    destruct (parse scope syn) as [|state] eqn:Hstate; [done|].
    apply parse_inr in Hstate as (st & operands & _ & _ & ->).
    by intros (_ & _ & _ & Hempty)%createOperation_listed.
  - intros Hex. unfold parse. by rewrite parseCommaSeparatedList_no_source.
Qed.

(** X2: The operation that is parsed from a text whose attribute dictionary
    gives no dependences attribute passes [OperationOp::verify] exactly
    when, in the text, the operands come first and the symbol references
    follow. *)
Theorem parsed_operation_verifies_iff (scope : UnresolvedOperand -> option Value)
    (syn : OperationSyntax Attribute) (op : OperationOp Attribute) :
  Z.of_nat (length (synEntries syn)) <= INT_MAX ->
  (forall deps, NamedDependences deps ∉ synAttrDict syn) ->
  parseOperation scope syn = inr op ->
  (verify op = success <-> operandsLead (synEntries syn)).
Proof.
  intros Hlen Hdict Hop.
  destruct (parseOperation_operation scope syn op) as (Hs & Hdeps & Hops & _);
    [unfold UINT_RANGE, INT_MAX in *; lia|done|].
  specialize (Hdeps (or_intror Hdict)).
  apply Forall2_length in Hops.
  pose proof (length_operandNames (synEntries syn)) as Hle.
  rewrite verify_verifyDependences, Hdeps, to_int_getNumOperands by lia.
  rewrite <- Hops. split.
  - intros Hok. destruct (entries_shape _ Hs)
      as [Hlead|(pre & entry & post & ref & Heq & Hpre & Hsrc & Hpost)]; [done|].
    rewrite Heq in Hok, Hlen, Hle.
    rewrite (verifyDependences_interleaved _ pre post entry ref Hpre Hsrc) in Hok; [done|].
    rewrite operandNames_app, operandNames_cons, Hsrc, !length_app.
    rewrite operandNames_operands by done.
    pose proof (length_operandNames post).
    apply operandNames_Exists in Hpost. simpl in *. rewrite length_app in Hlen.
    simpl in Hlen. lia.
  - intros (ops & syms & Heq & Hopnd & Hsym). rewrite Heq in *.
    rewrite operandNames_app, (operandNames_symbols syms), app_nil_r by done.
    rewrite operandNames_operands by done.
    rewrite length_app in Hlen.
    rewrite materialized_app.
    destruct (verifyDependences_operand_entries (Z.of_nat (length ops)) (-1) 0 ops
                (materialized (0 + Z.of_nat (length ops)) syms) Hopnd)
      as (lastIdx' & Hlast' & ->); [lia..|].
    apply verifyDependences_symbol_entries; [done|lia..].
Qed.

(** X3: A symbol reference that stands before an operand makes the parsed
    operation fail [OperationOp::verify], and the diagnostic names the first
    such reference as interleaved with the operands. *)
Theorem parsed_interleaved_reference_rejected (scope : UnresolvedOperand -> option Value)
    (syn : OperationSyntax Attribute) (op : OperationOp Attribute)
    (pre post : list (DependenceEntry Attribute)) (entry : DependenceEntry Attribute)
    (sourceRef : string) :
  synEntries syn = pre ++ entry :: post ->
  Forall isOperandEntry pre ->
  entrySource entry = SymbolSource sourceRef ->
  Exists isOperandEntry post ->
  Z.of_nat (length (synEntries syn)) <= INT_MAX ->
  parseOperation scope syn = inr op ->
  verify op = failure (msgInterleaved sourceRef).
Proof.
  intros Heq Hpre Hsrc Hpost Hlen Hop.
  destruct (parseOperation_operation scope syn op) as (Hs & Hdeps & Hops & _);
    [unfold UINT_RANGE, INT_MAX in *; lia|done|].
  assert (default [] (getDependencesAttr op) = materialized 0 (synEntries syn)) as Hdeps'.
  { apply Hdeps. left. rewrite Heq. by eapply materialized_symbol_entry. }
  clear Hdeps. rename Hdeps' into Hdeps.
  apply Forall2_length in Hops.
  pose proof (length_operandNames (synEntries syn)) as Hle.
  rewrite verify_verifyDependences, Hdeps, to_int_getNumOperands by lia.
  rewrite <- Hops, Heq in *.
  apply verifyDependences_interleaved; [done..|].
  rewrite operandNames_app, operandNames_cons, Hsrc, !length_app.
  rewrite operandNames_operands by done.
  pose proof (length_operandNames post).
  apply operandNames_Exists in Hpost. simpl in *. rewrite length_app in Hlen.
  simpl in Hlen. lia.
Qed.

(** X4: A data record whose index does not fit an [int] is never reported as
    out of bounds: after records that pass, [OperationOp::verify] reports it
    as not monotonically increasing. *)
Theorem verify_index_beyond_int (symName : option string) (operands : list Value)
    (numResults : nat) (properties : ArrayAttr Attribute)
    (pre post : list (DependenceAttr Attribute)) (dep : DependenceAttr Attribute) :
  Z.of_nat (length operands) <= INT_MAX ->
  verify (mkOperationOp symName operands numResults (Some pre) properties) = success ->
  getSourceRef dep = None ->
  INT_MAX < getOperandIdx dep < UINT_RANGE ->
  verify (mkOperationOp symName operands numResults (Some (pre ++ dep :: post)) properties)
  = failure msgNotIncreasing.
Proof.
  intros Hn Hpre Hsrc Hidx.
  rewrite verify_verifyDependences in *. rewrite to_int_getNumOperands in * by done.
  simpl in *.
  destruct (verifyDependences_accepted_prefix _ (-1) pre (dep :: post) ltac:(lia) Hpre)
    as (lastIdx' & Hlast' & ->).
  cbn [verifyDependences]. cbv zeta. rewrite Hsrc.
  assert (to_int (getOperandIdx dep) < 0) as Hneg.
  { destruct (to_int_unsigned_cases (getOperandIdx dep)) as [[? _]|[_ ?]];
      [unfold is_unsigned, INT_MAX in *; lia|lia|done]. }
  rewrite Z.geb_leb.
  destruct (Z.leb_spec (Z.of_nat (length operands)) (to_int (getOperandIdx dep))); [lia|].
  destruct (Z.leb_spec (to_int (getOperandIdx dep)) lastIdx'); [done|lia].
Qed.

End ParseOutcomes.

(** ** [OperationOp::print] *)

Section PrintFacts.

Context {Attribute : Type}.
Implicit Types (dep : DependenceAttr Attribute) (deps auxDeps : list (DependenceAttr Attribute))
  (defUseDeps : list (option (DependenceAttr Attribute)))
  (entry : DependenceEntry Attribute) (entries : list (DependenceEntry Attribute))
  (nameOf : Value -> UnresolvedOperand).

Lemma collectDependences_length defUseDeps auxDeps deps defUseDeps' auxDeps' :
  collectDependences defUseDeps auxDeps deps = Some (defUseDeps', auxDeps') ->
  length defUseDeps' = length defUseDeps.
Proof.
  revert defUseDeps auxDeps. induction deps as [|dep deps IH];
    intros defUseDeps auxDeps; cbn [collectDependences].
  { by intros [= <- _]. }
  destruct (getSourceRef dep); [apply IH|].
  cbv zeta. case_bool_decide; [|done].
  intros Hc%IH. by rewrite length_insert in Hc.
Qed.

Lemma collectDependences_out_of_bounds defUseDeps auxDeps deps dep :
  dep ∈ deps -> getSourceRef dep = None ->
  ~ 0 <= getOperandIdx dep < Z.of_nat (length defUseDeps) ->
  collectDependences defUseDeps auxDeps deps = None.
Proof.
  intros Hin Hsrc Hidx. revert defUseDeps auxDeps Hidx.
  induction deps as [|dep' deps IH]; intros defUseDeps auxDeps Hidx.
  { by apply elem_of_nil in Hin. }
  cbn [collectDependences]. apply elem_of_cons in Hin as [<-|Hin].
  - rewrite Hsrc. cbv zeta. by rewrite bool_decide_eq_false_2.
  - destruct (getSourceRef dep'); [by apply IH|].
    cbv zeta. case_bool_decide; [|done]. apply IH; [done|].
    by rewrite length_insert.
Qed.

Lemma collectDependences_in_bounds defUseDeps auxDeps deps :
  (forall dep, dep ∈ deps -> getSourceRef dep = None ->
     0 <= getOperandIdx dep < Z.of_nat (length defUseDeps)) ->
  is_Some (collectDependences defUseDeps auxDeps deps).
Proof.
  revert defUseDeps auxDeps. induction deps as [|dep deps IH];
    intros defUseDeps auxDeps Hb; cbn [collectDependences]; [done|].
  destruct (getSourceRef dep) eqn:Hsrc.
  - apply IH. intros dep' Hin. apply Hb. by apply elem_of_cons; right.
  - cbv zeta. rewrite bool_decide_eq_true_2
      by (apply Hb; [apply list_elem_of_here|done]).
    apply IH. intros dep' Hin. rewrite length_insert. apply Hb.
    by apply elem_of_cons; right.
Qed.

Lemma length_defUseDeps (op : OperationOp Attribute) :
  Z.of_nat (length (replicate (Z.to_nat (getNumOperands op)) (@None (DependenceAttr Attribute))))
  = getNumOperands op.
Proof.
  rewrite length_replicate. unfold getNumOperands.
  pose proof (Z.mod_pos_bound (Z.of_nat (length (getOperands op))) UINT_RANGE
                ltac:(by unfold UINT_RANGE)).
  lia.
Qed.

Lemma getNumOperands_small (op : OperationOp Attribute) :
  Z.of_nat (length (getOperands op)) < UINT_RANGE ->
  getNumOperands op = Z.of_nat (length (getOperands op)).
Proof. intros Hn. unfold getNumOperands. apply Z.mod_small. lia. Qed.

(** The operand entries print when [defUseDeps] covers the operands. *)
Lemma printOperandEntries_is_Some nameOf defUseDeps (operands : list Value) :
  (length operands <= length defUseDeps)%nat ->
  is_Some (mapM (fun '(operandNumber, operand) =>
                   printOperandEntry nameOf defUseDeps operandNumber operand)
                (imap pair operands)).
Proof.
  intros Hlen. apply mapM_is_Some, Forall_forall.
  intros [i v] (i' & v' & [= <- <-] & Hi)%elem_of_lookup_imap. simpl.
  unfold printOperandEntry.
  apply lookup_lt_Some in Hi.
  destruct (lookup_lt_is_Some_2 defUseDeps i ltac:(lia)) as [[dep|] ->]; done.
Qed.

(** The printer writes no attribute dictionary. *)
Lemma printOptionalAttrDict_elided (op : OperationOp Attribute) :
  printOptionalAttrDict (getAttrs op) ["sym_name"; "dependences"; "properties"] = [].
Proof.
  unfold printOptionalAttrDict, getAttrs.
  by destruct (getDependencesAttr op), (getPropertiesAttr op), (getSymNameAttr op).
Qed.

Lemma print_is_Some nameOf (op : OperationOp Attribute) :
  Z.of_nat (length (getOperands op)) < UINT_RANGE ->
  (forall dep, dep ∈ default [] (getDependencesAttr op) -> getSourceRef dep = None ->
     0 <= getOperandIdx dep < Z.of_nat (length (getOperands op))) ->
  is_Some (print nameOf op).
Proof.
  intros Hn Hb. unfold print.
  destruct (collectDependences_in_bounds
              (replicate (Z.to_nat (getNumOperands op)) None) []
              (default [] (getDependencesAttr op))) as [[defUseDeps auxDeps] Hc].
  { intros dep Hin Hsrc. rewrite length_defUseDeps, getNumOperands_small by done. auto. }
  rewrite Hc. apply collectDependences_length in Hc.
  destruct (printOperandEntries_is_Some nameOf defUseDeps (getOperands op)) as [items ->].
  { rewrite Hc, length_replicate, getNumOperands_small by done. lia. }
  done.
Qed.

Lemma verify_data_in_bounds (op : OperationOp Attribute) dep :
  indicesUnsigned (default [] (getDependencesAttr op)) ->
  verify op = success ->
  dep ∈ default [] (getDependencesAttr op) -> getSourceRef dep = None ->
  0 <= getOperandIdx dep < Z.of_nat (length (getOperands op)).
Proof.
  intros Hu Hok Hin Hsrc. rewrite verify_verifyDependences in Hok.
  pose proof (verifyDependences_data_in_bounds _ (-1) _ _ ltac:(lia) Hu Hok Hin Hsrc) as Hb.
  pose proof (to_int_mod_le (Z.of_nat (length (getOperands op))) ltac:(lia)) as Hle.
  unfold getNumOperands in Hb. lia.
Qed.

End PrintFacts.

Section PrintBounds.

Context {Attribute : Type}.

(** X5: [OperationOp::print] stays inside [defUseDeps] for every operation
    that passes [OperationOp::verify]. *)
Theorem print_verified_in_bounds (nameOf : Value -> UnresolvedOperand)
    (op : OperationOp Attribute) :
  indicesUnsigned (default [] (getDependencesAttr op)) ->
  Z.of_nat (length (getOperands op)) < UINT_RANGE ->
  verify op = success ->
  exists tokens, print nameOf op = Some tokens.
Proof.
  intros Hu Hn Hok. apply print_is_Some; [done|].
  intros dep Hin Hsrc. by apply verify_data_in_bounds.
Qed.

(** X6: A data record whose index is not below the operand count makes
    [OperationOp::print] subscript [defUseDeps] outside its bounds. *)
Theorem print_out_of_bounds (nameOf : Value -> UnresolvedOperand)
    (op : OperationOp Attribute) (dep : DependenceAttr Attribute) :
  dep ∈ default [] (getDependencesAttr op) ->
  getSourceRef dep = None ->
  ~ 0 <= getOperandIdx dep < getNumOperands op ->
  print nameOf op = None.
Proof.
  intros Hin Hsrc Hidx. unfold print.
  rewrite (collectDependences_out_of_bounds _ _ _ dep); [done..|].
  by rewrite length_defUseDeps.
Qed.

End PrintBounds.

Section PrintEntries.

Context {Attribute : Type}.
Implicit Types (dep : DependenceAttr Attribute) (deps auxDeps : list (DependenceAttr Attribute))
  (defUseDeps : list (option (DependenceAttr Attribute)))
  (entry : DependenceEntry Attribute) (entries : list (DependenceEntry Attribute))
  (nameOf : Value -> UnresolvedOperand).

Lemma interleaveComma_app (items items' : list (list (Token Attribute))) :
  interleaveComma (items ++ items')
  = interleaveComma items
    ++ match items' with
       | [] => []
       | _ => match items with [] => [] | _ => [CommaToken] end ++ interleaveComma items'
       end.
Proof.
  destruct items as [|item items]; destruct items' as [|item' items']; simpl;
    rewrite ?app_nil_r; try done.
  rewrite bind_app. simpl. by rewrite <- !app_assoc.
Qed.

Lemma default_nonempty {A : Type} (l : list A) :
  default [] (match l with [] => None | x :: l' => Some (x :: l') end) = l.
Proof. by destruct l. Qed.

(** The records of operand entries fill [defUseDeps] slot by slot. *)
Lemma collectDependences_operand_entries (done : list (option (DependenceAttr Attribute)))
    auxDeps entries deps :
  Forall isOperandEntry entries ->
  collectDependences (done ++ replicate (length entries) None) auxDeps
    (materialized (Z.of_nat (length done)) entries ++ deps)
  = collectDependences
      (done ++ imap (fun j entry => recordOf (Z.of_nat (length done + j)) entry) entries)
      auxDeps deps.
Proof.
  intros Hall. revert done.
  induction Hall as [|entry entries He _ IH]; intros done.
  { done. }
  cbn [length replicate materialized imap].
  assert (forall slot : option (DependenceAttr Attribute),
            collectDependences ((done ++ [slot]) ++ replicate (length entries) None) auxDeps
              (materialized (Z.of_nat (length done) + 1) entries ++ deps)
            = collectDependences
                (done ++ slot ::
                   imap ((fun j entry => recordOf (Z.of_nat (length done + j)) entry) ∘ S)
                        entries)
                auxDeps deps) as Hnext.
  { intros slot. specialize (IH (done ++ [slot])).
    rewrite length_app in IH. simpl in IH.
    replace (Z.of_nat (length done + 1)) with (Z.of_nat (length done) + 1) in IH by lia.
    rewrite IH, <- app_assoc. simpl. do 3 f_equal.
    apply imap_ext. intros j e _. simpl. do 2 f_equal. lia. }
  rewrite Nat.add_0_r.
  assert (recordOf (Z.of_nat (length done)) entry
          = match entryProperties entry with
            | Some properties =>
                Some (mkDependenceAttr (Z.of_nat (length done)) None (Some properties))
            | None => None
            end) as ->.
  { unfold isOperandEntry in He. unfold recordOf.
    by destruct (entrySource entry). }
  destruct (entryProperties entry) as [properties|].
  - cbn [app collectDependences getSourceRef getOperandIdx]. cbv zeta.
    rewrite bool_decide_eq_true_2 by (rewrite length_app; simpl; lia).
    rewrite Nat2Z.id, insert_app_r_alt, Nat.sub_diag by lia. simpl.
    rewrite <- Hnext, <- app_assoc. done.
  - rewrite <- Hnext, <- app_assoc. done.
Qed.

(** The records of symbol references are appended to [auxDeps]. *)
Lemma collectDependences_symbol_entries defUseDeps auxDeps (next : Z) entries :
  Forall isSymbolEntry entries ->
  collectDependences defUseDeps auxDeps (materialized next entries)
  = Some (defUseDeps, auxDeps ++ materialized next entries).
Proof.
  intros Hall. revert auxDeps next.
  induction Hall as [|entry entries He _ IH]; intros auxDeps next; simpl.
  { by rewrite app_nil_r. }
  unfold isSymbolEntry in He. unfold recordOf.
  destruct (entrySource entry) as [sourceRef| |]; try done.
  cbn [collectDependences getSourceRef]. rewrite IH, <- app_assoc. done.
Qed.

Lemma printAuxEntry_symbol_entries (next : Z) entries :
  Forall isSymbolEntry entries ->
  printAuxEntry <$> materialized next entries = renderEntry <$> entries.
Proof.
  intros Hall. revert next.
  induction Hall as [|entry entries He _ IH]; intros next; simpl; [done|].
  unfold isSymbolEntry in He. unfold recordOf, renderEntry at 1.
  destruct (entrySource entry) as [sourceRef| |]; try done.
  cbn [fmap list_fmap]. rewrite IH. done.
Qed.

Lemma printOperandEntries_operand_entries nameOf entries (operands : list Value) :
  Forall2 (fun entry v => entrySource entry = OperandSource (nameOf v)) entries operands ->
  mapM (fun '(operandNumber, operand) =>
          printOperandEntry nameOf
            (imap (fun j entry => recordOf (Z.of_nat j) entry) entries)
            operandNumber operand)
       (imap pair operands)
  = Some (renderEntry <$> entries).
Proof.
  intros Hf. apply mapM_Some_2, Forall2_same_length_lookup_2.
  { rewrite length_imap, length_fmap. symmetry. by eapply Forall2_length. }
  intros i [i' v] items Hi Hitems.
  rewrite list_lookup_imap in Hi. rewrite list_lookup_fmap in Hitems.
  destruct (operands !! i) as [v'|] eqn:Hv; [|done]. injection Hi as <- <-.
  destruct (entries !! i) as [entry|] eqn:He; [|done]. injection Hitems as <-.
  pose proof (Forall2_lookup_lr _ _ _ _ _ _ Hf He Hv) as Hsrc.
  unfold printOperandEntry. rewrite list_lookup_imap, He. simpl.
  unfold recordOf, renderEntry. rewrite Hsrc.
  by destruct (entryProperties entry).
Qed.

(** What [OperationOp::print] writes for the operation of a list in which
    the operands come first. *)
Lemma print_entries nameOf (symName : option string) (operands : list Value)
    (numResults : nat) (properties : ArrayAttr Attribute)
    (operandEntries symbolEntries : list (DependenceEntry Attribute)) :
  Forall isOperandEntry operandEntries ->
  Forall isSymbolEntry symbolEntries ->
  Forall2 (fun entry v => entrySource entry = OperandSource (nameOf v))
          operandEntries operands ->
  Z.of_nat (length operands) < UINT_RANGE ->
  print nameOf
    (mkOperationOp symName operands numResults
       (match materialized 0 (operandEntries ++ symbolEntries) with
        | [] => None
        | deps => Some deps
        end)
       properties)
  = Some (render (mkOperationSyntax symName (operandEntries ++ symbolEntries)
                                    properties [] numResults)).
Proof.
  intros Hops Hsyms Hf Hn. pose proof (Forall2_length _ _ _ Hf) as Hlen.
  unfold print, render. cbv zeta. rewrite printOptionalAttrDict_elided.
  cbn [getSymNameAttr getDependencesAttr getOperands getPropertiesAttr
       synSymName synEntries synProperties synAttrDict].
  rewrite getNumOperands_small by done. cbn [getOperands].
  rewrite Nat2Z.id, default_nonempty, materialized_app, <- Hlen.
  pose proof (collectDependences_operand_entries [] [] operandEntries
                (materialized (0 + Z.of_nat (length operandEntries)) symbolEntries) Hops)
    as Hc.
  cbn [app length] in Hc. change (Z.of_nat 0) with 0 in Hc. rewrite Hc.
  rewrite collectDependences_symbol_entries by done. cbn [app].
  rewrite printOperandEntries_operand_entries by done.
  rewrite printAuxEntry_symbol_entries by done.
  rewrite fmap_app, interleaveComma_app, <- !app_assoc.
  f_equal. f_equal. f_equal. f_equal.
  destruct symbolEntries as [|entry symbolEntries]; [done|].
  apply Forall_cons in Hsyms as [He _]. unfold isSymbolEntry in He.
  cbn [materialized]. unfold recordOf.
  destruct (entrySource entry); try done. cbn [fmap list_fmap].
  by destruct operandEntries.
Qed.

Lemma operandNames_sources entries :
  Forall isOperandEntry entries ->
  Forall2 (fun entry o => entrySource entry = OperandSource o) entries (operandNames entries).
Proof.
  induction 1 as [|entry entries He _ IH]; [constructor|].
  rewrite operandNames_cons. unfold isOperandEntry in He.
  destruct (entrySource entry) eqn:Hsrc; try done. simpl. by constructor.
Qed.

End PrintEntries.

Section PrintParse.

Context {Attribute : Type}.

(** X7: Parsing a text without an attribute dictionary in which the operands
    come first, and printing the operation, gives the text back, when the
    printer names the values as the text does. *)
Theorem parse_print_round_trip (nameOf : Value -> UnresolvedOperand)
    (scope : UnresolvedOperand -> option Value)
    (syn : OperationSyntax Attribute) (op : OperationOp Attribute) :
  synAttrDict syn = [] ->
  operandsLead (synEntries syn) ->
  Z.of_nat (length (synEntries syn)) < UINT_RANGE ->
  (forall o v, o ∈ operandNames (synEntries syn) -> scope o = Some v -> nameOf v = o) ->
  parseOperation scope syn = inr op ->
  print nameOf op = Some (render syn).
Proof.
  intros Hdict (ops & syms & Heq & Hops & Hsyms) Hlen Hnames Hop.
  pose proof Hop as (st & operands & Hparse & Hres & ->)%parseOperation_no_dict; [|done].
  pose proof (parseCommaSeparatedList_inr _ _ _ Hparse) as Hs.
  destruct (parseCommaSeparatedList_spec (synEntries syn) (mkParseState [] [] 0) Hs)
    as (st1 & Hparse1 & Hdeps & _); [simpl; lia..|].
  destruct (parseCommaSeparatedList_operands (synEntries syn) (mkParseState [] [] 0) Hs)
    as (st2 & Hparse2 & Hnm).
  assert (st1 = st) as -> by congruence. assert (st2 = st) as -> by congruence.
  simpl in Hdeps, Hnm. rewrite Hnm in Hres. apply resolveOperands_inr in Hres.
  rewrite Hdeps. destruct syn as [symName entries properties dict numResults].
  simpl in *. subst entries dict.
  rewrite operandNames_app, (operandNames_symbols syms), app_nil_r in Hres, Hnames by done.
  apply print_entries; [done..| |].
  - apply Forall2_same_length_lookup_2.
    { apply Forall2_length in Hres. by rewrite operandNames_operands in Hres. }
    intros i entry v Hi Hv.
    destruct (Forall2_lookup_l _ _ _ _ _ (operandNames_sources ops Hops) Hi)
      as (o & Ho & Hsrc).
    pose proof (Forall2_lookup_lr _ _ _ _ _ _ Hres Ho Hv) as Hscope.
    rewrite Hsrc. f_equal. symmetry. apply Hnames; [|done].
    by eapply list_elem_of_lookup_2.
  - apply Forall2_length in Hres. rewrite operandNames_operands in Hres by done.
    rewrite length_app in Hlen. lia.
Qed.

End PrintParse.

(** ** The grammar is unambiguous *)

Section RenderFacts.

Context {Attribute : Type}.
Implicit Types (entry : DependenceEntry Attribute) (entries : list (DependenceEntry Attribute))
  (item : list (Token Attribute)) (items : list (list (Token Attribute))).

Lemma app_cons_inj_not_in {A : Type} (x : A) (l1 l2 r1 r2 : list A) :
  x ∉ l1 -> x ∉ l2 -> l1 ++ x :: r1 = l2 ++ x :: r2 -> l1 = l2 /\ r1 = r2.
Proof.
  revert l2. induction l1 as [|y l1 IH]; intros [|y' l2] H1 H2 Heq; simpl in *.
  - by injection Heq as ->.
  - injection Heq as <- _. by apply not_elem_of_cons in H2 as [? _].
  - injection Heq as -> _. by apply not_elem_of_cons in H1 as [? _].
  - injection Heq as -> Heq.
    apply not_elem_of_cons in H1 as [_ H1]. apply not_elem_of_cons in H2 as [_ H2].
    destruct (IH l2 H1 H2 Heq) as [-> ->]. done.
Qed.

Lemma elem_of_interleaveComma (token : Token Attribute) items :
  token ∈ interleaveComma items ->
  token = CommaToken \/ exists item, item ∈ items /\ token ∈ item.
Proof.
  destruct items as [|item items]; simpl; [by intros ?%elem_of_nil|].
  intros [Hin|Hin]%elem_of_app.
  - right. exists item. split; [apply list_elem_of_here|done].
  - apply list_elem_of_bind in Hin as (item' & [->|Hin]%elem_of_cons & Hitem); [by left|].
    right. exists item'. split; [by apply elem_of_cons; right|done].
Qed.

Lemma renderEntry_tokens entry (token : Token Attribute) :
  token ∈ renderEntry entry ->
  token ≠ CommaToken /\ token ≠ RParenToken /\ token ≠ NullAttributeToken.
Proof.
  unfold renderEntry.
  destruct (entrySource entry), (entryProperties entry); simpl;
    rewrite ?elem_of_cons, ?elem_of_nil; intros Hin; destruct_or?; by subst.
Qed.

Lemma renderEntry_nonempty entry : hasSource entry -> renderEntry entry ≠ [].
Proof. unfold hasSource, renderEntry. by destruct (entrySource entry). Qed.

Lemma renderEntry_inj entry entry' :
  hasSource entry -> hasSource entry' ->
  renderEntry entry = renderEntry entry' -> entry = entry'.
Proof.
  unfold hasSource, renderEntry.
  destruct entry as [[?|?|] [?|]], entry' as [[?|?|] [?|]]; simpl;
    intros ? ? Heq; try done; by simplify_eq.
Qed.

Lemma separated_inj item item' (rest rest' : list (Token Attribute)) :
  CommaToken ∉ item -> CommaToken ∉ item' ->
  (rest = [] \/ exists r, rest = CommaToken :: r) ->
  (rest' = [] \/ exists r, rest' = CommaToken :: r) ->
  item ++ rest = item' ++ rest' -> item = item' /\ rest = rest'.
Proof.
  intros Hi Hi' [->|[r ->]] [->|[r' ->]] Heq.
  - rewrite !app_nil_r in Heq. done.
  - rewrite app_nil_r in Heq. subst item. exfalso. apply Hi.
    apply elem_of_app. right. apply list_elem_of_here.
  - rewrite app_nil_r in Heq. subst item'. exfalso. apply Hi'.
    apply elem_of_app. right. apply list_elem_of_here.
  - by destruct (app_cons_inj_not_in CommaToken _ _ _ _ Hi Hi' Heq) as [-> ->].
Qed.

Lemma bind_comma_shape items :
  items ≫= (fun item => CommaToken :: item) = [] \/
  exists r, items ≫= (fun item => CommaToken :: item) = CommaToken :: r.
Proof. destruct items; simpl; eauto. Qed.

Lemma bind_comma_inj items items' :
  Forall (fun item => CommaToken ∉ item) items ->
  Forall (fun item => CommaToken ∉ item) items' ->
  items ≫= (fun item => CommaToken :: item) = items' ≫= (fun item => CommaToken :: item) ->
  items = items'.
Proof.
  intros Hall. revert items'.
  induction Hall as [|item items Hi _ IH]; intros [|item' items'] Hall' Heq; try done.
  apply Forall_cons in Hall' as [Hi' Hall']. simpl in Heq. injection Heq as Heq.
  apply separated_inj in Heq as [-> Heq]; try done; try apply bind_comma_shape.
  f_equal. by apply IH.
Qed.

Lemma interleaveComma_inj items items' :
  Forall (fun item => item ≠ [] /\ CommaToken ∉ item) items ->
  Forall (fun item => item ≠ [] /\ CommaToken ∉ item) items' ->
  interleaveComma items = interleaveComma items' -> items = items'.
Proof.
  intros Hall Hall'.
  destruct Hall as [|item items [Hne Hi] Hall], Hall' as [|item' items' [Hne' Hi'] Hall'];
    simpl; intros Heq; try done.
  - symmetry in Heq. apply app_eq_nil in Heq as [? _]. done.
  - apply app_eq_nil in Heq as [? _]. done.
  - apply separated_inj in Heq as [-> Heq]; try done; try apply bind_comma_shape.
    f_equal. apply bind_comma_inj; [| |done].
    + eapply Forall_impl; [exact Hall|]. by intros ? [_ ?].
    + eapply Forall_impl; [exact Hall'|]. by intros ? [_ ?].
Qed.

Lemma rendered_entries entries :
  Forall hasSource entries ->
  Forall (fun item : list (Token Attribute) => item ≠ [] /\ CommaToken ∉ item)
         (renderEntry <$> entries).
Proof.
  intros Hs. apply Forall_fmap. eapply Forall_impl; [exact Hs|].
  intros entry He. simpl. split; [by apply renderEntry_nonempty|].
  intros Hin%renderEntry_tokens. by destruct Hin.
Qed.

Lemma fmap_renderEntry_inj entries entries' :
  Forall hasSource entries -> Forall hasSource entries' ->
  renderEntry <$> entries = renderEntry <$> entries' -> entries = entries'.
Proof.
  intros Hs. revert entries'.
  induction Hs as [|entry entries He _ IH]; intros [|entry' entries'] Hs' Heq; try done.
  apply Forall_cons in Hs' as [He' Hs']. injection Heq as Hentry Heq.
  f_equal; [by apply renderEntry_inj|by apply IH].
Qed.


(** The grammar is unambiguous: a text is the text of one list of entries. *)
Lemma render_inj (syn syn' : OperationSyntax Attribute) :
  Forall hasSource (synEntries syn) -> Forall hasSource (synEntries syn') ->
  render syn = render syn' ->
  synSymName syn = synSymName syn' /\ synEntries syn = synEntries syn' /\
  synProperties syn = synProperties syn' /\ synAttrDict syn = synAttrDict syn'.
Proof.
  intros Hs Hs'. unfold render.
  assert (forall entries : list (DependenceEntry Attribute),
            RParenToken ∉ interleaveComma (renderEntry <$> entries)) as Hrp.
  { intros entries [?|(item & Hitem & Hin)]%elem_of_interleaveComma; [done|].
    apply list_elem_of_fmap in Hitem as (entry & -> & _).
    apply renderEntry_tokens in Hin. by destruct Hin as (_ & ? & _). }
  assert (forall entries entries' (p p' : list (Token Attribute)),
            [LParenToken] ++ interleaveComma (renderEntry <$> entries) ++ [RParenToken] ++ p
            = [LParenToken] ++ interleaveComma (renderEntry <$> entries')
              ++ [RParenToken] ++ p' ->
            Forall hasSource entries -> Forall hasSource entries' ->
            entries = entries' /\ p = p') as Hbody.
  { intros entries entries' p p' [= Heq] He He'.
    apply app_cons_inj_not_in in Heq as [Heq ->]; [|done..]. split; [|done].
    apply interleaveComma_inj in Heq; [|by apply rendered_entries..].
    by apply fmap_renderEntry_inj. }
  destruct (synSymName syn) as [name|], (synSymName syn') as [name'|]; simpl;
    intros Heq; try done.
  - injection Heq as -> Heq.
    destruct (Hbody _ _ _ _ (f_equal (cons LParenToken) Heq) Hs Hs') as [-> Hp].
    destruct (synProperties syn), (synProperties syn'),
      (synAttrDict syn), (synAttrDict syn'); by simplify_eq.
  - destruct (Hbody _ _ _ _ Heq Hs Hs') as [-> Hp].
    destruct (synProperties syn), (synProperties syn'),
      (synAttrDict syn), (synAttrDict syn'); by simplify_eq.
Qed.

End RenderFacts.

(** ** Printing and parsing back *)

Section SyntaxOf.

Context {Attribute : Type}.
Implicit Types (dep : DependenceAttr Attribute) (deps : list (DependenceAttr Attribute))
  (nameOf : Value -> UnresolvedOperand).

Lemma filter_all {A : Type} (P : A -> Prop) `{forall x, Decision (P x)} (l : list A) :
  Forall P l -> filter P l = l.
Proof.
  induction 1 as [|x l Hx _ IH]; [done|]. rewrite filter_cons_True by done. by rewrite IH.
Qed.

Lemma notInterleaved_split deps :
  notInterleaved deps -> deps = filter isDataRecord deps ++ filter isAuxRecord deps.
Proof.
  induction deps as [|dep deps IH]; [done|]. intros [Haux Hrest].
  destruct (decide (isDataRecord dep)) as [Hd|Hd].
  - rewrite filter_cons_True by done.
    rewrite (filter_cons_False isAuxRecord) by (unfold isAuxRecord, isDataRecord in *; tauto).
    simpl. f_equal. by apply IH.
  - assert (isAuxRecord dep) as Ha by done. specialize (Haux Ha).
    rewrite filter_cons_False by done. rewrite filter_cons_True by done.
    destruct (all_aux_indices _ Haux) as [Hdata _].
    assert (filter isDataRecord deps = []) as ->.
    { unfold dataIndices in Hdata. by apply fmap_nil_inv in Hdata. }
    simpl. f_equal. symmetry. by apply filter_all.
Qed.

Lemma strictlyIncreasing_inj {A : Type} (f : A -> Z) (l : list A) (x y : A) :
  strictlyIncreasing (f <$> l) -> x ∈ l -> y ∈ l -> f x = f y -> x = y.
Proof.
  induction l as [|z l IH]; [by intros _ ?%elem_of_nil|].
  cbn [fmap list_fmap strictlyIncreasing]. intros [Hlt Hinc].
  rewrite Forall_fmap, Forall_forall in Hlt. simpl in Hlt.
  intros [->|Hx]%elem_of_cons [->|Hy]%elem_of_cons Heq; auto.
  - specialize (Hlt _ Hy). lia.
  - specialize (Hlt _ Hx). lia.
Qed.

Lemma dataPropertiesAt_record deps dep :
  strictlyIncreasing (dataIndices deps) ->
  dep ∈ deps -> getSourceRef dep = None ->
  dataPropertiesAt deps (getOperandIdx dep) = getProperties dep.
Proof.
  intros Hinc Hin Hsrc. unfold dataPropertiesAt.
  destruct (list_find _ deps) as [[i dep']|] eqn:Hfind.
  - apply list_find_Some in Hfind as (Hi & [Hsrc' Hidx] & _).
    f_equal. apply (strictlyIncreasing_inj getOperandIdx (filter isDataRecord deps));
      [done| | |done].
    + apply list_elem_of_filter. split; [done|]. by eapply list_elem_of_lookup_2.
    + by apply list_elem_of_filter.
  - apply list_find_None in Hfind. rewrite Forall_forall in Hfind.
    exfalso. by apply (Hfind dep).
Qed.

Lemma dataPropertiesAt_none deps (idx : Z) :
  (forall dep, dep ∈ deps -> getSourceRef dep = None -> getOperandIdx dep ≠ idx) ->
  dataPropertiesAt deps idx = None.
Proof.
  intros Hno. unfold dataPropertiesAt.
  destruct (list_find _ deps) as [[i dep']|] eqn:Hfind; [|done].
  apply list_find_Some in Hfind as (Hi & [Hsrc' Hidx] & _).
  exfalso. apply (Hno dep'); [by eapply list_elem_of_lookup_2|done..].
Qed.

(** The operand entries that carry the properties of the data records give
    the data records back. *)
Lemma materialized_data_entries nameOf (propertiesAt : Z -> ArrayAttr Attribute)
    (dataDeps : list (DependenceAttr Attribute)) (k : nat) (operands : list Value) :
  Forall (fun dep =>
            getSourceRef dep = None /\ is_Some (getProperties dep) /\
            propertiesAt (getOperandIdx dep) = getProperties dep /\
            Z.of_nat k <= getOperandIdx dep < Z.of_nat (k + length operands)) dataDeps ->
  strictlyIncreasing (getOperandIdx <$> dataDeps) ->
  (forall idx, Z.of_nat k <= idx ->
     (forall dep, dep ∈ dataDeps -> getOperandIdx dep ≠ idx) -> propertiesAt idx = None) ->
  materialized (Z.of_nat k)
    (imap (fun i operand =>
             mkDependenceEntry (OperandSource (nameOf operand))
                               (propertiesAt (Z.of_nat (k + i))))
          operands)
  = dataDeps.
Proof.
  revert k dataDeps. induction operands as [|operand operands IH];
    intros k dataDeps Hall Hinc Hnone.
  { destruct dataDeps as [|dep dataDeps]; [done|].
    apply Forall_cons in Hall as [(_ & _ & _ & Hr) _]. simpl in Hr. lia. }
  cbn [imap materialized]. rewrite Nat.add_0_r.
  assert (forall dataDeps',
            Forall (fun dep =>
                      getSourceRef dep = None /\ is_Some (getProperties dep) /\
                      propertiesAt (getOperandIdx dep) = getProperties dep /\
                      Z.of_nat (S k) <= getOperandIdx dep
                        < Z.of_nat (S k + length operands)) dataDeps' ->
            strictlyIncreasing (getOperandIdx <$> dataDeps') ->
            (forall idx, Z.of_nat (S k) <= idx ->
               (forall dep, dep ∈ dataDeps' -> getOperandIdx dep ≠ idx) ->
               propertiesAt idx = None) ->
            materialized (Z.of_nat k + 1)
              (imap ((fun i operand =>
                        mkDependenceEntry (OperandSource (nameOf operand))
                                          (propertiesAt (Z.of_nat (k + i)))) ∘ S)
                    operands)
            = dataDeps') as Hnext.
  { intros dataDeps' Hall' Hinc' Hnone'.
    rewrite <- (IH (S k) dataDeps' Hall' Hinc' Hnone').
    replace (Z.of_nat (S k)) with (Z.of_nat k + 1) by lia. f_equal.
    apply imap_ext. intros i v _. simpl. do 2 f_equal. lia. }
  destruct dataDeps as [|dep dataDeps].
  { rewrite (Hnone (Z.of_nat k)); [|lia|by intros ? ?%elem_of_nil].
    unfold recordOf. simpl. apply Hnext; [constructor|done|].
    intros idx Hidx _. apply Hnone; [lia|by intros ? ?%elem_of_nil]. }
  cbn [fmap list_fmap strictlyIncreasing] in Hinc. destruct Hinc as [Hlt Hinc].
  rewrite Forall_fmap, Forall_forall in Hlt. simpl in Hlt.
  pose proof Hall as Hall0. apply Forall_cons in Hall as [(Hsrc & [props Hprops] & Hat & Hr) Hall].
  destruct (decide (getOperandIdx dep = Z.of_nat k)) as [Heq|Hne].
  - rewrite <- Heq, Hat, Hprops. unfold recordOf. simpl.
    assert (mkDependenceAttr (getOperandIdx dep) None (Some props) = dep) as ->.
    { destruct dep; simpl in *. by subst. }
    f_equal. rewrite Heq. apply Hnext; [|done|].
    + apply Forall_forall. intros dep' Hin. rewrite Forall_forall in Hall.
      destruct (Hall _ Hin) as (? & ? & ? & ?). specialize (Hlt _ Hin).
      split_and!; try done; simpl in *; lia.
    + intros idx Hidx Hno. apply Hnone; [lia|].
      intros dep' [->|Hin]%elem_of_cons; [lia|by apply Hno].
  - assert (forall dep', dep' ∈ dep :: dataDeps -> Z.of_nat (S k) <= getOperandIdx dep') as Hgt.
    { intros dep' [->|Hin]%elem_of_cons; [lia|]. specialize (Hlt _ Hin). lia. }
    rewrite (Hnone (Z.of_nat k)); [|lia|].
    2:{ intros dep' Hin. specialize (Hgt _ Hin). lia. }
    unfold recordOf. simpl. apply Hnext.
    + apply Forall_forall. intros dep' Hin. rewrite Forall_forall in Hall0.
      destruct (Hall0 _ Hin) as (? & ? & ? & ?). specialize (Hgt _ Hin).
      split_and!; try done; simpl in *; lia.
    + cbn [fmap list_fmap strictlyIncreasing]. split; [|done].
      rewrite Forall_fmap, Forall_forall. done.
    + intros idx Hidx Hno. apply Hnone; [lia|done].
Qed.

Lemma materialized_aux_entries (next : Z) deps :
  consecutiveFrom next (auxIndices deps) ->
  materialized next (omap auxEntryOf deps) = filter isAuxRecord deps.
Proof.
  revert next. induction deps as [|dep deps IH]; intros next Hcons; [done|].
  cbn [omap list_omap]. unfold auxEntryOf at 1.
  destruct (getSourceRef dep) as [sourceRef|] eqn:Hsrc.
  - rewrite auxIndices_cons_aux in Hcons by congruence. destruct Hcons as [Hidx Hcons].
    rewrite filter_cons_True by (unfold isAuxRecord; congruence).
    cbn [materialized]. unfold recordOf. simpl. rewrite (IH _ Hcons). f_equal.
    destruct dep; simpl in *. by subst.
  - rewrite auxIndices_cons_data in Hcons by done.
    rewrite filter_cons_False by (unfold isAuxRecord; tauto). by apply IH.
Qed.

Lemma aux_entries_symbols deps : Forall isSymbolEntry (omap auxEntryOf deps).
Proof.
  apply Forall_forall. intros entry (dep & _ & Hentry)%list_elem_of_omap.
  unfold auxEntryOf in Hentry. destruct (getSourceRef dep); [|done].
  by injection Hentry as <-.
Qed.

Lemma length_aux_entries deps : (length (omap auxEntryOf deps) <= length deps)%nat.
Proof.
  induction deps as [|dep deps IH]; [done|]. cbn [omap list_omap].
  fold (omap auxEntryOf deps). destruct (auxEntryOf dep); cbn [length]; lia.
Qed.

Lemma entriesOf_split nameOf (op : OperationOp Attribute) :
  entriesOf nameOf op
  = imap (fun i operand =>
            mkDependenceEntry (OperandSource (nameOf operand))
              (dataPropertiesAt (default [] (getDependencesAttr op)) (Z.of_nat (0 + i))))
         (getOperands op)
    ++ omap auxEntryOf (default [] (getDependencesAttr op)).
Proof. done. Qed.

Lemma operand_entries_operands nameOf (propertiesAt : nat -> ArrayAttr Attribute)
    (operands : list Value) :
  let entries := imap (fun i operand =>
                         mkDependenceEntry (OperandSource (nameOf operand)) (propertiesAt i))
                      operands in
  Forall isOperandEntry entries /\
  Forall2 (fun entry v => entrySource entry = OperandSource (nameOf v)) entries operands.
Proof.
  revert propertiesAt. induction operands as [|v operands IH]; intros propertiesAt; simpl.
  { split; constructor. }
  destruct (IH (propertiesAt ∘ S)) as [Hall Hf].
  split; constructor; done.
Qed.

(** The entries of a verified operation whose data records carry property
    lists materialize to its records. *)
Lemma materialized_entriesOf nameOf (op : OperationOp Attribute) :
  recordInvariant (Z.of_nat (length (getOperands op)))
                  (default [] (getDependencesAttr op)) ->
  indicesUnsigned (default [] (getDependencesAttr op)) ->
  (forall dep, dep ∈ default [] (getDependencesAttr op) -> getSourceRef dep = None ->
     is_Some (getProperties dep)) ->
  materialized 0 (entriesOf nameOf op) = default [] (getDependencesAttr op).
Proof.
  set (deps := default [] (getDependencesAttr op)).
  intros [Hinc Hrange Hainc Hcons Hinter] Hu Hprops.
  rewrite entriesOf_split. fold deps. rewrite materialized_app, length_imap.
  etrans; [|symmetry; apply (notInterleaved_split deps Hinter)]. f_equal.
  - apply (materialized_data_entries nameOf (dataPropertiesAt deps) _ 0%nat).
    + apply Forall_forall. intros dep [Hsrc Hin]%list_elem_of_filter.
      unfold isDataRecord in Hsrc. split_and!; [done|by apply Hprops| | |].
      * by apply dataPropertiesAt_record.
      * unfold indicesUnsigned in Hu. rewrite Forall_forall in Hu.
        destruct (Hu _ Hin). simpl. lia.
      * unfold dataIndices in Hrange. rewrite Forall_fmap, Forall_forall in Hrange.
        specialize (Hrange dep). simpl in *. apply Hrange.
        by apply list_elem_of_filter.
    + exact Hinc.
    + intros idx _ Hno. apply dataPropertiesAt_none. intros dep Hin Hsrc.
      apply Hno. by apply list_elem_of_filter.
  - rewrite Z.add_0_l. by apply materialized_aux_entries.
Qed.

End SyntaxOf.

Section PrintSyntax.

Context {Attribute : Type}.

(** The text that [OperationOp::print] writes for a verified operation whose
    data records carry property lists, and what [OperationOp::parse] reads
    from it. *)
Lemma print_syntaxOf (nameOf : Value -> UnresolvedOperand)
    (scope : UnresolvedOperand -> option Value) (op : OperationOp Attribute) :
  let deps := default [] (getDependencesAttr op) in
  indicesUnsigned deps ->
  Z.of_nat (length (getOperands op)) + Z.of_nat (length deps) <= INT_MAX ->
  verify op = success ->
  getDependencesAttr op ≠ Some [] ->
  (forall dep, dep ∈ deps -> getSourceRef dep = None -> is_Some (getProperties dep)) ->
  (forall v, v ∈ getOperands op -> scope (nameOf v) = Some v) ->
  Forall hasSource (entriesOf nameOf op) /\
  print nameOf op = Some (render (syntaxOf nameOf op)) /\
  parseOperation scope (syntaxOf nameOf op) = inr op.
Proof.
  intros deps Hu Hlen Hok Hnonempty Hprops Hscope.
  assert (recordInvariant (Z.of_nat (length (getOperands op))) deps) as Hinv.
  { unfold deps in *.
    rewrite verify_verifyDependences, to_int_getNumOperands in Hok by lia.
    apply verifyDependences_data_phase in Hok as [_ ?]; [done|lia..|done]. }
  pose proof (materialized_entriesOf nameOf op Hinv Hu Hprops) as Hmat. fold deps in Hmat.
  pose proof (entriesOf_split nameOf op) as Hsplit. fold deps in Hsplit.
  destruct (operand_entries_operands nameOf
              (fun i => dataPropertiesAt deps (Z.of_nat (0 + i))) (getOperands op))
    as [Hops Hf].
  pose proof (aux_entries_symbols deps) as Hsyms.
  pose proof (length_aux_entries deps) as Hauxlen.
  assert (Forall hasSource (entriesOf nameOf op)) as Hs.
  { rewrite Hsplit. apply Forall_app. split.
    - eapply Forall_impl; [exact Hops|]. intros entry. unfold isOperandEntry, hasSource.
      by destruct (entrySource entry).
    - eapply Forall_impl; [exact Hsyms|]. intros entry. unfold isSymbolEntry, hasSource.
      by destruct (entrySource entry). }
  assert (op = mkOperationOp (getSymNameAttr op) (getOperands op) (getNumResults op)
                 (match materialized 0 (entriesOf nameOf op) with
                  | [] => None
                  | deps' => Some deps'
                  end)
                 (getPropertiesAttr op)) as Hop.
  { rewrite Hmat. unfold deps. destruct op as [? ? ? [[|]|] ?]; simpl in *; done. }
  split_and!; [done| |].
  - rewrite Hop at 1. rewrite Hsplit. unfold syntaxOf. rewrite Hsplit.
    apply print_entries; [done..|]. unfold UINT_RANGE, INT_MAX in *. lia.
  - apply parseOperation_no_dict; [done|].
    destruct (parseCommaSeparatedList_spec (entriesOf nameOf op) (mkParseState [] [] 0) Hs)
      as (st & Hst & Hdeps & _).
    { simpl. lia. }
    { simpl. rewrite Hsplit, length_app, length_imap.
      unfold UINT_RANGE, INT_MAX in *. lia. }
    destruct (parseCommaSeparatedList_operands (entriesOf nameOf op)
                (mkParseState [] [] 0) Hs) as (st' & Hst' & Hnames).
    assert (st' = st) as -> by congruence. simpl in Hdeps, Hnames.
    exists st, (getOperands op). simpl. split_and!; [done| |].
    + apply resolveOperands_inr. rewrite Hnames, Hsplit.
      rewrite operandNames_app, (operandNames_symbols (omap _ _)), app_nil_r by done.
      apply Forall2_same_length_lookup_2.
      { rewrite operandNames_operands by done. by rewrite length_imap. }
      intros i o v Ho Hv.
      destruct (Forall2_lookup_r _ _ _ _ _ (operandNames_sources _ Hops) Ho)
        as (entry & Hentry & Hsrc).
      pose proof (Forall2_lookup_lr _ _ _ _ _ _ Hf Hentry Hv) as Hsrc'.
      assert (o = nameOf v) as -> by congruence.
      apply Hscope. by eapply list_elem_of_lookup_2.
    + rewrite Hdeps. exact Hop.
Qed.

(** A text and a result count determine the syntax. *)
Lemma rendered_syntax_unique (syn syn' : OperationSyntax Attribute) :
  Forall hasSource (synEntries syn) -> Forall hasSource (synEntries syn') ->
  render syn = render syn' -> synNumResults syn = synNumResults syn' -> syn = syn'.
Proof.
  intros Hs Hs' Hrender Hres.
  destruct (render_inj syn syn' Hs Hs' Hrender) as (Hsym & Hentries & Hp & Hdict).
  destruct syn, syn'. simpl in *. by subst.
Qed.

End PrintSyntax.

Section PrintRoundTrip.

Context {Attribute : Type}.

(** X8: What [OperationOp::print] writes for a verified operation whose data
    records carry property lists is a text of the grammar, and
    [OperationOp::parse] reads the operation back from it, whichever way the
    text is read. The names the printer writes resolve to the values. *)
Theorem print_parse_round_trip (nameOf : Value -> UnresolvedOperand)
    (scope : UnresolvedOperand -> option Value) (op : OperationOp Attribute) :
  let deps := default [] (getDependencesAttr op) in
  indicesUnsigned deps ->
  Z.of_nat (length (getOperands op)) + Z.of_nat (length deps) <= INT_MAX ->
  verify op = success ->
  getDependencesAttr op ≠ Some [] ->
  (forall dep, dep ∈ deps -> getSourceRef dep = None -> is_Some (getProperties dep)) ->
  (forall v, v ∈ getOperands op -> scope (nameOf v) = Some v) ->
  exists tokens,
    print nameOf op = Some tokens /\
    (exists syn, Forall hasSource (synEntries syn) /\ render syn = tokens) /\
    (forall syn,
       Forall hasSource (synEntries syn) -> render syn = tokens ->
       synNumResults syn = getNumResults op ->
       parseOperation scope syn = inr op).
Proof.
  intros deps Hu Hlen Hok Hnonempty Hprops Hscope.
  destruct (print_syntaxOf nameOf scope op Hu Hlen Hok Hnonempty Hprops Hscope)
    as (Hs & Hprint & Hparse).
  exists (render (syntaxOf nameOf op)). split_and!; [done|by exists (syntaxOf nameOf op)|].
  intros syn Hs' Hrender Hres.
  by rewrite (rendered_syntax_unique syn (syntaxOf nameOf op)).
Qed.

End PrintRoundTrip.

Section PrintNull.

Context {Attribute : Type}.
Implicit Types (dep : DependenceAttr Attribute) (deps auxDeps : list (DependenceAttr Attribute))
  (defUseDeps : list (option (DependenceAttr Attribute)))
  (nameOf : Value -> UnresolvedOperand).






End PrintNull.

Section PrintNullTheorems.

Context {Attribute : Type}.


End PrintNullTheorems.

(** ** Loading verified instances; the order of the kind list *)

Section VerifiedLoad.

Context {Attribute ProblemT : Type} {model : ProblemModel Attribute ProblemT}.
Implicit Types (instOp : InstanceOp Attribute) (opOp : OperationOp Attribute)
  (depAttr : DependenceAttr Attribute) (prob : ProblemT).

Lemma foldlE_error {A E S : Type} (Bad : E -> Prop) (body : S -> A -> E + S)
    (l : list A) (s : S) (err : E) :
  (forall s x err, x ∈ l -> body s x = inl err -> Bad err) ->
  foldlE body s l = inl err -> Bad err.
Proof.
  revert s. induction l as [|x l IH]; intros s Hbody; simpl; [done|].
  destruct (body s x) as [err'|s'] eqn:Hx.
  - intros [= <-]. eapply Hbody; [apply list_elem_of_here|done].
  - apply IH. intros s0 y err0 Hin. apply Hbody. by apply elem_of_cons; right.
Qed.

(** One record of a verified operation: the source resolves and the operand
    exists, so only the insertion can end the load. *)
Lemma loadDependence_verified (depKinds : list (PropertyKind Attribute ProblemT Dependence))
    instOp (op : Operation) opOp prob depAttr :
  indicesUnsigned (default [] (getDependencesAttr opOp)) ->
  verify opOp = success ->
  verifySymbolUses instOp opOp = success ->
  depAttr ∈ default [] (getDependencesAttr opOp) ->
  match loadDependence depKinds instOp op opOp prob depAttr with
  | inl err =>
      err = AssertInsertionSucceeded /\
      exists sourceOp, insertDependence (AuxDep sourceOp op) prob = None
  | inr _ => True
  end.
Proof.
  intros Hu Hok Hsym Hin. unfold loadDependence.
  destruct (getSourceRef depAttr) as [sourceRef|] eqn:Hsrc.
  - unfold verifySymbolUses in Hsym.
    destruct (getDependencesAttr opOp) as [deps|]; [|by apply elem_of_nil in Hin].
    simpl in Hin. apply verifySymbolUsesIn_success in Hsym.
    rewrite Forall_forall in Hsym.
    destruct (Hsym _ Hin _ Hsrc) as (sourceOp & -> & _).
    destruct (insertDependence _ prob) eqn:Hins; [done|]. eauto.
  - destruct (verify_data_in_bounds opOp depAttr Hu Hok Hin Hsrc) as [Hlo Hhi].
    unfold getOpOperand. by rewrite bool_decide_eq_true_2.
Qed.

End VerifiedLoad.

Section VerifiedLoadTheorems.

Context {Attribute ProblemT : Type} {model : ProblemModel Attribute ProblemT}.

(** X10: Loading an instance whose operations pass [verify] and
    [verifySymbolUses] trips neither [assert(sourceOp)] nor an operand
    access out of bounds: the load can only end on an insertion that the
    problem rejects, and returns a problem when the problem rejects none. *)
Theorem verified_instance_load (instOp : InstanceOp Attribute)
    (opKinds : list (PropertyKind Attribute ProblemT Operation))
    (oprKinds : list (PropertyKind Attribute ProblemT OperatorType))
    (depKinds : list (PropertyKind Attribute ProblemT Dependence))
    (instKinds : list (PropertyKind Attribute ProblemT unit)) :
  (forall op opOp,
     getBody instOp !! op = Some (OperationDecl opOp) ->
     indicesUnsigned (default [] (getDependencesAttr opOp)) /\
     verify opOp = success /\ verifySymbolUses instOp opOp = success) ->
  (forall err,
     loadProblem instOp opKinds oprKinds depKinds instKinds = inl err ->
     err = AssertInsertionSucceeded) /\
  ((forall dep (prob : ProblemT), is_Some (insertDependence dep prob)) ->
   exists prob, loadProblem instOp opKinds oprKinds depKinds instKinds = inr prob).
Proof.
  intros Hverified.
  assert (forall (entry : Operation * OperationOp Attribute) (prob : ProblemT) depAttr,
            entry ∈ operationOps instOp ->
            depAttr ∈ default [] (getDependencesAttr entry.2) ->
            match loadDependence depKinds instOp entry.1 entry.2 prob depAttr with
            | inl err =>
                err = AssertInsertionSucceeded /\
                exists sourceOp, insertDependence (AuxDep sourceOp entry.1) prob = None
            | inr _ => True
            end) as Hstep.
  { intros [op opOp] prob depAttr Hentry%elem_of_operationOps Hin.
    destruct (Hverified _ _ Hentry) as (Hu & Hok & Hsym).
    by apply loadDependence_verified. }
  split.
  - intros err. unfold loadProblem.
    apply (foldlE_error (fun err => err = AssertInsertionSucceeded)).
    intros prob [op opOp] err' Hentry. unfold loadDependences.
    destruct (getDependencesAttr opOp) as [deps|] eqn:Hdeps; [|done].
    apply (foldlE_error (fun err => err = AssertInsertionSucceeded)).
    intros prob' depAttr err'' Hin Hload.
    specialize (Hstep (op, opOp) prob' depAttr Hentry). simpl in Hstep.
    rewrite Hdeps, Hload in Hstep. by destruct (Hstep Hin).
  - intros Haccepts. unfold loadProblem. apply foldlE_succeeds.
    intros [op opOp] prob Hentry. unfold loadDependences.
    destruct (getDependencesAttr opOp) as [deps|] eqn:Hdeps; [|by eauto].
    apply foldlE_succeeds. intros depAttr prob' Hin.
    specialize (Hstep (op, opOp) prob' depAttr Hentry). simpl in Hstep.
    rewrite Hdeps in Hstep. specialize (Hstep Hin).
    destruct (loadDependence _ _ _ _ _ _) as [err|prob'']; [|by eauto].
    destruct Hstep as [_ [sourceOp Hnone]].
    destruct (Haccepts (AuxDep sourceOp op) prob') as [? Hsome]. congruence.
Qed.

End VerifiedLoadTheorems.

Section DispatchOrder.

Context {Attribute ProblemT : Type} {model : ProblemModel Attribute ProblemT}.
Context {Target : Type}.
Implicit Types (kind : PropertyKind Attribute ProblemT Target)
  (kinds : list (PropertyKind Attribute ProblemT Target))
  (prop : Attribute) (props : list Attribute).

(** When at most one kind of the list decodes the value, the switch runs
    that kind, wherever it stands in the list. *)
Lemma typeSwitch_unique kinds kind prop (prob : ProblemT) (target : Target) :
  (forall kind', kind' ∈ kinds -> classof kind' prop = true -> kind' = kind) ->
  kind ∈ kinds -> classof kind prop = true ->
  typeSwitch kinds prop prob target = setInProblem kind prop prob target.
Proof.
  intros Huniq Hin Hacc. induction kinds as [|kind0 kinds IH]; [by apply elem_of_nil in Hin|].
  simpl. destruct (classof kind0 prop) eqn:Hacc0.
  - by rewrite (Huniq kind0 (list_elem_of_here _ _) Hacc0).
  - apply elem_of_cons in Hin as [->|Hin]; [congruence|].
    apply IH; [|done]. intros kind' Hin'. apply Huniq. by apply elem_of_cons; right.
Qed.

Lemma typeSwitch_cases kinds prop (prob : ProblemT) (target : Target) :
  unrecognized kinds prop \/
  exists kind, kind ∈ kinds /\ classof kind prop = true.
Proof.
  induction kinds as [|kind kinds [IH|(kind' & Hin & Hacc)]].
  - left. constructor.
  - destruct (classof kind prop) eqn:Hacc.
    + right. exists kind. split; [apply list_elem_of_here|done].
    + left. by constructor.
  - right. exists kind'. split; [by apply elem_of_cons; right|done].
Qed.

Lemma typeSwitch_permutation kinds kinds' prop (prob : ProblemT) (target : Target) :
  kinds ≡ₚ kinds' ->
  (forall kind kind', kind ∈ kinds -> kind' ∈ kinds ->
     classof kind prop = true -> classof kind' prop = true -> kind = kind') ->
  typeSwitch kinds prop prob target = typeSwitch kinds' prop prob target.
Proof.
  intros Hperm Hdisj.
  destruct (typeSwitch_cases kinds prop prob target) as [Hnone|(kind & Hin & Hacc)].
  - rewrite (typeSwitch_unrecognized kinds) by done.
    rewrite (typeSwitch_unrecognized kinds'); [done|].
    unfold unrecognized in *. rewrite Forall_forall in Hnone.
    apply Forall_forall. intros kind Hin. apply Hnone. by rewrite Hperm.
  - assert (kind ∈ kinds') as Hin' by (by rewrite <- Hperm).
    rewrite (typeSwitch_unique kinds kind) by (try done; intros; by apply Hdisj).
    rewrite (typeSwitch_unique kinds' kind); try done.
    intros kind' Hk Hacc'. rewrite <- Hperm in Hk. by apply Hdisj.
Qed.

End DispatchOrder.

Section DispatchOrderTheorems.

Context {Attribute ProblemT : Type} {model : ProblemModel Attribute ProblemT}.
Context {Target : Type}.

(** X11: When no value of the array is decoded by two kinds of the list, the
    order of the kind list does not matter: the load with a permuted list
    gives the same problem. *)
Theorem dispatch_order_irrelevant_when_disjoint
    (kinds kinds' : list (PropertyKind Attribute ProblemT Target))
    (props : list Attribute) (prob : ProblemT) (target : Target) :
  kinds ≡ₚ kinds' ->
  (forall prop kind kind',
     prop ∈ props -> kind ∈ kinds -> kind' ∈ kinds ->
     classof kind prop = true -> classof kind' prop = true -> kind = kind') ->
  loadProperties kinds prob target (Some props)
  = loadProperties kinds' prob target (Some props).
Proof.
  intros Hperm Hdisj. rewrite !loadProperties_Some. revert prob.
  induction props as [|prop props IH]; intros prob; simpl; [done|].
  rewrite (typeSwitch_permutation kinds kinds') by
    (try done; intros ? ?; apply Hdisj; apply list_elem_of_here).
  apply IH. intros prop' kind kind' Hin. apply Hdisj. by apply elem_of_cons; right.
Qed.

End DispatchOrderTheorems.

(** ** The names that [saveProblem] assigns *)

Section SaveNames.

Context {Attribute ProblemT : Type} {model : ProblemModel Attribute ProblemT}.
Implicit Types (prob : ProblemT) (deps : list Dependence)
  (opKinds : list (PropertyKind Attribute ProblemT Operation))
  (oprKinds : list (PropertyKind Attribute ProblemT OperatorType))
  (depKinds : list (PropertyKind Attribute ProblemT Dependence))
  (instKinds : list (PropertyKind Attribute ProblemT unit))
  (opNames : gmap Operation string) (op src : Operation)
  (operationNameFn : Operation -> option string).

Lemma emitOperations_inr opKinds depKinds prob opNames (ops : list Operation)
    (opOps : list (OperationOp Attribute)) :
  emitOperations opKinds depKinds prob opNames ops = inr opOps ->
  Forall2 (fun op opOp => emitOperation opKinds depKinds prob opNames op = inr opOp)
          ops opOps.
Proof.
  revert opOps. induction ops as [|op ops IH]; intros opOps; simpl.
  { intros [= <-]. constructor. }
  destruct (emitOperation _ _ _ _ op) as [err|opOp] eqn:Hop; [done|].
  destruct (emitOperations _ _ _ _ ops) as [err|opOps'] eqn:Hops; [done|].
  intros [= <-]. constructor; [done|]. by apply IH.
Qed.

Lemma emitOperations_inl opKinds depKinds prob opNames (ops : list Operation)
    (err : SaveError) :
  emitOperations opKinds depKinds prob opNames ops = inl err ->
  exists op, op ∈ ops /\ emitOperation opKinds depKinds prob opNames op = inl err.
Proof.
  induction ops as [|op ops IH]; simpl; [done|].
  destruct (emitOperation _ _ _ _ op) as [err'|opOp] eqn:Hop.
  - intros [= <-]. exists op. split; [apply list_elem_of_here|done].
  - destruct (emitOperations _ _ _ _ ops) as [err'|opOps'] eqn:Hops; [|done].
    intros [= <-]. destruct (IH eq_refl) as (op' & Hin & Herr).
    exists op'. split; [by apply elem_of_cons; right|done].
Qed.

(** With the name table of the naming pass, the emission of the dependences
    of an operation of the problem finds every source name. *)
Lemma emitDependences_nameTable depKinds prob operationNameFn op :
  op ∈ getOperations prob ->
  exists depAttrs,
    emitDependences depKinds prob (nameTable operationNameFn prob) op = inr depAttrs.
Proof.
  intros Hin. unfold emitDependences.
  edestruct (foldlE_emitDependence_emitted depKinds prob (nameTable operationNameFn prob)
               (getDependences prob op) []) as [idx' ->]; [|by eauto].
  intros src dst Hdep. by eapply nameTable_names_sources.
Qed.

Lemma emitOperation_symName opKinds depKinds prob opNames op (opOp : OperationOp Attribute) :
  emitOperation opKinds depKinds prob opNames op = inr opOp ->
  getSymNameAttr opOp = opNames !! op.
Proof.
  unfold emitOperation. destruct (emitDependences _ _ _ _); [done|].
  by intros [= <-].
Qed.

Lemma emitOperation_operands opKinds depKinds prob opNames op (opOp : OperationOp Attribute) :
  emitOperation opKinds depKinds prob opNames op = inr opOp ->
  getOperands opOp = mappedValues prob (operandsOf prob op).
Proof.
  unfold emitOperation. destruct (emitDependences _ _ _ _); [done|].
  by intros [= <-].
Qed.

(** With the name table of the naming pass, the emission loop goes through
    all the operations of the problem. *)
Lemma emitOperations_nameTable opKinds depKinds prob operationNameFn (ops : list Operation) :
  ops ⊆ getOperations prob ->
  exists opOps,
    emitOperations opKinds depKinds prob (nameTable operationNameFn prob) ops = inr opOps.
Proof.
  induction ops as [|op ops IH]; intros Hsub; simpl; [by eauto|].
  destruct (emitDependences_nameTable depKinds prob operationNameFn op) as [depAttrs Hdeps].
  { apply Hsub, list_elem_of_here. }
  unfold emitOperation at 1. rewrite Hdeps.
  destruct IH as [opOps ->]; [|by eauto].
  intros op' Hin. apply Hsub. by apply elem_of_cons; right.
Qed.

(** The operation that [saveProblem] creates for the [i]-th operation of
    the problem follows the operator types in the new body. *)
Lemma saveProblem_operation prob (instanceName problemName : string) operationNameFn
    opKinds oprKinds depKinds instKinds (instOp' : InstanceOp Attribute) (i : nat) op :
  saveProblem prob instanceName problemName operationNameFn
              opKinds oprKinds depKinds instKinds = inr instOp' ->
  getOperations prob !! i = Some op ->
  exists opOp,
    getBody instOp' !! (length (getOperatorTypes prob) + i)%nat = Some (OperationDecl opOp) /\
    getSymNameAttr opOp = nameTable operationNameFn prob !! op.
Proof.
  unfold saveProblem.
  destruct (emitOperations _ _ _ _ _) as [err|opOps] eqn:Hops; [done|].
  intros [= <-] Hi. simpl. apply emitOperations_inr in Hops.
  destruct (Forall2_lookup_l _ _ _ _ _ Hops Hi) as (opOp & HopOp & Hemit).
  exists opOp. split; [|by eapply emitOperation_symName].
  rewrite lookup_app_r by (rewrite !length_fmap; lia).
  rewrite !length_fmap, Nat.add_comm, Nat.add_sub, list_lookup_fmap, HopOp. done.
Qed.

Lemma foldl_assignSourceName_needed operationNameFn opNames deps op (name : string) :
  foldl (assignSourceName operationNameFn) opNames deps !! op = Some name ->
  is_Some (opNames !! op) \/ exists dst, AuxDep op dst ∈ deps.
Proof.
  revert opNames. induction deps as [|dep deps IH]; intros opNames; simpl; [by eauto|].
  intros [Hold|[dst Hdst]]%IH.
  - destruct dep as [owner operandNumber|src dst]; simpl in Hold; [by left|].
    case_bool_decide; [by left|].
    destruct (decide (src = op)) as [->|Hne].
    + right. exists dst. apply list_elem_of_here.
    + left. destruct (operationNameFn src); by rewrite lookup_insert_ne in Hold.
  - right. exists dst. by apply elem_of_cons; right.
Qed.

Lemma foldl_assignNames_needed operationNameFn prob (ops : list Operation) opNames op
    (name : string) :
  foldl (assignNames operationNameFn prob) opNames ops !! op = Some name ->
  is_Some (opNames !! op) \/
  (op ∈ ops /\ is_Some (operationNameFn op)) \/
  exists op' dst, op' ∈ ops /\ AuxDep op dst ∈ getDependences prob op'.
Proof.
  revert opNames. induction ops as [|op0 ops IH]; intros opNames; simpl; [by eauto|].
  intros [Hold|[[Hin Hfn]|(op' & dst & Hin & Hdep)]]%IH.
  - unfold assignNames in Hold. destruct Hold as [name' Hold].
    apply foldl_assignSourceName_needed in Hold as [Hold|[dst Hdst]].
    + destruct (operationNameFn op0) as [provided|] eqn:Hfn; [|by left].
      destruct (decide (op0 = op)) as [->|Hne].
      * right. left. split; [apply list_elem_of_here|by rewrite Hfn].
      * left. by rewrite lookup_insert_ne in Hold.
    + right. right. exists op0, dst. split; [apply list_elem_of_here|done].
  - right. left. split; [by apply elem_of_cons; right|done].
  - right. right. exists op', dst. split; [by apply elem_of_cons; right|done].
Qed.

(** The name table holds an operation only if the caller names it or it is
    the source of an auxiliary dependence. *)
Lemma nameTable_needed operationNameFn prob op (name : string) :
  nameTable operationNameFn prob !! op = Some name ->
  (op ∈ getOperations prob /\ is_Some (operationNameFn op)) \/
  exists op' dst, op' ∈ getOperations prob /\ AuxDep op dst ∈ getDependences prob op'.
Proof.
  intros [Hold|Hneeded]%foldl_assignNames_needed; [|done].
  rewrite lookup_empty in Hold. by destruct Hold.
Qed.

End SaveNames.

Section SaveNamesTheorems.

Context {Attribute ProblemT : Type} {model : ProblemModel Attribute ProblemT}.

(** X12: [saveProblem] returns an instance for every problem, name function
    and kind lists: [assert(sourceOpName)] holds in every iteration of the
    emission loop, because the naming pass names the source of every
    auxiliary dependence that the loop looks up. The instance declares the
    operator types and then, for each operation of the problem, an operation
    whose operands are the mapped operands of that operation, an operand
    that is defined outside the problem included. *)
Theorem save_source_names_assigned (prob : ProblemT) (instanceName problemName : string)
    (operationNameFn : Operation -> option string)
    (opKinds : list (PropertyKind Attribute ProblemT Operation))
    (oprKinds : list (PropertyKind Attribute ProblemT OperatorType))
    (depKinds : list (PropertyKind Attribute ProblemT Dependence))
    (instKinds : list (PropertyKind Attribute ProblemT unit)) :
  exists instOp' : InstanceOp Attribute,
    saveProblem prob instanceName problemName operationNameFn
                opKinds oprKinds depKinds instKinds = inr instOp' /\
    length (getBody instOp')
    = (length (getOperatorTypes prob) + length (getOperations prob))%nat /\
    forall (i : nat) (op : Operation),
      getOperations prob !! i = Some op ->
      exists opOp,
        getBody instOp' !! (length (getOperatorTypes prob) + i)%nat
        = Some (OperationDecl opOp) /\
        getOperands opOp = mappedValues prob (operandsOf prob op).
Proof.
  destruct (emitOperations_nameTable opKinds depKinds prob operationNameFn
              (getOperations prob)) as [opOps Hops]; [done|].
  unfold saveProblem. rewrite Hops. eexists. split; [done|].
  apply emitOperations_inr in Hops. simpl. split.
  - rewrite length_app, !length_fmap. f_equal. symmetry. by eapply Forall2_length.
  - intros i op Hi.
    destruct (Forall2_lookup_l _ _ _ _ _ Hops Hi) as (opOp & HopOp & Hemit).
    exists opOp. split; [|by eapply emitOperation_operands].
    rewrite lookup_app_r by (rewrite !length_fmap; lia).
    rewrite !length_fmap, Nat.add_comm, Nat.add_sub, list_lookup_fmap, HopOp. done.
Qed.

(** X13: [saveProblem] honours the names of the caller: the operation created
    for an operation that the caller names carries that name. *)
Theorem save_honors_provided_names (prob : ProblemT) (instanceName problemName : string)
    (operationNameFn : Operation -> option string)
    (opKinds : list (PropertyKind Attribute ProblemT Operation))
    (oprKinds : list (PropertyKind Attribute ProblemT OperatorType))
    (depKinds : list (PropertyKind Attribute ProblemT Dependence))
    (instKinds : list (PropertyKind Attribute ProblemT unit))
    (instOp' : InstanceOp Attribute) (i : nat) (op : Operation) (name : string) :
  saveProblem prob instanceName problemName operationNameFn
              opKinds oprKinds depKinds instKinds = inr instOp' ->
  getOperations prob !! i = Some op ->
  operationNameFn op = Some name ->
  exists opOp,
    getBody instOp' !! (length (getOperatorTypes prob) + i)%nat = Some (OperationDecl opOp) /\
    getSymNameAttr opOp = Some name.
Proof.
  intros Hsave Hi Hfn.
  destruct (saveProblem_operation _ _ _ _ _ _ _ _ _ _ _ Hsave Hi) as (opOp & Hbody & Hname).
  exists opOp. split; [done|]. rewrite Hname.
  destruct (nameTable_names_operation operationNameFn prob op) as [name' Hname'].
  { by eapply list_elem_of_lookup_2. }
  { by rewrite Hfn. }
  rewrite Hname'. f_equal.
  eapply (provided_names _ _ (namesInvariant_nameTable operationNameFn prob)); done.
Qed.

(** X14: [saveProblem] names no operation without need: an operation that the
    caller does not name and that is the source of no auxiliary dependence is
    created without a symbol name. *)
Theorem save_names_only_when_needed (prob : ProblemT) (instanceName problemName : string)
    (operationNameFn : Operation -> option string)
    (opKinds : list (PropertyKind Attribute ProblemT Operation))
    (oprKinds : list (PropertyKind Attribute ProblemT OperatorType))
    (depKinds : list (PropertyKind Attribute ProblemT Dependence))
    (instKinds : list (PropertyKind Attribute ProblemT unit))
    (instOp' : InstanceOp Attribute) (i : nat) (op : Operation) :
  saveProblem prob instanceName problemName operationNameFn
              opKinds oprKinds depKinds instKinds = inr instOp' ->
  getOperations prob !! i = Some op ->
  operationNameFn op = None ->
  (forall op' dst, op' ∈ getOperations prob -> AuxDep op dst ∉ getDependences prob op') ->
  exists opOp,
    getBody instOp' !! (length (getOperatorTypes prob) + i)%nat = Some (OperationDecl opOp) /\
    getSymNameAttr opOp = None.
Proof.
  intros Hsave Hi Hfn Hnosrc.
  destruct (saveProblem_operation _ _ _ _ _ _ _ _ _ _ _ Hsave Hi) as (opOp & Hbody & Hname).
  exists opOp. split; [done|]. rewrite Hname.
  destruct (nameTable operationNameFn prob !! op) as [name|] eqn:Htable; [|done].
  apply nameTable_needed in Htable as [[_ [? Hsome]]|(op' & dst & Hin & Hdep)].
  - congruence.
  - by destruct (Hnosrc op' dst Hin).
Qed.

End SaveNamesTheorems.

(** ** The references of a saved instance *)

Section SavedReferences.

Context {Attribute ProblemT : Type} {model : ProblemModel Attribute ProblemT}.
Implicit Types (prob : ProblemT) (deps : list Dependence)
  (opKinds : list (PropertyKind Attribute ProblemT Operation))
  (oprKinds : list (PropertyKind Attribute ProblemT OperatorType))
  (depKinds : list (PropertyKind Attribute ProblemT Dependence))
  (instKinds : list (PropertyKind Attribute ProblemT unit))
  (opNames : gmap Operation string) (op src : Operation)
  (operationNameFn : Operation -> option string).

(** A record with a source reference stands for an auxiliary dependence of
    the enumeration, and the reference is the name of its source. *)
Lemma emitDependences_source depKinds prob opNames op
    (depAttrs : list (DependenceAttr Attribute)) (depAttr : DependenceAttr Attribute)
    (sourceRef : string) :
  emitDependences depKinds prob opNames op = inr depAttrs ->
  depAttr ∈ depAttrs -> getSourceRef depAttr = Some sourceRef ->
  exists src dst,
    AuxDep src dst ∈ getDependences prob op /\ opNames !! src = Some sourceRef.
Proof.
  unfold emitDependences.
  destruct (foldlE _ _ _) as [err|[depAttrs' idx']] eqn:Hfold; [done|].
  intros [= <-] Hin Hsrc.
  pose (Inv := fun st : list (DependenceAttr Attribute) * Z =>
          forall depAttr sourceRef,
            depAttr ∈ st.1 -> getSourceRef depAttr = Some sourceRef ->
            exists src dst,
              AuxDep src dst ∈ getDependences prob op /\ opNames !! src = Some sourceRef).
  apply (foldlE_preserves Inv) in Hfold; [by eapply (Hfold depAttr)| |].
  - intros [acc idx] dep [acc' idx''] Hdep Hacc. unfold emitDependence.
    destruct dep as [owner operandNumber|src dst].
    + destruct (saveDependenceProperties depKinds prob _); intros [= <- <-]; [|done].
      intros d ref [Hd|Hd%list_elem_of_singleton]%elem_of_app; [by apply Hacc|].
      by subst d.
    + destruct (opNames !! src) as [name|] eqn:Hname; [|done]. intros [= <- <-].
      intros d ref [Hd|Hd%list_elem_of_singleton]%elem_of_app; [by apply Hacc|].
      subst d. simpl. intros [= <-]. eauto.
  - intros d ref Hd. by apply elem_of_nil in Hd.
Qed.

Lemma emitOperation_dependences opKinds depKinds prob opNames op
    (opOp : OperationOp Attribute) :
  emitOperation opKinds depKinds prob opNames op = inr opOp ->
  emitDependences depKinds prob opNames op = inr (default [] (getDependencesAttr opOp)).
Proof.
  unfold emitOperation. destruct (emitDependences _ _ _ _) as [err|depAttrs]; [done|].
  intros [= <-]. simpl. by destruct depAttrs.
Qed.

(** The body that [saveProblem] builds. *)
Lemma saveProblem_body prob (instanceName problemName : string) operationNameFn
    opKinds oprKinds depKinds instKinds (instOp' : InstanceOp Attribute) :
  saveProblem prob instanceName problemName operationNameFn
              opKinds oprKinds depKinds instKinds = inr instOp' ->
  exists opOps,
    Forall2 (fun op opOp =>
               emitOperation opKinds depKinds prob (nameTable operationNameFn prob) op
               = inr opOp)
            (getOperations prob) opOps /\
    getBody instOp'
    = (OperatorTypeDecl <$> (emitOperatorType oprKinds prob <$> getOperatorTypes prob))
      ++ (OperationDecl <$> opOps).
Proof.
  unfold saveProblem.
  destruct (emitOperations _ _ _ _ _) as [err|opOps] eqn:Hops; [done|].
  intros [= <-]. exists opOps. split; [by apply emitOperations_inr|done].
Qed.

End SavedReferences.

Section SavedReferenceTheorems.

Context {Attribute ProblemT : Type} {model : ProblemModel Attribute ProblemT}.

(** X15: Every operation of the instance that [saveProblem] returns passes
    [verifySymbolUses], when the sources of the auxiliary dependences are
    operations of the problem and no name of the name table is the name of
    an operator type. *)
Theorem saved_references_resolve (prob : ProblemT) (instanceName problemName : string)
    (operationNameFn : Operation -> option string)
    (opKinds : list (PropertyKind Attribute ProblemT Operation))
    (oprKinds : list (PropertyKind Attribute ProblemT OperatorType))
    (depKinds : list (PropertyKind Attribute ProblemT Dependence))
    (instKinds : list (PropertyKind Attribute ProblemT unit))
    (instOp' : InstanceOp Attribute) :
  saveProblem prob instanceName problemName operationNameFn
              opKinds oprKinds depKinds instKinds = inr instOp' ->
  (forall op src dst,
     op ∈ getOperations prob -> AuxDep src dst ∈ getDependences prob op ->
     src ∈ getOperations prob) ->
  (forall op name,
     nameTable operationNameFn prob !! op = Some name -> name ∉ getOperatorTypes prob) ->
  forall op opOp,
    getBody instOp' !! op = Some (OperationDecl opOp) ->
    verifySymbolUses instOp' opOp = success.
Proof.
  intros Hsave Hsources Hnames h opOp Hh.
  destruct (saveProblem_body _ _ _ _ _ _ _ _ _ Hsave) as (opOps & Hemit & Hbody).
  set (opNames := nameTable operationNameFn prob) in *.
  assert (forall (j : nat) op opOp',
            getOperations prob !! j = Some op -> opOps !! j = Some opOp' ->
            getBody instOp' !! (length (getOperatorTypes prob) + j)%nat
            = Some (OperationDecl opOp')) as Hnth.
  { intros j op opOp' Hop HopOp. rewrite Hbody.
    rewrite lookup_app_r by (rewrite !length_fmap; lia).
    rewrite !length_fmap, Nat.add_comm, Nat.add_sub, list_lookup_fmap, HopOp. done. }
  assert (exists (j : nat) op, getOperations prob !! j = Some op /\ opOps !! j = Some opOp)
    as (j & op & Hop & HopOp).
  { rewrite Hbody in Hh. apply lookup_app_Some in Hh as [Hh|[Hge Hh]].
    - rewrite list_lookup_fmap in Hh. by destruct (_ !! h).
    - rewrite list_lookup_fmap in Hh.
      destruct (opOps !! _) as [opOp'|] eqn:HopOp; [|done]. injection Hh as ->.
      destruct (Forall2_lookup_r _ _ _ _ _ Hemit HopOp) as (op & Hop & _). eauto. }
  pose proof (Forall2_lookup_lr _ _ _ _ _ _ Hemit Hop HopOp) as Hemitted.
  pose proof (emitOperation_dependences _ _ _ _ _ _ Hemitted) as Hdeps.
  unfold verifySymbolUses.
  destruct (getDependencesAttr opOp) as [depAttrs|] eqn:Hattr; [|done]. simpl in Hdeps.
  apply verifySymbolUsesIn_success, Forall_forall. intros depAttr Hin sourceRef Hsrc.
  destruct (emitDependences_source _ _ _ _ _ _ _ Hdeps Hin Hsrc)
    as (src & dst & Hdep & Hname).
  assert (src ∈ getOperations prob) as Hsrcop.
  { eapply Hsources; [|done]. by eapply list_elem_of_lookup_2. }
  apply list_elem_of_lookup in Hsrcop as [k Hk].
  destruct (Forall2_lookup_l _ _ _ _ _ Hemit Hk) as (srcOp & HsrcOp & Hsrcemit).
  apply emitOperation_symName in Hsrcemit. fold opNames in Hsrcemit.
  rewrite Hname in Hsrcemit.
  pose proof (Hnth _ _ _ Hk HsrcOp) as Hdecl.
  unfold resolvesToOperation, lookupSymbolIn, isaOperationOp.
  destruct (list_find (fun decl => getSymbolName decl = Some sourceRef) (getBody instOp'))
    as [[i decl]|] eqn:Hfind.
  2:{ apply list_find_None in Hfind. rewrite Forall_forall in Hfind.
      exfalso. apply (Hfind (OperationDecl srcOp)); [|done].
      by eapply list_elem_of_lookup_2. }
  apply list_find_Some in Hfind as (Hi & Hsym & _).
  exists i. simpl. split; [done|].
  destruct decl as [oprOp|opOp'].
  2:{ match goal with
      | |- match ?lookup with _ => _ end = _ =>
          replace lookup with (Some (OperationDecl opOp')) by (symmetry; exact Hi)
      end. done. }
  exfalso.
  rewrite Hbody in Hi. apply lookup_app_Some in Hi as [Hi|[_ Hi]].
  - rewrite <- list_fmap_compose, list_lookup_fmap in Hi.
    destruct (getOperatorTypes prob !! i) as [opr|] eqn:Hopr; [|done].
    injection Hi as <-. simpl in Hsym. injection Hsym as ->.
    apply (Hnames src sourceRef Hname). exact (list_elem_of_lookup_2 _ _ _ Hopr).
  - rewrite list_lookup_fmap in Hi. by apply fmap_Some in Hi as (? & _ & ?).
Qed.

End SavedReferenceTheorems.

(** ** The text of an emitted operation *)

Section EmittedText.

Context {Attribute ProblemT : Type} {model : ProblemModel Attribute ProblemT}.
Implicit Types (prob : ProblemT)
  (opKinds : list (PropertyKind Attribute ProblemT Operation))
  (depKinds : list (PropertyKind Attribute ProblemT Dependence)).

Lemma elem_of_recordsFrom_data depKinds prob (opNames : gmap Operation string) (next : Z)
    (deps : list Dependence) (depAttr : DependenceAttr Attribute) :
  sourcesNamed opNames deps ->
  depAttr ∈ recordsFrom depKinds prob opNames next deps ->
  getSourceRef depAttr = None -> is_Some (getProperties depAttr).
Proof.
  intros Hnamed Hin Hsrc.
  assert (depAttr ∈ filter isDataRecord (recordsFrom depKinds prob opNames next deps))
    as Hdata by (by apply list_elem_of_filter).
  rewrite recordsFrom_data in Hdata by done.
  apply list_elem_of_omap in Hdata as (dep & _ & Hrec).
  unfold dataRecordOf in Hrec. destruct dep; [|done].
  destruct (saveDependenceProperties _ _ _); [|done]. injection Hrec as <-. by eauto.
Qed.

(** The operation that [saveProblem] emits for an operation of the problem
    is one that the verifier accepts, with property lists on its data
    records. *)
Lemma emitOperation_verified (operationNameFn : Operation -> option string)
    opKinds depKinds prob (op : Operation) (opOp : OperationOp Attribute) :
  op ∈ getOperations prob ->
  Z.of_nat (length (operandsOf prob op))
    + Z.of_nat (length (getDependences prob op)) <= INT_MAX ->
  operandsFirst (length (operandsOf prob op)) 0 (getDependences prob op) ->
  emitOperation opKinds depKinds prob (nameTable operationNameFn prob) op = inr opOp ->
  indicesUnsigned (default [] (getDependencesAttr opOp)) /\
  Z.of_nat (length (getOperands opOp))
    + Z.of_nat (length (default [] (getDependencesAttr opOp))) <= INT_MAX /\
  verify opOp = success /\
  getDependencesAttr opOp ≠ Some [] /\
  (forall dep, dep ∈ default [] (getDependencesAttr opOp) -> getSourceRef dep = None ->
     is_Some (getProperties dep)).
Proof.
  set (opNames := nameTable operationNameFn prob).
  set (deps := getDependences prob op). set (nOperands := length (operandsOf prob op)).
  intros Hop Hlen Hord.
  assert (sourcesNamed opNames deps) as Hnamed.
  { intros src dst Hin. by eapply nameTable_names_sources. }
  assert (Z.of_nat nOperands mod UINT_RANGE = Z.of_nat nOperands) as Hmod
    by (apply Z.mod_small; unfold UINT_RANGE, INT_MAX in *; lia).
  destruct (foldlE_emitDependence depKinds prob opNames deps [] (Z.of_nat nOperands))
    as [idx' Hfold]; [done|lia|unfold UINT_RANGE, INT_MAX in *; lia|].
  simpl in Hfold. unfold emitOperation, emitDependences.
  fold nOperands deps. rewrite Hmod, Hfold.
  pose proof (mappedValues_length prob (operandsOf prob op)) as Hmap.
  intros [= <-]. simpl.
  pose proof (verifyDependences_recordsFrom depKinds prob opNames deps nOperands 0 (-1)
                Hnamed Hord ltac:(lia) ltac:(lia) Hlen) as Hverify.
  pose proof (length_recordsFrom depKinds prob opNames (Z.of_nat nOperands) deps) as Hle.
  assert (indicesUnsigned (recordsFrom depKinds prob opNames (Z.of_nat nOperands) deps))
    as Hu by (apply indicesUnsigned_recordsFrom; unfold UINT_RANGE, INT_MAX in *; lia).
  pose proof (elem_of_recordsFrom_data depKinds prob opNames (Z.of_nat nOperands) deps)
    as Hdata.
  set (depAttrs := recordsFrom depKinds prob opNames (Z.of_nat nOperands) deps) in *.
  assert (default [] match depAttrs with [] => None | _ :: _ => Some depAttrs end
          = depAttrs) as -> by (by destruct depAttrs).
  rewrite Hmap. fold nOperands. split_and!; [done|lia| |by destruct depAttrs|by eauto].
  unfold verify, getNumOperands. simpl. rewrite Hmap. fold nOperands.
  rewrite Hmod, to_int_small by lia. by destruct depAttrs.
Qed.

End EmittedText.

Section EmittedTextTheorems.

Context {Attribute ProblemT : Type} {model : ProblemModel Attribute ProblemT}.

(** X16: What [saveProblem] emits survives printing and parsing: for an
    operation of the problem whose dependences are enumerated operands
    first, [OperationOp::print] writes the emitted operation as a text of the
    grammar, and [OperationOp::parse] reads the emitted operation back from
    it. The names the printer writes resolve to the values. *)
Theorem emitted_operation_print_parse_round_trip (nameOf : Value -> UnresolvedOperand)
    (scope : UnresolvedOperand -> option Value)
    (operationNameFn : Operation -> option string)
    (opKinds : list (PropertyKind Attribute ProblemT Operation))
    (depKinds : list (PropertyKind Attribute ProblemT Dependence))
    (prob : ProblemT) (op : Operation) (opOp : OperationOp Attribute) :
  op ∈ getOperations prob ->
  Z.of_nat (length (operandsOf prob op))
    + Z.of_nat (length (getDependences prob op)) <= INT_MAX ->
  operandsFirst (length (operandsOf prob op)) 0 (getDependences prob op) ->
  emitOperation opKinds depKinds prob (nameTable operationNameFn prob) op = inr opOp ->
  (forall v, v ∈ getOperands opOp -> scope (nameOf v) = Some v) ->
  exists tokens,
    print nameOf opOp = Some tokens /\
    (exists syn, Forall hasSource (synEntries syn) /\ render syn = tokens) /\
    (forall syn,
       Forall hasSource (synEntries syn) -> render syn = tokens ->
       synNumResults syn = getNumResults opOp ->
       parseOperation scope syn = inr opOp).
Proof.
  intros Hop Hlen Hord Hemit Hscope.
  destruct (emitOperation_verified operationNameFn opKinds depKinds prob op opOp
              Hop Hlen Hord Hemit) as (Hu & Hlen' & Hok & Hnonempty & Hprops).
  destruct (print_syntaxOf nameOf scope opOp Hu Hlen' Hok Hnonempty Hprops Hscope)
    as (Hs & Hprint & Hparse).
  exists (render (syntaxOf nameOf opOp)).
  split_and!; [done|by exists (syntaxOf nameOf opOp)|].
  intros syn Hs' Hrender Hres.
  by rewrite (rendered_syntax_unique syn (syntaxOf nameOf opOp)).
Qed.

End EmittedTextTheorems.

(** ** Examples for the printer, the loader and the saver *)

Lemma parse_exampleSyntax :
  parseOperation exampleScope exampleSyntax = inr exampleOperationOp.
Proof. reflexivity. Qed.

(** The attribute dictionary can give the dependences attribute: an empty
    array, or records that the list form does not make; the operation of
    [beyondOperandsSyntax] fails [OperationOp::verify] although the operand
    comes first, and that of [dictionaryRecordSyntax] is printed in the list
    form. A text that gives the attribute twice is rejected. *)
Example parse_attribute_dictionary :
  parseOperation exampleScope emptyDependencesSyntax
  = inr (mkOperationOp (Some "op5") [] 1%nat (Some []) None) /\
  (exists op,
     parseOperation exampleScope beyondOperandsSyntax = inr op /\
     operandsLead (synEntries beyondOperandsSyntax) /\
     verify op = failure msgOutOfBounds) /\
  (exists op,
     parseOperation exampleScope dictionaryRecordSyntax = inr op /\
     print exampleNameOf op
     = Some [LParenToken; OperandToken "a"; ArrayToken [("p", 1)]; RParenToken] /\
     render dictionaryRecordSyntax
     = [LParenToken; OperandToken "a"; RParenToken;
        AttrDictToken [NamedDependences [mkDependenceAttr 0 None (Some [("p", 1)])]]]) /\
  parseOperation exampleScope duplicateDependencesSyntax
  = inl (msgDuplicate "dependences").
Proof.
  split_and!; [reflexivity| | |reflexivity].
  - eexists. split_and!; [reflexivity| |reflexivity].
    exists [mkDependenceEntry (OperandSource "a") None], [].
    split; [reflexivity|]. split; repeat constructor.
  - eexists. split_and!; reflexivity.
Qed.

Lemma parsed_operation_verifies_iff_witness :
  verify exampleOperationOp = success <-> operandsLead exampleEntries.
Proof.
  apply (parsed_operation_verifies_iff exampleScope exampleSyntax exampleOperationOp).
  - unfold INT_MAX. simpl. lia.
  - simpl. intros deps Hin. by apply elem_of_nil in Hin.
  - reflexivity.
Defined.

Lemma parsed_interleaved_reference_rejected_witness :
  parseOperation exampleScope interleavedSyntax = inr interleavedOperationOp /\
  verify interleavedOperationOp
  = failure "Auxiliary dependence from @op0 is interleaved with SSA operands".
Proof.
  split; [reflexivity|].
  apply (parsed_interleaved_reference_rejected exampleScope interleavedSyntax
           interleavedOperationOp [] [mkDependenceEntry (OperandSource "a") None]
           (mkDependenceEntry (SymbolSource "op0") None) "op0").
  - reflexivity.
  - constructor.
  - reflexivity.
  - constructor. exact I.
  - unfold INT_MAX. simpl. lia.
  - reflexivity.
Defined.

Lemma verify_index_beyond_int_witness :
  verify (mkOperationOp (Attribute := ExampleAttr) None [OpResult 0%nat 0%nat] 1%nat
            (Some [mkDependenceAttr 4294967295 None None]) None)
  = failure msgNotIncreasing.
Proof.
  apply (verify_index_beyond_int None [OpResult 0%nat 0%nat] 1%nat None []
           [] (mkDependenceAttr 4294967295 None None)).
  - unfold INT_MAX. simpl. lia.
  - reflexivity.
  - reflexivity.
  - unfold INT_MAX, UINT_RANGE. simpl. lia.
Defined.

Lemma exampleOperationOp_unsigned :
  indicesUnsigned (default [] (getDependencesAttr exampleOperationOp)).
Proof. repeat constructor; unfold UINT_RANGE; simpl; lia. Qed.

Lemma print_verified_in_bounds_witness :
  exists tokens, print exampleNameOf exampleOperationOp = Some tokens.
Proof.
  apply (print_verified_in_bounds exampleNameOf exampleOperationOp).
  - exact exampleOperationOp_unsigned.
  - unfold UINT_RANGE. simpl. lia.
  - reflexivity.
Defined.

Lemma print_out_of_bounds_witness :
  verify overflowingOperationOp = failure msgOutOfBounds /\
  print exampleNameOf overflowingOperationOp = None.
Proof.
  split; [reflexivity|].
  apply (print_out_of_bounds exampleNameOf overflowingOperationOp
           (mkDependenceAttr 1 None (Some [("p", 7)]))).
  - simpl. apply list_elem_of_here.
  - reflexivity.
  - vm_compute. intros [_ H]. discriminate H.
Defined.

Lemma parse_print_round_trip_witness :
  print exampleNameOf exampleOperationOp = Some (render exampleSyntax).
Proof.
  apply (parse_print_round_trip exampleNameOf exampleScope exampleSyntax exampleOperationOp).
  - reflexivity.
  - exists (take 2 exampleEntries), (drop 2 exampleEntries).
    split; [reflexivity|]. split; repeat constructor.
  - unfold UINT_RANGE. simpl. lia.
  - intros o v Hin Hv. vm_compute in Hin.
    apply elem_of_cons in Hin as [->|Hin]; [by injection Hv as <-|].
    apply elem_of_cons in Hin as [->|Hin]; [by injection Hv as <-|].
    by apply elem_of_nil in Hin.
  - reflexivity.
Defined.

Lemma print_parse_round_trip_witness :
  exists tokens,
    print exampleNameOf exampleOperationOp = Some tokens /\
    (exists syn, Forall hasSource (synEntries syn) /\ render syn = tokens) /\
    (forall syn,
       Forall hasSource (synEntries syn) -> render syn = tokens ->
       synNumResults syn = getNumResults exampleOperationOp ->
       parseOperation exampleScope syn = inr exampleOperationOp).
Proof.
  apply (print_parse_round_trip exampleNameOf exampleScope exampleOperationOp).
  - exact exampleOperationOp_unsigned.
  - unfold INT_MAX. simpl. lia.
  - reflexivity.
  - discriminate.
  - simpl. intros dep Hin Hsrc.
    repeat (apply elem_of_cons in Hin as [->|Hin]; [by eauto|]).
    by apply elem_of_nil in Hin.
  - simpl. intros v Hin.
    repeat (apply elem_of_cons in Hin as [->|Hin]; [reflexivity|]).
    by apply elem_of_nil in Hin.
Defined.


Lemma exampleInstance_verified (op : Operation) (opOp : OperationOp ExampleAttr) :
  getBody exampleInstance !! op = Some (OperationDecl opOp) ->
  indicesUnsigned (default [] (getDependencesAttr opOp)) /\
  verify opOp = success /\ verifySymbolUses exampleInstance opOp = success.
Proof.
  intros Hbody. destruct op as [|[|[|[|[|op]]]]]; simpl in Hbody; try done.
  all: injection Hbody as <-.
  all: split_and!; try reflexivity; repeat constructor; unfold UINT_RANGE; simpl; lia.
Qed.

Lemma verified_instance_load_witness :
  exists prob,
    loadProblem exampleInstance exampleOpKinds exampleOprKinds exampleDepKinds
                exampleInstKinds = inr prob.
Proof.
  destruct (verified_instance_load exampleInstance exampleOpKinds exampleOprKinds
              exampleDepKinds exampleInstKinds exampleInstance_verified) as [Herr _].
  destruct (loadProblem exampleInstance exampleOpKinds exampleOprKinds exampleDepKinds
              exampleInstKinds) as [err|prob] eqn:Hload; [|by eauto].
  specialize (Herr err eq_refl). subst err. vm_compute in Hload. discriminate Hload.
Defined.

Lemma dispatch_order_irrelevant_when_disjoint_witness :
  loadProperties exampleOpKinds (Problem_get exampleInstance) 2%nat
    (Some [("startTime", 3); ("opr", 0)])
  = loadProperties (reverse exampleOpKinds) (Problem_get exampleInstance) 2%nat
      (Some [("startTime", 3); ("opr", 0)]).
Proof.
  apply (dispatch_order_irrelevant_when_disjoint exampleOpKinds (reverse exampleOpKinds)).
  - apply perm_swap.
  - intros prop kind kind' _ Hin Hin' Hacc Hacc'.
    unfold exampleOpKinds, exampleOpDescs, kindsAt in Hin, Hin'. simpl in Hin, Hin'.
    apply elem_of_cons in Hin as [->|Hin]; apply elem_of_cons in Hin' as [->|Hin'];
      try apply list_elem_of_singleton in Hin as ->;
      try apply list_elem_of_singleton in Hin' as ->;
      try reflexivity; simpl in Hacc, Hacc';
      apply bool_decide_eq_true in Hacc; apply bool_decide_eq_true in Hacc';
      rewrite Hacc in Hacc'; discriminate Hacc'.
Defined.

(** The operand of the operation of [openProblem] is defined outside the
    problem: the saved operation keeps the backedge as its operand. *)
Example save_open_problem :
  saveProblem openProblem "inst" "Problem" exampleNameFn
    exampleOpKinds exampleOprKinds exampleDepKinds exampleInstKinds
  = inr (mkInstanceOp "inst" "Problem" None
           [OperationDecl
              (mkOperationOp None [backedge openProblem (OpResult 0%nat 0%nat)] 1%nat
                 None None)]).
Proof. reflexivity. Qed.

Lemma save_honors_provided_names_witness :
  exists opOp,
    getBody exampleInstance !! 2%nat = Some (OperationDecl opOp) /\
    getSymNameAttr opOp = Some "op0".
Proof.
  refine (save_honors_provided_names exampleProblem "inst" "Problem" exampleNameFn
            exampleOpKinds exampleOprKinds exampleDepKinds exampleInstKinds
            exampleInstance 0%nat 2%nat "op0" _ _ _).
  - vm_compute. reflexivity.
  - reflexivity.
  - reflexivity.
Defined.

Lemma save_names_only_when_needed_witness :
  exists opOp,
    getBody exampleInstance !! 3%nat = Some (OperationDecl opOp) /\
    getSymNameAttr opOp = None.
Proof.
  refine (save_names_only_when_needed exampleProblem "inst" "Problem" exampleNameFn
            exampleOpKinds exampleOprKinds exampleDepKinds exampleInstKinds
            exampleInstance 1%nat 3%nat _ _ _ _).
  - vm_compute. reflexivity.
  - reflexivity.
  - reflexivity.
  - intros op' dst Hin Hdep. simpl in Hin.
    repeat (apply elem_of_cons in Hin as [->|Hin];
            [vm_compute in Hdep;
             repeat (apply elem_of_cons in Hdep as [Hdep|Hdep]; [discriminate Hdep|]);
             by apply elem_of_nil in Hdep|]).
    by apply elem_of_nil in Hin.
Defined.

Lemma saved_references_resolve_witness :
  verifySymbolUses exampleInstance
    (mkOperationOp None [] 1%nat (Some [mkDependenceAttr 0 (Some "op0") None])
                   (Some [("opr", 1)]))
  = success.
Proof.
  refine (saved_references_resolve exampleProblem "inst" "Problem" exampleNameFn
            exampleOpKinds exampleOprKinds exampleDepKinds exampleInstKinds
            exampleInstance _ _ _ 4%nat _ _).
  - vm_compute. reflexivity.
  - intros op src dst Hin Hdep. simpl in Hin.
    repeat (apply elem_of_cons in Hin as [->|Hin];
            [vm_compute in Hdep;
             repeat (apply elem_of_cons in Hdep as [Hdep|Hdep];
                     [try discriminate Hdep; injection Hdep as -> _; vm_compute;
                      apply list_elem_of_here|]);
             by apply elem_of_nil in Hdep|]).
    by apply elem_of_nil in Hin.
  - intros op name Htable.
    assert (op = 2%nat) as ->.
    { apply nameTable_needed in Htable as [[Hin [name' Hfn]]|(op' & dst & Hin & Hdep)].
      - unfold exampleNameFn in Hfn. by case_bool_decide.
      - simpl in Hin.
        repeat (apply elem_of_cons in Hin as [->|Hin];
                [vm_compute in Hdep;
                 repeat (apply elem_of_cons in Hdep as [Hdep|Hdep];
                         [try discriminate Hdep; by injection Hdep as -> _|]);
                 by apply elem_of_nil in Hdep|]).
        by apply elem_of_nil in Hin. }
    vm_compute in Htable. injection Htable as <-.
    intros Hin. repeat (apply elem_of_cons in Hin as [Hin|Hin]; [discriminate Hin|]).
    by apply elem_of_nil in Hin.
  - reflexivity.
Defined.

Lemma emitted_operation_print_parse_round_trip_witness :
  let opOp : OperationOp ExampleAttr :=
    mkOperationOp None [OpResult 2%nat 0%nat] 1%nat
      (Some [mkDependenceAttr 0 None (Some [("distance", 1)])]) (Some [("opr", 1)]) in
  exists tokens,
    print exampleNameOf opOp = Some tokens /\
    (exists syn, Forall hasSource (synEntries syn) /\ render syn = tokens) /\
    (forall syn,
       Forall hasSource (synEntries syn) -> render syn = tokens ->
       synNumResults syn = getNumResults opOp ->
       parseOperation (fun _ => Some (OpResult 2%nat 0%nat)) syn = inr opOp).
Proof.
  refine (emitted_operation_print_parse_round_trip exampleNameOf
            (fun _ => Some (OpResult 2%nat 0%nat)) exampleNameFn
            exampleOpKinds exampleDepKinds exampleProblem 3%nat _ _ _ _ _ _).
  - simpl. apply elem_of_cons. right. apply list_elem_of_here.
  - unfold INT_MAX. simpl. lia.
  - simpl. lia.
  - vm_compute. reflexivity.
  - simpl. intros v Hin. apply list_elem_of_singleton in Hin as ->. reflexivity.
Defined.
